(** * fifo-map / fifo-set: insertion-ordered hash containers

    A shallow embedding of [nonstd::fifo_set] (include/nonstd/fifo-set.hpp)
    and [nonstd::fifo_map] (include/nonstd/fifo-map.hpp).

    Both containers are a [std::forward_list] of elements together with a
    [std::unordered_map] from an element's identity to the list position
    *before* the element, and a cached iterator [list_back].

    The two standard containers are modelled by their library semantics:
    - the forward list is a sequence of cells, each with a stable node
      address; an iterator is the address of the list's before-begin slot,
      the address of a node, or the past-the-end value;
    - the unordered map is a finite map ([gmap]) from identities to list
      iterators (the key object is a reference into node storage that is
      hashed and compared through the identity it refers to).
    Using an iterator that does not belong to the list is undefined
    behaviour in C++; the model reports it as a failure. *)

From stdpp Require Import base option list gmap.

(** ** Outcomes of an operation *)

Inductive failure :=
  | out_of_range          (* std::out_of_range thrown by unordered_map::at *)
  | assertion_failed      (* assert(...) violated *)
  | undefined_behaviour.  (* invalid iterator used with the list *)

Inductive result (A : Type) :=
  | Ok (a : A)
  | Fail (f : failure).
Arguments Ok {A} a.
Arguments Fail {A} f.

#[global] Instance result_ret : MRet result := λ A a, Ok a.
#[global] Instance result_bind : MBind result := λ A B f r,
  match r with Ok a => f a | Fail e => Fail e end.

#[global] Instance failure_eq_dec : EqDecision failure.
Proof. solve_decision. Defined.
#[global] Instance result_eq_dec `{EqDecision A} : EqDecision (result A).
Proof. solve_decision. Defined.

(** ** Addresses and list iterators *)

(** Address of a list node. *)
Definition addr := nat.
(** Address of a list object, that is, of its before-begin slot. *)
Definition loc := nat.

Inductive list_iterator :=
  | BeforeBegin (l : loc)
  | Node (a : addr)
  | End.

#[global] Instance list_iterator_eq_dec : EqDecision list_iterator.
Proof. solve_decision. Defined.

(** The node allocator behind [std::forward_list]: given the addresses of the
    nodes the list currently owns it returns an address none of them has. *)
Class Allocator := {
  alloc : list addr → addr;
  alloc_fresh : ∀ live, alloc live ∉ live
}.

(** A bump allocator: one past the largest live address. *)
Definition bump (live : list addr) : addr := S (max_list live).

#[global, refine] Instance bump_allocator : Allocator := {| alloc := bump |}.
Proof.
  intros live Hin. apply max_list_elem_of_le in Hin. unfold bump in Hin. lia.
Defined.

(** ** std::forward_list *)

Module forward_list.
Section forward_list.
Context {V : Type} `{Allocator}.

Record t := mk { head : loc; cells : list (addr * V) }.

Definition addrs (l : t) : list addr := (cells l).*1.
Definition values (l : t) : list V := (cells l).*2.

(** Index of the node with address [a]. *)
Fixpoint index_of (a : addr) (cs : list (addr * V)) : option nat :=
  match cs with
  | [] => None
  | c :: cs' => if decide (c.1 = a) then Some 0 else S <$> index_of a cs'
  end.

(** Iterator to the [i]-th node, past-the-end when there is none. *)
Definition node_at (cs : list (addr * V)) (i : nat) : list_iterator :=
  match cs !! i with
  | Some c => Node c.1
  | None => End
  end.

(** Number of nodes up to and including position [pos]: 0 for the
    before-begin slot of this very list, [i+1] for its [i]-th node.
    Positions of other lists and past-the-end have none. *)
Definition offset (l : t) (pos : list_iterator) : result nat :=
  match pos with
  | BeforeBegin h =>
      if decide (h = head l) then Ok 0 else Fail undefined_behaviour
  | Node a =>
      match index_of a (cells l) with
      | Some i => Ok (S i)
      | None => Fail undefined_behaviour
      end
  | End => Fail undefined_behaviour
  end.

Definition new_at (h : loc) : t := mk h [].
Definition before_begin (l : t) : list_iterator := BeforeBegin (head l).
Definition begin (l : t) : list_iterator := node_at (cells l) 0.
Definition empty (l : t) : bool := bool_decide (cells l = []).

Definition front (l : t) : result V :=
  match cells l with
  | c :: _ => Ok c.2
  | [] => Fail undefined_behaviour
  end.

(** [*it] *)
Definition deref (l : t) (it : list_iterator) : result V :=
  match it with
  | Node a =>
      match index_of a (cells l) ≫= (cells l !!.) with
      | Some c => Ok c.2
      | None => Fail undefined_behaviour
      end
  | _ => Fail undefined_behaviour
  end.

(** [++it] *)
Definition next (l : t) (it : list_iterator) : result list_iterator :=
  i ← offset l it; Ok (node_at (cells l) i).

Definition insert_after (l : t) (pos : list_iterator) (v : V)
  : result (t * list_iterator) :=
  i ← offset l pos;
  let a := alloc (addrs l) in
  Ok (mk (head l) (take i (cells l) ++ (a, v) :: drop i (cells l)), Node a).

Definition erase_after (l : t) (pos : list_iterator)
  : result (t * list_iterator) :=
  i ← offset l pos;
  match cells l !! i with
  | Some _ =>
      let cs := delete i (cells l) in
      Ok (mk (head l) cs, node_at cs i)
  | None => Fail undefined_behaviour
  end.

Definition clear (l : t) : t := mk (head l) [].

(** [*it = v] *)
Definition assign (l : t) (it : list_iterator) (v : V) : result t :=
  match it with
  | Node a =>
      match index_of a (cells l) with
      | Some i => Ok (mk (head l) (<[i := (a, v)]> (cells l)))
      | None => Fail undefined_behaviour
      end
  | _ => Fail undefined_behaviour
  end.

(** Move construction of a list object at address [h]: the nodes change
    owner and keep their addresses; the before-begin slot is the new
    object's own. *)
Definition move_to (h : loc) (l : t) : t := mk h (cells l).

(** Traversal [for (it = from; it != end(); ++it)], collecting [*it]. *)
Fixpoint traverse (fuel : nat) (l : t) (it : list_iterator)
  : result (list V) :=
  match it with
  | End => Ok []
  | _ =>
      match fuel with
      | 0 => Fail undefined_behaviour
      | S fuel' =>
          v ← deref l it;
          it' ← next l it;
          vs ← traverse fuel' l it';
          Ok (v :: vs)
      end
  end.

Definition to_list (l : t) : result (list V) :=
  traverse (length (cells l)) l (begin l).
(** The position from which the [i]-th node is reached in one step. *)
Definition pos_before (l : t) (i : nat) : list_iterator :=
  match i with
  | 0 => before_begin l
  | S j => node_at (cells l) j
  end.

End forward_list.
Arguments t : clear implicits.
End forward_list.

(** ** The container engine shared by both facades

    [fifo_set] and [fifo_map] carry the same three members and the same
    member functions; they differ in the element type and in how the
    identity is read off an element ([value] for the set, [value.first]
    for the map).  The engine is written once over [key_of]. *)

Module fifo.
Import forward_list.
Section fifo.
Context {K V : Type} `{Countable K} `{Allocator} (key_of : V → K).

Record t := mk {
  map_ : gmap K list_iterator;
  list_ : forward_list.t V;
  list_back : list_iterator
}.

(** [unordered_map::at]: throws when the key is missing. *)
Definition map_at (m : gmap K list_iterator) (k : K) : result list_iterator :=
  match m !! k with
  | Some it => Ok it
  | None => Fail out_of_range
  end.

(** [unordered_map::emplace]: keeps an existing entry. *)
Definition map_emplace (k : K) (it : list_iterator)
    (m : gmap K list_iterator) : gmap K list_iterator :=
  match m !! k with
  | Some _ => m
  | None => <[k := it]> m
  end.

(** Default construction of a container whose list object lives at [h]:
    [list_back{list.before_begin()}]. *)
Definition new_at (h : loc) : t :=
  mk ∅ (forward_list.new_at h) (BeforeBegin h).

Definition count (k : K) (c : t) : nat :=
  match map_ c !! k with Some _ => 1 | None => 0 end.
Definition size (c : t) : nat := base.size (map_ c).
Definition empty (c : t) : bool := bool_decide (map_ c = ∅).
Definition begin (c : t) : list_iterator := forward_list.begin (list_ c).
Definition end_ (c : t) : list_iterator := End.

(** [emplace_back]: [map.find] on the identity of the candidate element;
    the new index entry is keyed by the element now stored in the node at
    [list_back], which is [value]. *)
Definition emplace_back (value : V) (c : t)
    : result (t * (list_iterator * bool)) :=
  match map_ c !! key_of value with
  | None =>
      let list_before_item := list_back c in
      '(l, it) ← insert_after (list_ c) (list_back c) value;
      let m := map_emplace (key_of value) list_before_item (map_ c) in
      Ok (mk m l it, (it, true))
  | Some list_it =>
      list_it' ← next (list_ c) list_it;
      Ok (c, (list_it', false))
  end.

Definition emplace (value : V) (c : t) : result (t * (list_iterator * bool)) :=
  emplace_back value c.

(** [list_it] is a reference: to [list_back] when the container is empty,
    otherwise to the index slot of the current first element.  The
    assignment [list_it = list.insert_after(...)] writes through it. *)
Definition emplace_front (value : V) (c : t)
    : result (t * (list_iterator * bool)) :=
  match map_ c !! key_of value with
  | None =>
      if empty c then
        let list_before_item := list_back c in
        '(l, it) ← insert_after (list_ c) list_before_item value;
        let m := map_emplace (key_of value) list_before_item (map_ c) in
        Ok (mk m l it, (it, true))
      else
        f ← front (list_ c);
        list_before_item ← map_at (map_ c) (key_of f);
        '(l, it) ← insert_after (list_ c) list_before_item value;
        let m := <[key_of f := it]> (map_ c) in
        let m := map_emplace (key_of value) list_before_item m in
        Ok (mk m l (list_back c), (it, true))
  | Some list_it =>
      list_it' ← next (list_ c) list_it;
      Ok (c, (list_it', false))
  end.

(** The part both [erase] overloads share, from [map.erase(map_it)] on;
    [k] and [list_before_item] are the key and the value of [map_it]. *)
Definition erase_entry (k : K) (list_before_item : list_iterator) (c : t)
    : result t :=
  let m := delete k (map_ c) in
  '(l, list_it) ← erase_after (list_ c) list_before_item;
  if decide (list_it = End) then
    Ok (mk m l list_before_item)
  else
    y ← deref l list_it;
    _ ← map_at m (key_of y);
    Ok (mk (<[key_of y := list_before_item]> m) l (list_back c)).

(** [erase(list_iterator)] *)
Definition erase_it (list_it : list_iterator) (c : t) : result t :=
  x ← deref (list_ c) list_it;
  match map_ c !! key_of x with
  | None => Fail assertion_failed
  | Some list_before_item => erase_entry (key_of x) list_before_item c
  end.

(** [erase(value_type const&)] / [erase(key_type const&)] *)
Definition erase (k : K) (c : t) : result t :=
  match map_ c !! k with
  | None => Ok c
  | Some list_before_item => erase_entry k list_before_item c
  end.

(** [clear]: [map.clear(); list.clear(); list_back = list.before_begin()]. *)
Definition clear (c : t) : t :=
  let l := forward_list.clear (list_ c) in
  mk ∅ l (before_begin l).

(** [find]: the index holds the position before the node, so the result
    is that position advanced once. *)
Definition find (k : K) (c : t) : result list_iterator :=
  match map_ c !! k with
  | None => Ok (end_ c)
  | Some list_before_item => next (list_ c) list_before_item
  end.

(** Move constructor, building the new object with its list at [h].
    Members are initialised in declaration order: [map], [list], then
    [list_back], which reads the already moved-to [list]. *)
Definition move_construct (h : loc) (other : t) : result t :=
  let m := map_ other in
  let l := move_to h (list_ other) in
  let lb := if forward_list.empty l then before_begin l
            else list_back other in
  if forward_list.empty l then Ok (mk m l lb)
  else
    f ← front l;
    _ ← map_at m (key_of f);
    Ok (mk (<[key_of f := before_begin l]> m) l lb).

(** What the move leaves in [other].  The standard only promises a valid
    state for a moved-from [unordered_map] and [forward_list]; the
    implementations leave them empty, and that is what is modelled here.
    The move does not touch [other.list_back]. *)
Definition moved_from (other : t) : t :=
  mk ∅ (forward_list.clear (list_ other)) (list_back other).

(** Move assignment from a distinct object: the members of [this] are
    overwritten in the same order and with the same repair as in the move
    constructor, the list object staying where it is. *)
Definition move_assign (this other : t) : result t :=
  move_construct (head (list_ this)) other.

(** Range-for over the container. *)
Definition to_list (c : t) : result (list V) := forward_list.to_list (list_ c).

End fifo.
Arguments t : clear implicits.
Arguments t _ _ {_ _}.
End fifo.

(** ** The set facade: [nonstd::fifo_set<T>] *)

Module fifo_set.
Import forward_list.
Section fifo_set.
Context {T : Type} `{Countable T} `{Allocator}.

(** The identity of an element is the element ([value_reference]). *)
Definition identity (x : T) : T := x.

Definition new_at (h : loc) : fifo.t T T := fifo.new_at h.
Definition emplace_back (value : T) (s : fifo.t T T) :=
  fifo.emplace_back identity value s.
Definition emplace (value : T) (s : fifo.t T T) :=
  fifo.emplace identity value s.
Definition emplace_front (value : T) (s : fifo.t T T) :=
  fifo.emplace_front identity value s.
Definition erase_it (list_it : list_iterator) (s : fifo.t T T) :=
  fifo.erase_it identity list_it s.
Definition erase (x : T) (s : fifo.t T T) := fifo.erase identity x s.
Definition clear (s : fifo.t T T) : fifo.t T T := fifo.clear s.
Definition count (x : T) (s : fifo.t T T) : nat := fifo.count x s.
Definition size (s : fifo.t T T) : nat := fifo.size s.
Definition empty (s : fifo.t T T) : bool := fifo.empty s.
Definition find (x : T) (s : fifo.t T T) := fifo.find x s.
Definition begin (s : fifo.t T T) : list_iterator := fifo.begin s.
Definition end_ (s : fifo.t T T) : list_iterator := fifo.end_ s.
Definition move_construct (h : loc) (other : fifo.t T T) :=
  fifo.move_construct identity h other.
Definition move_assign (this other : fifo.t T T) :=
  fifo.move_assign identity this other.
Definition to_list (s : fifo.t T T) : result (list T) := fifo.to_list s.

(** The public mutating operations, and runs of them on one object.
    [MoveTo h] move-constructs a new set at [h] from the current one and
    carries on with the new object; the moved-from object is not used
    again. *)
Inductive op :=
  | EmplaceBack (x : T)
  | Emplace (x : T)
  | EmplaceFront (x : T)
  | Erase (x : T)
  | EraseIt (it : list_iterator)
  | Clear
  | MoveTo (h : loc).

Definition step (o : op) (s : fifo.t T T) : result (fifo.t T T) :=
  match o with
  | EmplaceBack x => r ← emplace_back x s; Ok r.1
  | Emplace x => r ← emplace x s; Ok r.1
  | EmplaceFront x => r ← emplace_front x s; Ok r.1
  | Erase x => erase x s
  | EraseIt it => erase_it it s
  | Clear => Ok (clear s)
  | MoveTo h => move_construct h s
  end.

Fixpoint run (ops : list op) (s : fifo.t T T) : result (fifo.t T T) :=
  match ops with
  | [] => Ok s
  | o :: ops' => s' ← step o s; run ops' s'
  end.

(** *** Copying, over a store of set objects

    Copy assignment takes its source by reference, and the source may be
    the destination itself; objects therefore live in a store indexed by
    their address and both arguments are addresses. *)

Definition obj (σ : gmap loc (fifo.t T T)) (p : loc) : result (fifo.t T T) :=
  match σ !! p with
  | Some s => Ok s
  | None => Fail undefined_behaviour
  end.

(** [for (auto&& kv : x) emplace_back(kv);] from iterator [it] on. *)
Fixpoint copy_loop (fuel : nat) (this x : loc) (it : list_iterator)
    (σ : gmap loc (fifo.t T T)) : result (gmap loc (fifo.t T T)) :=
  match it with
  | End => Ok σ
  | _ =>
      match fuel with
      | 0 => Fail undefined_behaviour
      | S fuel' =>
          src ← obj σ x;
          kv ← deref (fifo.list_ src) it;
          dst ← obj σ this;
          r ← emplace_back kv dst;
          let σ' := <[this := r.1]> σ in
          src' ← obj σ' x;
          it' ← next (fifo.list_ src') it;
          copy_loop fuel' this x it' σ'
      end
  end.

(** [operator=(fifo_set const& x)] *)
Definition copy_assign (this x : loc) (σ : gmap loc (fifo.t T T))
    : result (gmap loc (fifo.t T T)) :=
  dst ← obj σ this;
  let σ := <[this := clear dst]> σ in
  src ← obj σ x;
  copy_loop (length (cells (fifo.list_ src))) this x (begin src) σ.

(** [fifo_set(fifo_set const& x)], constructing a new object at [this]. *)
Definition copy_construct (this x : loc) (σ : gmap loc (fifo.t T T))
    : result (gmap loc (fifo.t T T)) :=
  let σ := <[this := new_at this]> σ in
  src ← obj σ x;
  copy_loop (length (cells (fifo.list_ src))) this x (begin src) σ.

End fifo_set.
End fifo_set.

(** ** The map facade: [nonstd::fifo_map<Key, T>] *)

Module fifo_map.
Import forward_list.
Section fifo_map.
Context {Key M : Type} `{Countable Key} `{Allocator}.

(** The identity of an element is its key ([key_reference]). *)
Definition identity (value : Key * M) : Key := value.1.

Definition new_at (h : loc) : fifo.t Key (Key * M) := fifo.new_at h.
Definition emplace_back (value : Key * M) (m : fifo.t Key (Key * M)) :=
  fifo.emplace_back identity value m.
Definition emplace (value : Key * M) (m : fifo.t Key (Key * M)) :=
  fifo.emplace identity value m.
Definition erase_it (list_it : list_iterator) (m : fifo.t Key (Key * M)) :=
  fifo.erase_it identity list_it m.
Definition erase (key : Key) (m : fifo.t Key (Key * M)) :=
  fifo.erase identity key m.
Definition clear (m : fifo.t Key (Key * M)) : fifo.t Key (Key * M) :=
  fifo.clear m.
Definition count (key : Key) (m : fifo.t Key (Key * M)) : nat :=
  fifo.count key m.
Definition size (m : fifo.t Key (Key * M)) : nat := fifo.size m.
Definition empty (m : fifo.t Key (Key * M)) : bool := fifo.empty m.
Definition find (key : Key) (m : fifo.t Key (Key * M)) := fifo.find key m.
Definition begin (m : fifo.t Key (Key * M)) : list_iterator := fifo.begin m.
Definition end_ (m : fifo.t Key (Key * M)) : list_iterator := fifo.end_ m.
Definition move_construct (h : loc) (other : fifo.t Key (Key * M)) :=
  fifo.move_construct identity h other.
Definition move_assign (this other : fifo.t Key (Key * M)) :=
  fifo.move_assign identity this other.
Definition to_list (m : fifo.t Key (Key * M)) : result (list (Key * M)) :=
  fifo.to_list m.

(** [at(key)]: [map.at] throws for a missing key. *)
Definition at_ (key : Key) (m : fifo.t Key (Key * M)) : result M :=
  list_it ← fifo.map_at (fifo.map_ m) key;
  list_it' ← next (fifo.list_ m) list_it;
  value ← deref (fifo.list_ m) list_it';
  Ok value.2.

(** [operator[](key)].  The returned [mapped_type&] refers to the [second]
    field of a node and is modelled by the iterator of that node. *)
Definition subscript `{Inhabited M} (key : Key) (m : fifo.t Key (Key * M))
    : result (fifo.t Key (Key * M) * list_iterator) :=
  list_it ← find key m;
  if decide (list_it ≠ end_ m) then Ok (m, list_it)
  else r ← emplace (key, inhabitant) m; Ok (r.1, r.2.1).

(** Reading and writing through a [mapped_type&]. *)
Definition load (ref : list_iterator) (m : fifo.t Key (Key * M)) : result M :=
  value ← deref (fifo.list_ m) ref; Ok value.2.

Definition store (ref : list_iterator) (x : M) (m : fifo.t Key (Key * M))
    : result (fifo.t Key (Key * M)) :=
  value ← deref (fifo.list_ m) ref;
  l ← assign (fifo.list_ m) ref (value.1, x);
  Ok (fifo.mk (fifo.map_ m) l (fifo.list_back m)).

(** [m[key] = x;] *)
Definition subscript_assign `{Inhabited M} (key : Key) (x : M)
    (m : fifo.t Key (Key * M)) : result (fifo.t Key (Key * M)) :=
  r ← subscript key m; store r.2 x r.1.

(** The public mutating operations and runs of them, as for the set;
    [SubscriptAssign key x] is [m[key] = x]. *)
Inductive op :=
  | EmplaceBack (value : Key * M)
  | Emplace (value : Key * M)
  | Erase (key : Key)
  | EraseIt (it : list_iterator)
  | Clear
  | MoveTo (h : loc)
  | SubscriptAssign (key : Key) (x : M).

Definition step `{Inhabited M} (o : op) (m : fifo.t Key (Key * M))
    : result (fifo.t Key (Key * M)) :=
  match o with
  | EmplaceBack v => r ← emplace_back v m; Ok r.1
  | Emplace v => r ← emplace v m; Ok r.1
  | Erase k => erase k m
  | EraseIt it => erase_it it m
  | Clear => Ok (clear m)
  | MoveTo h => move_construct h m
  | SubscriptAssign k x => subscript_assign k x m
  end.

Fixpoint run `{Inhabited M} (ops : list op) (m : fifo.t Key (Key * M))
    : result (fifo.t Key (Key * M)) :=
  match ops with
  | [] => Ok m
  | o :: ops' => m' ← step o m; run ops' m'
  end.

End fifo_map.
End fifo_map.

(** ** Sample containers

    Concrete sets and maps over [nat], with the bump allocator; each is the
    state a short run of operations on a new container produces. *)

Module samples.

(** After [emplace_back(10); emplace_back(20)] on a new set at 0. *)
Definition set_10_20 : fifo.t nat nat :=
  fifo.mk {[10 := BeforeBegin 0; 20 := Node 1]}
    (forward_list.mk 0 [(1, 10); (2, 20)]) (Node 2).

(** After [emplace_back(10); emplace_back(20); emplace_back(30)]. *)
Definition set_10_20_30 : fifo.t nat nat :=
  fifo.mk {[10 := BeforeBegin 0; 20 := Node 1; 30 := Node 2]}
    (forward_list.mk 0 [(1, 10); (2, 20); (3, 30)]) (Node 3).

(** After additionally [erase(20)]. *)
Definition set_10_30 : fifo.t nat nat :=
  fifo.mk {[10 := BeforeBegin 0; 30 := Node 1]}
    (forward_list.mk 0 [(1, 10); (3, 30)]) (Node 3).

(** After additionally [emplace_front(40)], a move to a set at 5, and
    erasure through the iterator of the node holding 30. *)
Definition set_40_10 : fifo.t nat nat :=
  fifo.mk {[40 := BeforeBegin 5; 10 := Node 4]}
    (forward_list.mk 5 [(4, 40); (1, 10)]) (Node 1).

(** After [emplace_back(30)] on a new set at 1. *)
Definition set_30 : fifo.t nat nat :=
  fifo.mk {[30 := BeforeBegin 1]} (forward_list.mk 1 [(1, 30)]) (Node 1).

(** After [emplace_back(7, 70); emplace_back(9, 90)] on a new map at 0. *)
Definition map_7_9 : fifo.t nat (nat * nat) :=
  fifo.mk {[7 := BeforeBegin 0; 9 := Node 1]}
    (forward_list.mk 0 [(1, (7, 70)); (2, (9, 90))]) (Node 2).

End samples.

(** ** Vocabulary for stating the properties of the engine *)

Module fifo_spec.
Import forward_list fifo.
Section fifo_spec.
Context {K V : Type} `{Countable K} `{Allocator} (key_of : V → K).

(** The elements in iteration order, and their identities. *)
Definition elements (c : fifo.t K V) : list V := values (list_ c).
Definition keys (c : fifo.t K V) : list K := key_of <$> elements c.

(** What every reachable container satisfies:
    - node addresses are pairwise distinct;
    - no two nodes share an identity (I4);
    - the index maps the identity of the [i]-th node to the position just
      before that node (I2), and has no other entries (I1);
    - [list_back] is the position of the last node itself, that is, the
      position before a node appended next; for an empty container this
      is the before-begin slot. *)
Record wf (c : fifo.t K V) : Prop := {
  wf_addrs : NoDup (addrs (list_ c));
  wf_keys : NoDup (keys c);
  wf_index : ∀ i x, cells (list_ c) !! i = Some x →
               map_ c !! key_of x.2 = Some (pos_before (list_ c) i);
  wf_dom : ∀ k, is_Some (map_ c !! k) → k ∈ keys c;
  wf_back : list_back c = pos_before (list_ c) (length (cells (list_ c)))
}.

(** The state an insertion of [v] at the back leaves behind. *)
Definition pushed_back (v : V) (c : fifo.t K V) : fifo.t K V :=
  let a := alloc (addrs (list_ c)) in
  fifo.mk (<[key_of v := list_back c]> (map_ c))
          (forward_list.mk (head (list_ c)) (cells (list_ c) ++ [(a, v)]))
          (Node a).

(** The state left behind by erasing the [i]-th node, whose cell is [x]. *)
Definition erased (i : nat) (x : addr * V) (c : fifo.t K V) : fifo.t K V :=
  let l := forward_list.mk (head (list_ c)) (delete i (cells (list_ c))) in
  let p := pos_before (list_ c) i in
  let m := delete (key_of x.2) (map_ c) in
  match cells l !! i with
  | None => fifo.mk m l p
  | Some y => fifo.mk (<[key_of y.2 := p]> m) l (list_back c)
  end.

(** The state an insertion of [v] at the front leaves behind. *)
Definition pushed_front (v : V) (c : fifo.t K V) : fifo.t K V :=
  let a := alloc (addrs (list_ c)) in
  let l := forward_list.mk (head (list_ c)) ((a, v) :: cells (list_ c)) in
  match cells (list_ c) with
  | [] => fifo.mk (<[key_of v := before_begin (list_ c)]> (map_ c)) l (Node a)
  | f :: _ =>
      fifo.mk (<[key_of v := before_begin (list_ c)]>
                 (<[key_of f.2 := Node a]> (map_ c)))
              l (list_back c)
  end.

(** The container a move to a list object at [h] builds. *)
Definition moved (h : loc) (c : fifo.t K V) : fifo.t K V :=
  let l := forward_list.mk h (cells (list_ c)) in
  match cells (list_ c) with
  | [] => fifo.mk (map_ c) l (BeforeBegin h)
  | f :: _ => fifo.mk (<[key_of f.2 := BeforeBegin h]> (map_ c)) l (list_back c)
  end.

(** I2: for every node, the index entry of its identity, advanced one step
    in the list, is that node. *)
Definition predecessor_invariant (c : fifo.t K V) : Prop :=
  ∀ a v, (a, v) ∈ cells (list_ c) →
    ∃ p, map_ c !! key_of v = Some p ∧ next (list_ c) p = Ok (Node a).

(** I1 with I4: index entries and nodes correspond one to one. *)
Definition index_bijection (c : fifo.t K V) : Prop :=
  NoDup (keys c)
  ∧ (∀ k, is_Some (map_ c !! k) ↔ k ∈ keys c)
  ∧ size c = length (cells (list_ c)).

(** The tail as the code keeps it: [list_back] is the position of the last
    node itself, and the before-begin slot exactly when there is no node. *)
Definition tail_at_last (c : fifo.t K V) : Prop :=
  list_back c = pos_before (list_ c) (length (cells (list_ c)))
  ∧ (list_back c = before_begin (list_ c) ↔ cells (list_ c) = []).

(** I3 in the words of the specification: the tail is the position before
    the last node, and the before-begin slot for an empty container. *)
Definition tail_before_last (c : fifo.t K V) : Prop :=
  match length (cells (list_ c)) with
  | 0 => list_back c = before_begin (list_ c)
  | S n => list_back c = pos_before (list_ c) n
  end.

(** Two containers that satisfy the invariant and hold the same nodes (same
    addresses, same elements, same order), possibly at different list
    objects. *)
Definition same_nodes (c c' : fifo.t K V) : Prop :=
  wf c ∧ wf c' ∧ cells (list_ c') = cells (list_ c).

End fifo_spec.
Arguments wf_addrs {K V _ _ key_of} c _.
Arguments wf_keys {K V _ _ key_of} c _.
Arguments wf_index {K V _ _ key_of} c _.
Arguments wf_dom {K V _ _ key_of} c _.
Arguments wf_back {K V _ _ key_of} c _.
End fifo_spec.

(** ** A reference model: the sequence of elements

    What the containers are for: a sequence without two elements of the same
    identity, in insertion order.  These functions act on that sequence
    alone; the containers are compared with them further down. *)

Module reference.
Section reference.
Context {K V : Type} `{EqDecision K} (key_of : V → K).

(** Insert at the back unless the identity is there. *)
Definition push_back (v : V) (l : list V) : list V :=
  if decide (key_of v ∈ key_of <$> l) then l else l ++ [v].

(** Insert at the front unless the identity is there. *)
Definition push_front (v : V) (l : list V) : list V :=
  if decide (key_of v ∈ key_of <$> l) then l else v :: l.

(** Drop the element with identity [k], if any. *)
Definition remove (k : K) (l : list V) : list V :=
  filter (λ w, key_of w ≠ k) l.

End reference.

Section set_model.
Context {T : Type} `{Countable T}.

Definition set_step (o : fifo_set.op) (l : list T) : list T :=
  match o with
  | fifo_set.EmplaceBack x | fifo_set.Emplace x =>
      push_back fifo_set.identity x l
  | fifo_set.EmplaceFront x => push_front fifo_set.identity x l
  | fifo_set.Erase x => remove fifo_set.identity x l
  | fifo_set.EraseIt _ => l
  | fifo_set.Clear => []
  | fifo_set.MoveTo _ => l
  end.

Definition set_run (ops : list fifo_set.op) (l : list T) : list T :=
  foldl (λ l o, set_step o l) l ops.

(** Operations the sequence alone determines: all but erasure through an
    iterator, which is given a node address. *)
Definition set_by_value (o : fifo_set.op (T:=T)) : Prop :=
  match o with
  | fifo_set.EraseIt _ => False
  | _ => True
  end.

End set_model.

Section map_model.
Context {Key M : Type} `{Countable Key}.

(** [m[k] = x] on the sequence: overwrite the mapped value of key [k] where
    it stands, or append [(k, x)]. *)
Definition assign (k : Key) (x : M) (l : list (Key * M)) : list (Key * M) :=
  if decide (k ∈ l.*1)
  then (λ w, if decide (w.1 = k) then (k, x) else w) <$> l
  else l ++ [(k, x)].

Definition map_step (o : fifo_map.op) (l : list (Key * M)) : list (Key * M) :=
  match o with
  | fifo_map.EmplaceBack v | fifo_map.Emplace v =>
      push_back fifo_map.identity v l
  | fifo_map.Erase k => remove fifo_map.identity k l
  | fifo_map.EraseIt _ => l
  | fifo_map.Clear => []
  | fifo_map.MoveTo _ => l
  | fifo_map.SubscriptAssign k x => assign k x l
  end.

Definition map_run (ops : list fifo_map.op) (l : list (Key * M))
    : list (Key * M) :=
  foldl (λ l o, map_step o l) l ops.

Definition map_by_value (o : fifo_map.op (Key:=Key) (M:=M)) : Prop :=
  match o with
  | fifo_map.EraseIt _ => False
  | _ => True
  end.

End map_model.
End reference.

(** ** Facts about the list model *)

Module forward_list_facts.
Import forward_list.
Section facts.
Context {V : Type} `{Allocator}.
Implicit Types (l : forward_list.t V) (cs : list (addr * V)).

Lemma index_of_Some a cs i :
  index_of a cs = Some i → ∃ v, cs !! i = Some (a, v).
Proof.
  revert i. induction cs as [|[b w] cs IH]; intros i; simpl; [done|].
  case_decide as Hab; simpl in *.
  - intros [= <-]. subst. by exists w.
  - destruct (index_of a cs) as [j|]; simpl; [|done].
    intros [= <-]. destruct (IH j eq_refl) as [v Hv]. by exists v.
Qed.

Lemma index_of_lookup cs i c :
  NoDup cs.*1 → cs !! i = Some c → index_of c.1 cs = Some i.
Proof.
  revert i. induction cs as [|d cs IH]; intros i Hnd Hi; [done|].
  rewrite fmap_cons in Hnd. apply NoDup_cons in Hnd as [Hd Hnd].
  destruct i as [|i]; simpl in *.
  - injection Hi as ->. by rewrite decide_True.
  - rewrite decide_False.
    + by rewrite (IH i Hnd Hi).
    + intros Heq. apply Hd. rewrite Heq.
      apply list_elem_of_fmap. exists c. split; [done|].
      by eapply list_elem_of_lookup_2.
Qed.


Lemma node_at_lookup cs i c : cs !! i = Some c → node_at cs i = Node c.1.
Proof. unfold node_at. by intros ->. Qed.

Lemma node_at_ge cs i : length cs ≤ i → node_at cs i = End.
Proof. intros Hi. unfold node_at. by rewrite lookup_ge_None_2. Qed.

Lemma node_at_End cs i : node_at cs i = End ↔ length cs ≤ i.
Proof.
  unfold node_at. split.
  - destruct (cs !! i) eqn:E; [done|]. intros _. by apply lookup_ge_None.
  - intros Hi. by rewrite lookup_ge_None_2.
Qed.

Lemma offset_pos_before l i :
  NoDup (addrs l) → i ≤ length (cells l) → offset l (pos_before l i) = Ok i.
Proof.
  intros Hnd Hi. destruct i as [|j]; simpl.
  - unfold before_begin. simpl. by rewrite decide_True.
  - destruct (lookup_lt_is_Some_2 (cells l) j) as [c Hc]; [lia|].
    rewrite (node_at_lookup _ _ _ Hc). simpl.
    by rewrite (index_of_lookup _ _ _ Hnd Hc).
Qed.

Lemma next_pos_before l i :
  NoDup (addrs l) → i ≤ length (cells l) →
  next l (pos_before l i) = Ok (node_at (cells l) i).
Proof. intros Hnd Hi. unfold next. by rewrite offset_pos_before. Qed.

Lemma deref_node_at l i c :
  NoDup (addrs l) → cells l !! i = Some c →
  deref l (node_at (cells l) i) = Ok c.2.
Proof.
  intros Hnd Hc. rewrite (node_at_lookup _ _ _ Hc). simpl.
  rewrite (index_of_lookup _ _ _ Hnd Hc). simpl. by rewrite Hc.
Qed.

Lemma deref_lookup l i a v :
  NoDup (addrs l) → cells l !! i = Some (a, v) → deref l (Node a) = Ok v.
Proof. intros Hnd Hc. apply (deref_node_at l i (a, v) Hnd) in Hc as Hd.
  by rewrite (node_at_lookup _ _ _ Hc) in Hd.
Qed.

Lemma traverse_from l i n :
  NoDup (addrs l) → n + i = length (cells l) →
  traverse n l (node_at (cells l) i) = Ok (drop i (cells l)).*2.
Proof.
  intros Hnd. revert i. induction n as [|n IH]; intros i Hi.
  - rewrite node_at_ge by lia. simpl. by rewrite drop_ge by lia.
  - destruct (lookup_lt_is_Some_2 (cells l) i) as [c Hc]; [lia|].
    pose proof (deref_node_at l i c Hnd Hc) as Hd.
    pose proof (next_pos_before l (S i) Hnd ltac:(lia)) as Hn.
    simpl in Hn. rewrite (node_at_lookup _ _ _ Hc) in *. simpl.
    simpl in Hd. rewrite Hd. simpl. rewrite Hn. simpl.
    rewrite IH by lia. simpl.
    by rewrite (drop_S _ _ _ Hc), fmap_cons.
Qed.

(** Walking a list from [begin()] to [end()] visits its values in order. *)
Lemma to_list_values l : NoDup (addrs l) → to_list l = Ok (values l).
Proof.
  intros Hnd. unfold to_list, begin.
  rewrite traverse_from by (done || lia). by rewrite drop_0.
Qed.

End facts.
End forward_list_facts.

(** ** The representation invariant of the engine *)

Module fifo_facts.
Import forward_list forward_list_facts fifo fifo_spec.
Section facts.
Context {K V : Type} `{Countable K} `{Allocator} (key_of : V → K).
Implicit Types (c : fifo.t K V) (k : K) (v : V) (x : addr * V).

#[local] Abbreviation keys := (fifo_spec.keys key_of).
#[local] Abbreviation wf := (fifo_spec.wf key_of).
#[local] Abbreviation pushed_back := (fifo_spec.pushed_back key_of).
#[local] Abbreviation pushed_front := (fifo_spec.pushed_front key_of).
#[local] Abbreviation erased := (fifo_spec.erased key_of).
#[local] Abbreviation moved := (fifo_spec.moved key_of).

Lemma keys_lookup c i x :
  cells (list_ c) !! i = Some x → keys c !! i = Some (key_of x.2).
Proof.
  intros Hx. unfold keys, elements, values.
  by rewrite !list_lookup_fmap, Hx.
Qed.

Lemma keys_elem_of c i x : cells (list_ c) !! i = Some x → key_of x.2 ∈ keys c.
Proof. intros Hx. eapply list_elem_of_lookup_2, keys_lookup, Hx. Qed.

Lemma elem_of_keys c k :
  k ∈ keys c → ∃ i x, cells (list_ c) !! i = Some x ∧ key_of x.2 = k.
Proof.
  intros Hk. apply list_elem_of_lookup_1 in Hk as [i Hi].
  unfold keys, elements, values in Hi. rewrite !list_lookup_fmap in Hi.
  destruct (cells (list_ c) !! i) as [x|] eqn:Hx; [|done].
  simpl in Hi. injection Hi as <-. eauto.
Qed.

Lemma wf_lookup_None c k : wf c → k ∉ keys c → map_ c !! k = None.
Proof.
  intros Hwf Hk. destruct (map_ c !! k) eqn:E; [|done].
  exfalso. apply Hk, (wf_dom _ Hwf). by rewrite E.
Qed.

Lemma wf_lookup_Some c k it :
  wf c → map_ c !! k = Some it →
  ∃ i x, cells (list_ c) !! i = Some x ∧ key_of x.2 = k
         ∧ it = pos_before (list_ c) i.
Proof.
  intros Hwf Hk.
  destruct (elem_of_keys c k) as (i & x & Hx & Hkx).
  { apply (wf_dom _ Hwf). by rewrite Hk. }
  exists i, x. split_and!; [done..|].
  pose proof (wf_index _ Hwf i x Hx) as Hi. rewrite Hkx in Hi. congruence.
Qed.

(** Two nodes with the same identity are the same node. *)
Lemma wf_key_inj c i j x y :
  wf c → cells (list_ c) !! i = Some x → cells (list_ c) !! j = Some y →
  key_of x.2 = key_of y.2 → i = j.
Proof.
  intros Hwf Hx Hy Heq.
  eapply (NoDup_lookup (keys c)); [apply Hwf|by apply keys_lookup|].
  rewrite Heq. by apply keys_lookup.
Qed.

Lemma wf_size c : wf c → size c = length (cells (list_ c)).
Proof.
  intros Hwf. unfold size.
  rewrite <-size_dom.
  assert (dom (map_ c) = list_to_set (keys c)) as ->.
  { apply set_eq. intros k. rewrite elem_of_dom, elem_of_list_to_set. split.
    - apply Hwf.
    - intros Hk. apply elem_of_keys in Hk as (i & x & Hx & <-).
      rewrite (wf_index _ Hwf i x Hx). eauto. }
  rewrite size_list_to_set by apply Hwf.
  unfold keys, elements, values. by rewrite !length_fmap.
Qed.

Lemma wf_empty c : wf c → empty c = forward_list.empty (list_ c).
Proof.
  intros Hwf. unfold empty, forward_list.empty.
  pose proof (wf_size c Hwf) as Hsz. unfold size in Hsz.
  destruct (cells (list_ c)) as [|x cs] eqn:E.
  - rewrite (bool_decide_eq_true_2 (_ = ∅)); [by rewrite bool_decide_eq_true_2|].
    by apply map_size_empty_iff.
  - rewrite (bool_decide_eq_false_2 (_ = ∅)); [by rewrite bool_decide_eq_false_2|].
    intros Hm. rewrite Hm, map_size_empty in Hsz. done.
Qed.

Lemma wf_new_at h : wf (new_at h).
Proof.
  split; simpl.
  - apply NoDup_nil_2.
  - apply NoDup_nil_2.
  - intros i x Hx. done.
  - intros k [it Hk]. by rewrite lookup_empty in Hk.
  - done.
Qed.

Lemma wf_clear c : wf (clear c).
Proof.
  split; simpl.
  - apply NoDup_nil_2.
  - apply NoDup_nil_2.
  - intros i x Hx. done.
  - intros k [it Hk]. by rewrite lookup_empty in Hk.
  - done.
Qed.

Lemma to_list_elements c : wf c → to_list c = Ok (elements c).
Proof. intros Hwf. apply to_list_values, Hwf. Qed.

(** *** Insertion at the back *)

Lemma map_emplace_None k it (m : gmap K list_iterator) :
  m !! k = None → map_emplace k it m = <[k := it]> m.
Proof. unfold map_emplace. by intros ->. Qed.

Lemma emplace_back_absent c v :
  wf c → key_of v ∉ keys c →
  emplace_back key_of v c
  = Ok (pushed_back v c, (Node (alloc (addrs (list_ c))), true)).
Proof.
  intros Hwf Hk. unfold emplace_back, insert_after, pushed_back.
  rewrite (wf_lookup_None c _ Hwf Hk), (wf_back _ Hwf).
  rewrite offset_pos_before by (apply Hwf || done). simpl.
  rewrite take_ge, drop_ge by done.
  by rewrite map_emplace_None by by apply wf_lookup_None.
Qed.

Lemma pos_before_app (l : forward_list.t V) y i :
  i ≤ length (cells l) →
  pos_before (forward_list.mk (head l) (cells l ++ [y])) i = pos_before l i.
Proof.
  intros Hi. destruct i as [|j]; [done|]. simpl. unfold node_at.
  by rewrite lookup_app_l by lia.
Qed.

Lemma wf_pushed_back c v : wf c → key_of v ∉ keys c → wf (pushed_back v c).
Proof.
  intros Hwf Hk. set (a := alloc (addrs (list_ c))).
  split; unfold pushed_back; simpl; fold a.
  - unfold addrs. simpl. rewrite fmap_app. apply NoDup_app. split_and!.
    + apply Hwf.
    + intros b Hb Hb'. apply list_elem_of_singleton in Hb'. simpl in Hb'.
      subst b. by apply (alloc_fresh (addrs (list_ c))).
    + apply NoDup_singleton.
  - unfold keys, elements, values. simpl. rewrite !fmap_app.
    apply NoDup_app. split_and!.
    + apply Hwf.
    + intros k Hin Hk'. apply list_elem_of_singleton in Hk'. simpl in Hk'.
      by subst k.
    + apply NoDup_singleton.
  - intros i x Hx. apply lookup_app_Some in Hx as [Hx|[Hlen Hx]].
    + rewrite lookup_insert_ne.
      * rewrite (wf_index _ Hwf i x Hx). f_equal. symmetry.
        apply pos_before_app. apply lookup_lt_Some in Hx. lia.
      * intros Heq. apply Hk. rewrite Heq. by eapply keys_elem_of.
    + apply list_lookup_singleton_Some in Hx as [Hi <-]. simpl.
      rewrite lookup_insert_eq. f_equal.
      assert (i = length (cells (list_ c))) as -> by lia.
      rewrite pos_before_app by done. apply Hwf.
  - intros k Hk'. unfold keys, elements, values. simpl. rewrite !fmap_app.
    apply elem_of_app. destruct (decide (k = key_of v)) as [->|Hne].
    + right. simpl. apply list_elem_of_singleton. done.
    + left. rewrite lookup_insert_ne in Hk' by done. by apply Hwf.
  - rewrite length_app. simpl. rewrite Nat.add_1_r. simpl.
    unfold node_at. by rewrite lookup_app_r, Nat.sub_diag by lia.
Qed.

Lemma emplace_back_present c v i x :
  wf c → cells (list_ c) !! i = Some x → key_of x.2 = key_of v →
  emplace_back key_of v c = Ok (c, (Node x.1, false)).
Proof.
  intros Hwf Hx Hk. unfold emplace_back.
  rewrite <-Hk, (wf_index _ Hwf i x Hx).
  rewrite next_pos_before; [|apply Hwf|apply lookup_lt_Some in Hx; lia].
  simpl. by rewrite (node_at_lookup _ _ _ Hx).
Qed.

(** *** Erasure *)

Lemma NoDup_addrs_delete (l : forward_list.t V) i :
  NoDup (addrs l) →
  NoDup (addrs (forward_list.mk (head l) (delete i (cells l)))).
Proof.
  unfold addrs. simpl. rewrite list_fmap_delete.
  intros Hnd. eapply sublist_NoDup; [done|apply sublist_delete].
Qed.

Lemma erase_entry_at c i x :
  wf c → cells (list_ c) !! i = Some x →
  erase_entry key_of (key_of x.2) (pos_before (list_ c) i) c
  = Ok (erased i x c).
Proof.
  intros Hwf Hx. unfold erase_entry, erase_after, erased.
  pose proof (lookup_lt_Some _ _ _ Hx) as Hlt.
  rewrite offset_pos_before by (apply Hwf || lia). simpl. rewrite Hx. simpl.
  destruct (delete i (cells (list_ c)) !! i) as [y|] eqn:Hy.
  - rewrite (node_at_lookup _ _ _ Hy). rewrite decide_False by done.
    pose proof (NoDup_addrs_delete (list_ c) i (wf_addrs _ Hwf)) as Hnd.
    pose proof (deref_node_at _ i y Hnd Hy) as Hd. simpl in Hd.
    rewrite (node_at_lookup _ _ _ Hy) in Hd. rewrite Hd. simpl.
    rewrite list_lookup_delete_ge in Hy by lia.
    unfold map_at. rewrite lookup_delete_ne.
    + by rewrite (wf_index _ Hwf _ _ Hy).
    + intros Heq. pose proof (wf_key_inj c _ _ _ _ Hwf Hx Hy Heq). lia.
  - unfold node_at. rewrite Hy. by rewrite decide_True.
Qed.

Lemma pos_before_delete_lt (l : forward_list.t V) i j :
  j ≤ i →
  pos_before (forward_list.mk (head l) (delete i (cells l))) j
  = pos_before l j.
Proof.
  intros Hj. destruct j as [|j]; [done|]. simpl. unfold node_at.
  by rewrite list_lookup_delete_lt by lia.
Qed.

Lemma pos_before_delete_gt (l : forward_list.t V) i j :
  i < j →
  pos_before (forward_list.mk (head l) (delete i (cells l))) j
  = pos_before l (S j).
Proof.
  intros Hj. destruct j as [|j]; [lia|]. simpl. unfold node_at.
  by rewrite list_lookup_delete_ge by lia.
Qed.

Lemma keys_erased c i x :
  cells (list_ c) !! i = Some x → keys (erased i x c) = delete i (keys c).
Proof.
  intros Hx. unfold erased. simpl.
  destruct (delete i (cells (list_ c)) !! i);
    unfold keys, elements, values; simpl; by rewrite !list_fmap_delete.
Qed.

Lemma cells_erased c i x :
  cells (list_ (erased i x c)) = delete i (cells (list_ c)).
Proof.
  unfold erased. simpl. by destruct (delete i (cells (list_ c)) !! i).
Qed.

Lemma head_erased c i x : head (list_ (erased i x c)) = head (list_ c).
Proof.
  unfold erased. simpl. by destruct (delete i (cells (list_ c)) !! i).
Qed.

(** Index entries of the nodes that stay, read in the old container. *)
Lemma index_after_delete c i x j y :
  wf c → cells (list_ c) !! i = Some x →
  delete i (cells (list_ c)) !! j = Some y →
  key_of y.2 ≠ key_of x.2 ∧
  (j ≠ i →
   map_ c !! key_of y.2
   = Some (pos_before
             (forward_list.mk (head (list_ c)) (delete i (cells (list_ c))))
             j)).
Proof.
  intros Hwf Hx Hy. destruct (decide (j < i)) as [Hlt|Hge].
  - rewrite list_lookup_delete_lt in Hy by done. split.
    + intros Heq. pose proof (wf_key_inj c _ _ _ _ Hwf Hy Hx Heq). lia.
    + intros _. rewrite pos_before_delete_lt by lia. by apply Hwf.
  - rewrite list_lookup_delete_ge in Hy by lia. split.
    + intros Heq. pose proof (wf_key_inj c _ _ _ _ Hwf Hy Hx Heq). lia.
    + intros Hne. rewrite pos_before_delete_gt by lia. by apply Hwf.
Qed.

Lemma wf_erased c i x :
  wf c → cells (list_ c) !! i = Some x → wf (erased i x c).
Proof.
  intros Hwf Hx. pose proof (lookup_lt_Some _ _ _ Hx) as Hlt.
  assert (∀ k, k ≠ key_of x.2 → k ∈ keys c → k ∈ keys (erased i x c))
    as Hkeep.
  { intros k Hne Hk. rewrite (keys_erased _ _ _ Hx).
    apply list_elem_of_lookup_1 in Hk as [j Hj].
    pose proof (keys_lookup c i x Hx) as Hi.
    destruct (decide (j < i)).
    - eapply list_elem_of_lookup_2. by rewrite list_lookup_delete_lt.
    - assert (j ≠ i) by (intros ->; congruence).
      destruct j as [|j]; [lia|].
      eapply (list_elem_of_lookup_2 _ j).
      by rewrite list_lookup_delete_ge by lia. }
  split.
  - unfold addrs. rewrite cells_erased.
    apply (NoDup_addrs_delete (list_ c) i), Hwf.
  - rewrite (keys_erased _ _ _ Hx).
    eapply sublist_NoDup; [apply Hwf|apply sublist_delete].
  - intros j y. rewrite cells_erased. intros Hy.
    destruct (index_after_delete c i x j y Hwf Hx Hy) as [Hne Hidx].
    unfold erased. simpl.
    destruct (delete i (cells (list_ c)) !! i) as [z|] eqn:Hz; simpl.
    + destruct (decide (j = i)) as [->|Hji].
      * assert (z = y) as -> by congruence.
        rewrite lookup_insert_eq. f_equal. symmetry.
        by apply pos_before_delete_lt.
      * rewrite lookup_insert_ne.
        -- rewrite lookup_delete_ne by done. by apply Hidx.
        -- intros Heq. apply Hji. symmetry.
           eapply (NoDup_lookup (delete i (keys c))).
           ++ eapply sublist_NoDup; [apply Hwf|apply sublist_delete].
           ++ unfold keys, elements, values.
              rewrite <-!list_fmap_delete, !list_lookup_fmap, Hz. done.
           ++ unfold keys, elements, values.
              rewrite <-!list_fmap_delete, !list_lookup_fmap, Hy. simpl.
              by rewrite Heq.
    + rewrite lookup_delete_ne by done. apply Hidx.
      intros ->. congruence.
  - intros k Hk. unfold erased in Hk. simpl in Hk.
    destruct (delete i (cells (list_ c)) !! i) as [z|] eqn:Hz; simpl in Hk.
    + destruct (decide (k = key_of z.2)) as [->|Hkz].
      * rewrite (keys_erased _ _ _ Hx). unfold keys, elements, values.
        rewrite <-!list_fmap_delete. eapply list_elem_of_lookup_2.
        by rewrite !list_lookup_fmap, Hz.
      * rewrite lookup_insert_ne in Hk by done.
        destruct (decide (k = key_of x.2)) as [->|Hkx].
        { rewrite lookup_delete_eq in Hk. by destruct Hk. }
        rewrite lookup_delete_ne in Hk by done.
        apply Hkeep; [done|]. by apply Hwf.
    + destruct (decide (k = key_of x.2)) as [->|Hkx].
      { rewrite lookup_delete_eq in Hk. by destruct Hk. }
      rewrite lookup_delete_ne in Hk by done.
      apply Hkeep; [done|]. by apply Hwf.
  - unfold erased. simpl.
    pose proof (length_delete (cells (list_ c)) i ltac:(eauto)) as Hlen.
    destruct (delete i (cells (list_ c)) !! i) as [z|] eqn:Hz; simpl.
    + apply lookup_lt_Some in Hz.
      rewrite pos_before_delete_gt by lia.
      rewrite (wf_back _ Hwf). f_equal. lia.
    + apply lookup_ge_None in Hz.
      assert (length (delete i (cells (list_ c))) = i) as -> by lia.
      symmetry. by apply pos_before_delete_lt.
Qed.

Lemma erase_present c i x :
  wf c → cells (list_ c) !! i = Some x →
  erase key_of (key_of x.2) c = Ok (erased i x c).
Proof.
  intros Hwf Hx. unfold erase. rewrite (wf_index _ Hwf i x Hx).
  by apply erase_entry_at.
Qed.

Lemma erase_absent c k : map_ c !! k = None → erase key_of k c = Ok c.
Proof. unfold erase. by intros ->. Qed.

Lemma erase_it_present c i x :
  wf c → cells (list_ c) !! i = Some x →
  erase_it key_of (Node x.1) c = Ok (erased i x c).
Proof.
  intros Hwf Hx. unfold erase_it.
  pose proof (deref_node_at (list_ c) i x (wf_addrs _ Hwf) Hx) as Hd.
  rewrite (node_at_lookup _ _ _ Hx) in Hd. rewrite Hd. simpl.
  rewrite (wf_index _ Hwf i x Hx). by apply erase_entry_at.
Qed.

(** *** Insertion at the front *)

Lemma emplace_front_absent c v :
  wf c → key_of v ∉ keys c →
  emplace_front key_of v c
  = Ok (pushed_front v c, (Node (alloc (addrs (list_ c))), true)).
Proof.
  intros Hwf Hk. unfold emplace_front, pushed_front.
  rewrite (wf_lookup_None c _ Hwf Hk), (wf_empty c Hwf).
  unfold forward_list.empty, insert_after, front.
  pose proof (wf_back _ Hwf) as Hb.
  pose proof (wf_index _ Hwf 0) as Hf.
  destruct (cells (list_ c)) as [|f cs] eqn:Hcs; simpl.
  - simpl in Hb. rewrite Hb. unfold before_begin. simpl.
    rewrite decide_True by done. simpl.
    by rewrite map_emplace_None by by apply wf_lookup_None.
  - unfold map_at. rewrite (Hf f eq_refl). simpl.
    unfold before_begin. simpl.
    rewrite decide_True by done. simpl.
    rewrite map_emplace_None; [done|].
    rewrite lookup_insert_ne; [by apply wf_lookup_None|].
    intros Heq. apply Hk. rewrite <-Heq.
    apply (keys_elem_of c 0 f). by rewrite Hcs.
Qed.

Lemma wf_pushed_front c v : wf c → key_of v ∉ keys c → wf (pushed_front v c).
Proof.
  intros Hwf Hk. set (a := alloc (addrs (list_ c))).
  assert (cells (list_ (pushed_front v c)) = (a, v) :: cells (list_ c)) as Hcs.
  { unfold pushed_front. by destruct (cells (list_ c)). }
  assert (head (list_ (pushed_front v c)) = head (list_ c)) as Hhd.
  { unfold pushed_front. by destruct (cells (list_ c)). }
  assert (keys (pushed_front v c) = key_of v :: keys c) as Hks.
  { unfold keys, elements, values. by rewrite Hcs. }
  split.
  - unfold addrs. rewrite Hcs, fmap_cons. apply NoDup_cons. split.
    + apply (alloc_fresh (addrs (list_ c))).
    + apply Hwf.
  - rewrite Hks. apply NoDup_cons. split; [done|apply Hwf].
  - intros i x. rewrite Hcs. intros Hx.
    destruct i as [|j]; simpl in Hx.
    + injection Hx as <-. simpl. unfold pushed_front, pos_before.
      destruct (cells (list_ c)); simpl; by rewrite lookup_insert_eq.
    + assert (key_of x.2 ≠ key_of v) as Hne.
      { intros Heq. apply Hk. rewrite <-Heq. by eapply keys_elem_of. }
      pose proof (wf_index _ Hwf j x Hx) as Hidx.
      destruct j as [|j].
      * unfold pushed_front. destruct (cells (list_ c)) as [|f cs] eqn:E;
          [done|]. simpl in Hx. injection Hx as ->. simpl.
        rewrite lookup_insert_ne by done. by rewrite lookup_insert_eq.
      * assert (pos_before (list_ (pushed_front v c)) (S (S j))
                = pos_before (list_ c) (S j)) as ->.
        { simpl. unfold node_at. by rewrite Hcs. }
        rewrite <-Hidx. unfold pushed_front.
        destruct (cells (list_ c)) as [|f cs] eqn:E; [done|]. simpl.
        rewrite lookup_insert_ne by done. rewrite lookup_insert_ne; [done|].
        intros Heq.
        assert (0 = S j); [|done].
        eapply (wf_key_inj c 0 (S j) f x Hwf); [by rewrite E|by rewrite E|done].
  - intros k Hin. rewrite Hks. apply elem_of_cons.
    destruct (decide (k = key_of v)) as [->|Hne]; [by left|right].
    unfold pushed_front in Hin.
    destruct (cells (list_ c)) as [|f cs] eqn:E; simpl in Hin.
    + rewrite lookup_insert_ne in Hin by done. by apply Hwf.
    + rewrite lookup_insert_ne in Hin by done.
      destruct (decide (k = key_of f.2)) as [->|Hnf].
      * apply (keys_elem_of c 0 f). by rewrite E.
      * rewrite lookup_insert_ne in Hin by done. by apply Hwf.
  - rewrite Hcs. simpl. unfold node_at. rewrite Hcs.
    unfold pushed_front. pose proof (wf_back _ Hwf) as Hb.
    destruct (cells (list_ c)) as [|f cs] eqn:E; simpl; [done|].
    rewrite Hb. simpl. unfold node_at. rewrite E. done.
Qed.

Lemma emplace_front_present c v i x :
  wf c → cells (list_ c) !! i = Some x → key_of x.2 = key_of v →
  emplace_front key_of v c = Ok (c, (Node x.1, false)).
Proof.
  intros Hwf Hx Hk. unfold emplace_front.
  rewrite <-Hk, (wf_index _ Hwf i x Hx).
  rewrite next_pos_before; [|apply Hwf|apply lookup_lt_Some in Hx; lia].
  simpl. by rewrite (node_at_lookup _ _ _ Hx).
Qed.

(** *** Move construction *)

Lemma move_construct_wf c h : wf c → move_construct key_of h c = Ok (moved h c).
Proof.
  intros Hwf. unfold move_construct, moved, move_to, forward_list.empty, front.
  simpl. pose proof (wf_index _ Hwf 0) as Hf.
  destruct (cells (list_ c)) as [|f cs] eqn:E; simpl; [done|].
  unfold map_at. by rewrite (Hf f eq_refl).
Qed.

Lemma cells_moved c h : cells (list_ (moved h c)) = cells (list_ c).
Proof. unfold moved. by destruct (cells (list_ c)). Qed.

Lemma head_moved c h : head (list_ (moved h c)) = h.
Proof. unfold moved. by destruct (cells (list_ c)). Qed.

Lemma wf_moved c h : wf c → wf (moved h c).
Proof.
  intros Hwf. pose proof (cells_moved c h) as Hcs.
  assert (keys (moved h c) = keys c) as Hks.
  { unfold keys, elements, values. by rewrite Hcs. }
  split.
  - unfold addrs. rewrite Hcs. apply Hwf.
  - rewrite Hks. apply Hwf.
  - intros i x. rewrite Hcs. intros Hx.
    pose proof (wf_index _ Hwf i x Hx) as Hidx.
    unfold moved. destruct (cells (list_ c)) as [|f cs] eqn:E; [done|]. simpl.
    destruct i as [|j]; simpl in *.
    + injection Hx as ->. by rewrite lookup_insert_eq.
    + rewrite lookup_insert_ne; [by rewrite Hidx, E|].
      intros Heq. assert (0 = S j); [|done].
      eapply (wf_key_inj c 0 (S j) f x Hwf); by rewrite ?E.
  - intros k Hin. rewrite Hks. unfold moved in Hin.
    destruct (cells (list_ c)) as [|f cs] eqn:E; simpl in Hin.
    + by apply Hwf.
    + destruct (decide (k = key_of f.2)) as [->|Hnf].
      * apply (keys_elem_of c 0 f). by rewrite E.
      * rewrite lookup_insert_ne in Hin by done. by apply Hwf.
  - rewrite Hcs. pose proof (wf_back _ Hwf) as Hb. unfold moved.
    destruct (cells (list_ c)) as [|f cs] eqn:E; simpl; [done|].
    rewrite Hb. simpl. by rewrite E.
Qed.

(** *** Erasing an element and inserting its identity again *)

Lemma filter_keep_all (P : V → Prop) `{∀ w, Decision (P w)} (l : list V) :
  Forall P l → filter P l = l.
Proof.
  induction 1 as [|w l Hw Hl IH]; [done|].
  by rewrite filter_cons_True, IH.
Qed.

(** In a list without two elements of the same identity, deleting an
    element removes exactly the elements with its identity. *)
Lemma delete_filter_key (l : list V) i w :
  NoDup (key_of <$> l) → l !! i = Some w →
  delete i l = filter (λ u, key_of u ≠ key_of w) l.
Proof.
  revert i. induction l as [|u l IH]; intros i Hnd Hi; [done|].
  rewrite fmap_cons in Hnd. apply NoDup_cons in Hnd as [Hu Hnd].
  destruct i as [|i]; simpl in *.
  - injection Hi as ->. rewrite filter_cons_False by (intros Hne; by apply Hne).
    symmetry. apply filter_keep_all. apply Forall_forall. intros u Hin Heq.
    apply Hu. rewrite <-Heq. apply list_elem_of_fmap. by exists u.
  - rewrite filter_cons_True.
    + f_equal. by apply IH.
    + intros Heq. apply Hu. rewrite Heq. apply list_elem_of_fmap.
      exists w. split; [done|]. by eapply list_elem_of_lookup_2.
Qed.

Lemma elements_erased c i x :
  wf c → cells (list_ c) !! i = Some x →
  elements (erased i x c)
  = filter (λ u, key_of u ≠ key_of x.2) (elements c).
Proof.
  intros Hwf Hx. unfold elements, values. rewrite cells_erased.
  rewrite list_fmap_delete. apply delete_filter_key.
  - apply Hwf.
  - by rewrite list_lookup_fmap, Hx.
Qed.

Lemma key_not_in_erased c i x :
  wf c → cells (list_ c) !! i = Some x → key_of x.2 ∉ keys (erased i x c).
Proof.
  intros Hwf Hx Hin. unfold fifo_spec.keys in Hin.
  rewrite (elements_erased c i x Hwf Hx) in Hin.
  apply list_elem_of_fmap in Hin as (u & Hu & Hin).
  apply list_elem_of_filter in Hin as [Hne _]. by apply Hne.
Qed.

Lemma erase_then_emplace_back c i x v :
  wf c → cells (list_ c) !! i = Some x → key_of v = key_of x.2 →
  ∃ c1 c2 it,
    erase key_of (key_of v) c = Ok c1
    ∧ emplace_back key_of v c1 = Ok (c2, (it, true))
    ∧ wf c2
    ∧ elements c2 = filter (λ u, key_of u ≠ key_of v) (elements c) ++ [v].
Proof.
  intros Hwf Hx Hk.
  pose proof (wf_erased c i x Hwf Hx) as Hwf1.
  pose proof (key_not_in_erased c i x Hwf Hx) as Hnin. rewrite <-Hk in Hnin.
  exists (erased i x c), (pushed_back v (erased i x c)),
    (Node (alloc (addrs (list_ (erased i x c))))).
  split_and!.
  - rewrite Hk. by apply erase_present.
  - by apply emplace_back_absent.
  - by apply wf_pushed_back.
  - rewrite Hk, <-(elements_erased c i x Hwf Hx).
    unfold fifo_spec.pushed_back, elements, values. simpl.
    by rewrite fmap_app.
Qed.

Lemma moved_index_first c h x :
  cells (list_ c) !! 0 = Some x →
  map_ (moved h c) !! key_of x.2 = Some (BeforeBegin h).
Proof.
  unfold fifo_spec.moved. destruct (cells (list_ c)) as [|f cs]; [done|].
  simpl. intros [= ->]. by rewrite lookup_insert_eq.
Qed.

Lemma moved_index_other c h k :
  (∀ x, cells (list_ c) !! 0 = Some x → k ≠ key_of x.2) →
  map_ (moved h c) !! k = map_ c !! k.
Proof.
  unfold fifo_spec.moved. destruct (cells (list_ c)) as [|f cs]; [done|].
  simpl. intros Hne. rewrite lookup_insert_ne; [done|].
  intros Heq. by apply (Hne f).
Qed.

Lemma moved_back c h :
  list_back (moved h c)
  = match cells (list_ c) with [] => BeforeBegin h | _ => list_back c end.
Proof. unfold fifo_spec.moved. by destruct (cells (list_ c)). Qed.

(** The object moved from is left with the tail of the nodes it gave away:
    unless it was empty its tail is not its before-begin slot although it
    has no node, and an insertion into it hands the list an iterator that
    is not the list's own. *)
Lemma moved_from_stale_tail c v :
  wf c → cells (list_ c) ≠ [] →
  cells (list_ (moved_from c)) = []
  ∧ list_back (moved_from c) ≠ before_begin (list_ (moved_from c))
  ∧ emplace_back key_of v (moved_from c) = Fail undefined_behaviour.
Proof.
  intros Hwf Hne. pose proof (wf_back _ Hwf) as Hb.
  destruct (cells (list_ c)) as [|x cs] eqn:E; [done|]. simpl in Hb.
  destruct (lookup_lt_is_Some_2 (cells (list_ c)) (length cs)) as [y Hy].
  { rewrite E. simpl. lia. }
  rewrite (node_at_lookup _ _ _ Hy) in Hb.
  split_and!.
  - done.
  - simpl. by rewrite Hb.
  - unfold emplace_back, insert_after. simpl. by rewrite Hb.
Qed.

(** *** Case analyses used by the facades *)

Lemma keys_dec c k :
  k ∉ keys c ∨ ∃ i x, cells (list_ c) !! i = Some x ∧ key_of x.2 = k.
Proof.
  destruct (decide (k ∈ keys c)) as [Hin|Hnin]; [right|by left].
  by apply elem_of_keys.
Qed.

Lemma emplace_back_cases c v :
  wf c →
  ((key_of v ∉ keys c) ∧
   emplace_back key_of v c
   = Ok (pushed_back v c, (Node (alloc (addrs (list_ c))), true)))
  ∨ (∃ i x, cells (list_ c) !! i = Some x ∧ key_of x.2 = key_of v ∧
            emplace_back key_of v c = Ok (c, (Node x.1, false))).
Proof.
  intros Hwf. destruct (keys_dec c (key_of v)) as [Hk|(i & x & Hx & Hk)].
  - left. split; [done|]. by apply emplace_back_absent.
  - right. exists i, x. split_and!; [done..|]. by eapply emplace_back_present.
Qed.

Lemma emplace_front_cases c v :
  wf c →
  ((key_of v ∉ keys c) ∧
   emplace_front key_of v c
   = Ok (pushed_front v c, (Node (alloc (addrs (list_ c))), true)))
  ∨ (∃ i x, cells (list_ c) !! i = Some x ∧ key_of x.2 = key_of v ∧
            emplace_front key_of v c = Ok (c, (Node x.1, false))).
Proof.
  intros Hwf. destruct (keys_dec c (key_of v)) as [Hk|(i & x & Hx & Hk)].
  - left. split; [done|]. by apply emplace_front_absent.
  - right. exists i, x. split_and!; [done..|]. by eapply emplace_front_present.
Qed.

Lemma erase_cases c k :
  wf c →
  ((k ∉ keys c) ∧ erase key_of k c = Ok c)
  ∨ (∃ i x, cells (list_ c) !! i = Some x ∧ key_of x.2 = k ∧
            erase key_of k c = Ok (erased i x c)).
Proof.
  intros Hwf. destruct (keys_dec c k) as [Hk|(i & x & Hx & Hk)].
  - left. split; [done|]. by apply erase_absent, wf_lookup_None.
  - right. exists i, x. split_and!; [done..|]. subst k. by apply erase_present.
Qed.

Lemma deref_inv (l : forward_list.t V) it v :
  deref l it = Ok v → ∃ i a, it = Node a ∧ cells l !! i = Some (a, v).
Proof.
  destruct it as [h|a|]; simpl; [done| |done].
  destruct (index_of a (cells l)) as [i|] eqn:Hi; simpl; [|done].
  destruct (index_of_Some _ _ _ Hi) as [w Hw]. rewrite Hw.
  intros [= <-]. by exists i, a.
Qed.

Lemma erase_it_inv c it c' :
  wf c → erase_it key_of it c = Ok c' →
  ∃ i x, cells (list_ c) !! i = Some x ∧ it = Node x.1 ∧ c' = erased i x c.
Proof.
  intros Hwf Hrun.
  destruct (deref (list_ c) it) as [v|e] eqn:Hd.
  - destruct (deref_inv _ _ _ Hd) as (i & a & -> & Hx).
    exists i, (a, v). split_and!; [done..|].
    pose proof (erase_it_present c i (a, v) Hwf Hx) as Hok. simpl in Hok.
    congruence.
  - unfold erase_it in Hrun. by rewrite Hd in Hrun.
Qed.

(** Every engine operation that returns keeps the invariant. *)
Lemma emplace_back_wf c v c' r :
  wf c → emplace_back key_of v c = Ok (c', r) → wf c'.
Proof.
  intros Hwf Hrun.
  destruct (emplace_back_cases c v Hwf) as [[Hk Heq]|(i & x & Hx & Hk & Heq)];
    rewrite Heq in Hrun; injection Hrun as <- <-; [|done].
  by apply wf_pushed_back.
Qed.

Lemma emplace_front_wf c v c' r :
  wf c → emplace_front key_of v c = Ok (c', r) → wf c'.
Proof.
  intros Hwf Hrun.
  destruct (emplace_front_cases c v Hwf) as [[Hk Heq]|(i & x & Hx & Hk & Heq)];
    rewrite Heq in Hrun; injection Hrun as <- <-; [|done].
  by apply wf_pushed_front.
Qed.

Lemma erase_wf c k c' : wf c → erase key_of k c = Ok c' → wf c'.
Proof.
  intros Hwf Hrun.
  destruct (erase_cases c k Hwf) as [[Hk Heq]|(i & x & Hx & Hk & Heq)];
    rewrite Heq in Hrun; injection Hrun as <-; [done|].
  by apply wf_erased.
Qed.

Lemma erase_it_wf c it c' : wf c → erase_it key_of it c = Ok c' → wf c'.
Proof.
  intros Hwf Hrun.
  destruct (erase_it_inv c it c' Hwf Hrun) as (i & x & Hx & _ & ->).
  by apply wf_erased.
Qed.

Lemma move_construct_keeps_wf c h c' :
  wf c → move_construct key_of h c = Ok c' → wf c'.
Proof.
  intros Hwf Hrun. rewrite (move_construct_wf c h Hwf) in Hrun.
  injection Hrun as <-. by apply wf_moved.
Qed.

(** *** The invariant yields I1, I2 and the tail property *)

Lemma wf_predecessor_invariant c : wf c → predecessor_invariant key_of c.
Proof.
  intros Hwf a v Hin. apply list_elem_of_lookup_1 in Hin as [i Hi].
  exists (pos_before (list_ c) i). split.
  - apply (wf_index _ Hwf i _ Hi).
  - rewrite next_pos_before; [|apply Hwf|apply lookup_lt_Some in Hi; lia].
    by rewrite (node_at_lookup _ _ _ Hi).
Qed.

Lemma wf_index_bijection c : wf c → index_bijection key_of c.
Proof.
  intros Hwf. split_and!.
  - apply Hwf.
  - intros k. split; [apply Hwf|].
    intros Hk. apply elem_of_keys in Hk as (i & x & Hx & <-).
    rewrite (wf_index _ Hwf i x Hx). eauto.
  - by apply wf_size.
Qed.

Lemma wf_tail_at_last c : wf c → tail_at_last c.
Proof.
  intros Hwf. split; [apply Hwf|]. rewrite (wf_back _ Hwf).
  destruct (cells (list_ c)) as [|x cs] eqn:E; simpl; [done|].
  split; [|done]. unfold node_at, before_begin.
  by destruct (cells (list_ c) !! length cs).
Qed.

(** *** Containers of the same shape

    The invariant only reads the index, the tail, the list head, the node
    addresses and the identities; the rest of an element may change. *)

Lemma pos_before_same_addrs (l l' : forward_list.t V) i :
  head l' = head l → addrs l' = addrs l → pos_before l' i = pos_before l i.
Proof.
  intros Hh Ha. destruct i as [|j]; simpl.
  - unfold before_begin. by rewrite Hh.
  - unfold node_at. unfold addrs in Ha.
    assert ((cells l').*1 !! j = (cells l).*1 !! j) as Hj by by rewrite Ha.
    rewrite !list_lookup_fmap in Hj.
    destruct (cells l' !! j), (cells l !! j); simpl in Hj; congruence.
Qed.

Lemma wf_same_shape c c' :
  map_ c' = map_ c → list_back c' = list_back c →
  head (list_ c') = head (list_ c) → addrs (list_ c') = addrs (list_ c) →
  keys c' = keys c → wf c → wf c'.
Proof.
  intros Hm Hb Hh Ha Hk Hwf.
  assert (length (cells (list_ c')) = length (cells (list_ c))) as Hlen.
  { unfold addrs in Ha.
    by rewrite <-(length_fmap fst (cells (list_ c'))), Ha, length_fmap. }
  split.
  - rewrite Ha. apply Hwf.
  - rewrite Hk. apply Hwf.
  - intros i y Hy. rewrite Hm, (pos_before_same_addrs (list_ c) (list_ c')) by done.
    pose proof (keys_lookup c' i y Hy) as Hky. rewrite Hk in Hky.
    unfold fifo_spec.keys, elements, values in Hky.
    rewrite !list_lookup_fmap in Hky.
    destruct (cells (list_ c) !! i) as [x|] eqn:Hx; [|done].
    simpl in Hky. injection Hky as Hky. rewrite <-Hky.
    by apply Hwf.
  - intros k. rewrite Hm, Hk. apply Hwf.
  - rewrite Hb, Hlen, (pos_before_same_addrs (list_ c) (list_ c')) by done. apply Hwf.
Qed.

(** *** Inserting an identity that is already there *)

Lemma elem_of_cells_lookup c a v :
  (a, v) ∈ cells (list_ c) → ∃ i, cells (list_ c) !! i = Some (a, v).
Proof. apply list_elem_of_lookup_1. Qed.

Lemma emplace_back_again c v v' c1 r :
  wf c → key_of v' = key_of v → emplace_back key_of v c = Ok (c1, r) →
  emplace_back key_of v' c1 = Ok (c1, (r.1, false)).
Proof.
  intros Hwf Hkey Hrun.
  destruct (emplace_back_cases c v Hwf) as [[Hk Heq]|(i & x & Hx & Hk & Heq)];
    rewrite Heq in Hrun; injection Hrun as <- <-; simpl.
  - eapply (emplace_back_present _ v' (length (cells (list_ c)))
              (alloc (addrs (list_ c)), v)).
    + by apply wf_pushed_back.
    + simpl. by rewrite lookup_app_r, Nat.sub_diag by lia.
    + done.
  - eapply emplace_back_present; [done..|]. congruence.
Qed.

(** *** Containers holding the same nodes behave alike *)

#[local] Abbreviation same_nodes := (fifo_spec.same_nodes key_of).

Lemma same_nodes_keys c c' : same_nodes c c' → keys c' = keys c.
Proof.
  intros (_ & _ & Hcs). unfold fifo_spec.keys, elements, values.
  by rewrite Hcs.
Qed.

Lemma same_nodes_moved c h : wf c → same_nodes c (moved h c).
Proof.
  intros Hwf. unfold fifo_spec.same_nodes.
  split_and!; [done|by apply wf_moved|apply cells_moved].
Qed.

Lemma same_nodes_find c c' k : same_nodes c c' → find k c' = find k c.
Proof.
  intros Hs. pose proof (same_nodes_keys c c' Hs) as Hks.
  destruct Hs as (Hwf & Hwf' & Hcs). unfold find.
  destruct (keys_dec c k) as [Hk|(i & x & Hx & Hk)].
  - rewrite (wf_lookup_None c k Hwf Hk).
    by rewrite (wf_lookup_None c' k Hwf') by by rewrite Hks.
  - subst k. rewrite (wf_index _ Hwf i x Hx).
    rewrite <-Hcs in Hx. rewrite (wf_index _ Hwf' i x Hx).
    pose proof (lookup_lt_Some _ _ _ Hx) as Hlt. rewrite Hcs in Hlt.
    rewrite !next_pos_before; [by rewrite Hcs|apply Hwf|lia|apply Hwf'|].
    rewrite Hcs. lia.
Qed.

Lemma same_nodes_count c c' k : same_nodes c c' → count k c' = count k c.
Proof.
  intros Hs. pose proof (same_nodes_keys c c' Hs) as Hks.
  destruct Hs as (Hwf & Hwf' & Hcs). unfold count.
  destruct (keys_dec c k) as [Hk|(i & x & Hx & Hk)].
  - rewrite (wf_lookup_None c k Hwf Hk).
    by rewrite (wf_lookup_None c' k Hwf') by by rewrite Hks.
  - subst k. rewrite (wf_index _ Hwf i x Hx).
    rewrite <-Hcs in Hx. by rewrite (wf_index _ Hwf' i x Hx).
Qed.

Lemma same_nodes_size c c' : same_nodes c c' → size c' = size c.
Proof.
  intros (Hwf & Hwf' & Hcs). by rewrite !wf_size, Hcs.
Qed.

Lemma same_nodes_to_list c c' : same_nodes c c' → to_list c' = to_list c.
Proof.
  intros (Hwf & Hwf' & Hcs). rewrite !to_list_elements by done.
  unfold elements, values. by rewrite Hcs.
Qed.

Lemma same_nodes_emplace_back c c' v :
  same_nodes c c' →
  ∃ e e' r, emplace_back key_of v c = Ok (e, r)
            ∧ emplace_back key_of v c' = Ok (e', r) ∧ same_nodes e e'.
Proof.
  intros Hs. pose proof (same_nodes_keys c c' Hs) as Hks.
  destruct Hs as (Hwf & Hwf' & Hcs).
  destruct (keys_dec c (key_of v)) as [Hk|(i & x & Hx & Hk)].
  - assert (key_of v ∉ keys c') as Hk' by by rewrite Hks.
    eexists _, _, _. unfold fifo_spec.same_nodes. split_and!.
    + by apply emplace_back_absent.
    + rewrite (emplace_back_absent c' v Hwf' Hk'). unfold addrs.
      by rewrite Hcs.
    + by apply wf_pushed_back.
    + by apply wf_pushed_back.
    + unfold fifo_spec.pushed_back, addrs. simpl. by rewrite Hcs.
  - exists c, c', (Node x.1, false). split_and!; [| |by split_and!].
    + by eapply emplace_back_present.
    + eapply emplace_back_present; [done| |done]. by rewrite Hcs.
Qed.

Lemma same_nodes_emplace_front c c' v :
  same_nodes c c' →
  ∃ e e' r, emplace_front key_of v c = Ok (e, r)
            ∧ emplace_front key_of v c' = Ok (e', r) ∧ same_nodes e e'.
Proof.
  intros Hs. pose proof (same_nodes_keys c c' Hs) as Hks.
  destruct Hs as (Hwf & Hwf' & Hcs).
  destruct (keys_dec c (key_of v)) as [Hk|(i & x & Hx & Hk)].
  - assert (key_of v ∉ keys c') as Hk' by by rewrite Hks.
    eexists _, _, _. unfold fifo_spec.same_nodes. split_and!.
    + by apply emplace_front_absent.
    + rewrite (emplace_front_absent c' v Hwf' Hk'). unfold addrs.
      by rewrite Hcs.
    + by apply wf_pushed_front.
    + by apply wf_pushed_front.
    + unfold fifo_spec.pushed_front, addrs. rewrite Hcs.
      by destruct (cells (list_ c)).
  - exists c, c', (Node x.1, false). split_and!; [| |by split_and!].
    + by eapply emplace_front_present.
    + eapply emplace_front_present; [done| |done]. by rewrite Hcs.
Qed.

Lemma same_nodes_erased c c' i x :
  same_nodes c c' → cells (list_ c) !! i = Some x →
  same_nodes (erased i x c) (erased i x c').
Proof.
  intros (Hwf & Hwf' & Hcs) Hx. unfold fifo_spec.same_nodes. split_and!.
  - by apply wf_erased.
  - apply wf_erased; [done|]. by rewrite Hcs.
  - by rewrite !cells_erased, Hcs.
Qed.

Lemma same_nodes_erase c c' k :
  same_nodes c c' →
  ∃ e e', erase key_of k c = Ok e ∧ erase key_of k c' = Ok e'
          ∧ same_nodes e e'.
Proof.
  intros Hs. pose proof (same_nodes_keys c c' Hs) as Hks.
  pose proof Hs as (Hwf & Hwf' & Hcs).
  destruct (keys_dec c k) as [Hk|(i & x & Hx & Hk)].
  - exists c, c'. split_and!; [| |done].
    + by apply erase_absent, wf_lookup_None.
    + apply erase_absent, wf_lookup_None; [done|]. by rewrite Hks.
  - subst k. exists (erased i x c), (erased i x c'). split_and!.
    + by apply erase_present.
    + apply erase_present; [done|]. by rewrite Hcs.
    + by apply same_nodes_erased.
Qed.

Lemma same_nodes_erase_it c c' it e :
  same_nodes c c' → erase_it key_of it c = Ok e →
  ∃ e', erase_it key_of it c' = Ok e' ∧ same_nodes e e'.
Proof.
  intros Hs Hrun. pose proof Hs as (Hwf & Hwf' & Hcs).
  destruct (erase_it_inv c it e Hwf Hrun) as (i & x & Hx & -> & ->).
  exists (erased i x c'). split.
  - apply erase_it_present; [done|]. by rewrite Hcs.
  - by apply same_nodes_erased.
Qed.

Lemma same_nodes_clear c c' : same_nodes (clear c) (clear c').
Proof. unfold fifo_spec.same_nodes. split_and!; [apply wf_clear..|done]. Qed.

Lemma same_nodes_move c c' h :
  same_nodes c c' →
  ∃ e e', move_construct key_of h c = Ok e
          ∧ move_construct key_of h c' = Ok e' ∧ same_nodes e e'.
Proof.
  intros (Hwf & Hwf' & Hcs). exists (moved h c), (moved h c').
  unfold fifo_spec.same_nodes. split_and!.
  - by apply move_construct_wf.
  - by apply move_construct_wf.
  - by apply wf_moved.
  - by apply wf_moved.
  - by rewrite !cells_moved.
Qed.

End facts.
End fifo_facts.

(** ** Facts about the set facade *)

Module fifo_set_facts.
Import forward_list forward_list_facts fifo fifo_spec fifo_facts.
Section facts.
Context {T : Type} `{Countable T} `{Allocator}.
Implicit Types (s : fifo.t T T) (x : T).

#[local] Abbreviation wf := (fifo_spec.wf (@fifo_set.identity T)).
#[local] Abbreviation keys := (fifo_spec.keys (@fifo_set.identity T)).

Lemma set_keys_elements s : keys s = elements s.
Proof. unfold fifo_spec.keys. apply list_fmap_id. Qed.

Lemma set_step_wf o s s' : wf s → fifo_set.step o s = Ok s' → wf s'.
Proof.
  intros Hwf. destruct o as [x|x|x|x|it| |h]; simpl.
  - destruct (fifo_set.emplace_back x s) as [[c r]|e] eqn:E; [|done].
    simpl. intros [= <-]. by eapply emplace_back_wf.
  - destruct (fifo_set.emplace x s) as [[c r]|e] eqn:E; [|done].
    simpl. intros [= <-]. by eapply emplace_back_wf.
  - destruct (fifo_set.emplace_front x s) as [[c r]|e] eqn:E; [|done].
    simpl. intros [= <-]. by eapply emplace_front_wf.
  - by apply erase_wf.
  - by apply erase_it_wf.
  - intros [= <-]. apply wf_clear.
  - by apply move_construct_keeps_wf.
Qed.

Lemma set_run_wf ops s s' : wf s → fifo_set.run ops s = Ok s' → wf s'.
Proof.
  revert s. induction ops as [|o ops IH]; intros s Hwf; simpl.
  - by intros [= <-].
  - destruct (fifo_set.step o s) as [s1|e] eqn:E; [|done]. simpl.
    apply IH. by eapply set_step_wf.
Qed.

Lemma set_reach_wf ops h s : fifo_set.run ops (fifo_set.new_at h) = Ok s → wf s.
Proof. apply set_run_wf, wf_new_at. Qed.

(** A run of insertions at the back of elements not yet present appends
    them in order. *)
Lemma set_run_appends ops xs s :
  wf s →
  Forall2 (λ o x, o = fifo_set.EmplaceBack x ∨ o = fifo_set.Emplace x) ops xs →
  NoDup (elements s ++ xs) →
  ∃ s', fifo_set.run ops s = Ok s' ∧ wf s' ∧ elements s' = elements s ++ xs.
Proof.
  intros Hwf Hops. revert s Hwf.
  induction Hops as [|o x ops xs Ho Hops IH]; intros s Hwf Hnd.
  - exists s. by rewrite app_nil_r.
  - assert (x ∉ keys s) as Hx.
    { rewrite set_keys_elements. apply NoDup_app in Hnd as (_ & Hdisj & _).
      intros Hin. apply (Hdisj x Hin). by left. }
    pose proof (emplace_back_absent fifo_set.identity s x Hwf Hx) as Hrun.
    pose proof (wf_pushed_back fifo_set.identity s x Hwf Hx) as Hwf'.
    destruct (IH _ Hwf') as (s' & Hs' & Hwfs' & Hel).
    { unfold pushed_back, elements, values. simpl.
      rewrite fmap_app. simpl. by rewrite <-app_assoc. }
    exists s'. split_and!; [|done|].
    + simpl. destruct Ho as [-> | ->]; simpl;
        unfold fifo_set.emplace_back, fifo_set.emplace, fifo.emplace;
        rewrite Hrun; simpl; done.
    + rewrite Hel. unfold pushed_back, elements, values. simpl.
      rewrite fmap_app. simpl. by rewrite <-app_assoc.
Qed.

(** Only erasure through an iterator that is not a node of the set can
    fail; every other operation returns. *)
Lemma set_step_total o s :
  wf s →
  (∀ it, o = fifo_set.EraseIt it → ∃ a, it = Node a ∧ a ∈ addrs (list_ s)) →
  ∃ s', fifo_set.step o s = Ok s'.
Proof.
  intros Hwf Hit. destruct o as [x|x|x|x|it| |h]; simpl.
  - destruct (emplace_back_cases fifo_set.identity s x Hwf)
      as [[_ Heq]|(i & y & _ & _ & Heq)];
      unfold fifo_set.emplace_back; rewrite Heq; simpl; eauto.
  - destruct (emplace_back_cases fifo_set.identity s x Hwf)
      as [[_ Heq]|(i & y & _ & _ & Heq)];
      unfold fifo_set.emplace, emplace; rewrite Heq; simpl; eauto.
  - destruct (emplace_front_cases fifo_set.identity s x Hwf)
      as [[_ Heq]|(i & y & _ & _ & Heq)];
      unfold fifo_set.emplace_front; rewrite Heq; simpl; eauto.
  - destruct (erase_cases fifo_set.identity s x Hwf)
      as [[_ Heq]|(i & y & _ & _ & Heq)];
      unfold fifo_set.erase; rewrite Heq; eauto.
  - destruct (Hit it eq_refl) as (a & -> & Ha).
    apply list_elem_of_fmap in Ha as (y & -> & Hy).
    apply list_elem_of_lookup_1 in Hy as [i Hi].
    unfold fifo_set.erase_it.
    rewrite (erase_it_present fifo_set.identity s i y Hwf Hi). eauto.
  - eauto.
  - unfold fifo_set.move_construct. rewrite move_construct_wf by done. eauto.
Qed.

(** *** Copy assignment *)

(** The loop of the copy operations, run on a source [src] that is not the
    destination, from the [i]-th node of the source on: it appends the
    remaining elements of the source to the destination. *)
Lemma bind_Ok {A B} (a : A) (f : A → result B) : (Ok a ≫= f) = f a.
Proof. done. Qed.

Lemma copy_loop_Node fuel (this p : loc) a (σ : gmap loc (fifo.t T T)) :
  fifo_set.copy_loop (S fuel) this p (Node a) σ
  = src ← fifo_set.obj σ p;
    kv ← deref (list_ src) (Node a);
    dst ← fifo_set.obj σ this;
    r ← fifo_set.emplace_back kv dst;
    src' ← fifo_set.obj (<[this := r.1]> σ) p;
    it' ← next (list_ src') (Node a);
    fifo_set.copy_loop fuel this p it' (<[this := r.1]> σ).
Proof. done. Qed.

Lemma obj_lookup (σ : gmap loc (fifo.t T T)) p s :
  σ !! p = Some s → fifo_set.obj σ p = Ok s.
Proof. unfold fifo_set.obj. by intros ->. Qed.

Lemma copy_loop_distinct fuel (this p : loc) i
    (σ : gmap loc (fifo.t T T)) src d :
  this ≠ p → wf src → wf d →
  σ !! p = Some src → σ !! this = Some d →
  fuel + i = length (cells (list_ src)) →
  elements d = take i (elements src) →
  ∃ d', fifo_set.copy_loop fuel this p (node_at (cells (list_ src)) i) σ
        = Ok (<[this := d']> σ)
        ∧ wf d' ∧ elements d' = elements src
        ∧ head (list_ d') = head (list_ d).
Proof.
  intros Hne Hsrc. revert i σ d.
  induction fuel as [|fuel IH]; intros i σ d Hwf Hx Hthis Hlen Hel.
  - exists d. rewrite node_at_ge by lia. simpl.
    rewrite insert_id by done. split_and!; [done..| |done].
    rewrite Hel. apply take_ge. unfold elements, values.
    rewrite length_fmap. lia.
  - destruct (lookup_lt_is_Some_2 (cells (list_ src)) i) as [[a y] Hc]; [lia|].
    assert (elements src !! i = Some y) as Hci.
    { unfold elements, values. by rewrite list_lookup_fmap, Hc. }
    assert (y ∉ keys d) as Hfresh.
    { rewrite set_keys_elements, Hel. intros Hin.
      apply list_elem_of_lookup_1 in Hin as [j Hj].
      pose proof (lookup_lt_Some _ _ _ Hj) as Hjlt.
      rewrite length_take in Hjlt.
      rewrite lookup_take_lt in Hj by lia.
      pose proof (wf_keys src Hsrc) as Hnd. rewrite set_keys_elements in Hnd.
      pose proof (NoDup_lookup _ _ _ _ Hnd Hj Hci). lia. }
    set (d1 := fifo_spec.pushed_back fifo_set.identity y d).
    assert (fifo_set.copy_loop (S fuel) this p
              (node_at (cells (list_ src)) i) σ
            = fifo_set.copy_loop fuel this p
                (node_at (cells (list_ src)) (S i)) (<[this := d1]> σ))
      as Hstep.
    { rewrite (node_at_lookup _ _ _ Hc). simpl fst.
      rewrite copy_loop_Node.
      rewrite (obj_lookup σ p src Hx), bind_Ok.
      rewrite (deref_lookup (list_ src) i a y (wf_addrs _ Hsrc) Hc), bind_Ok.
      rewrite (obj_lookup σ this d Hthis), bind_Ok.
      unfold fifo_set.emplace_back.
      rewrite (emplace_back_absent fifo_set.identity d y Hwf Hfresh), bind_Ok.
      simpl fst. fold d1.
      rewrite (obj_lookup (<[this := d1]> σ) p src), bind_Ok
        by by rewrite lookup_insert_ne.
      pose proof (next_pos_before (list_ src) (S i) (wf_addrs _ Hsrc)
                    ltac:(lia)) as Hn.
      simpl in Hn. rewrite (node_at_lookup _ _ _ Hc) in Hn. simpl in Hn.
      by rewrite Hn, bind_Ok. }
    destruct (IH (S i) (<[this := d1]> σ) d1)
      as (d' & Hrun & Hwf' & Hel' & Hh').
    + by apply wf_pushed_back.
    + by rewrite lookup_insert_ne.
    + by rewrite lookup_insert_eq.
    + lia.
    + unfold d1, fifo_spec.pushed_back, elements, values. simpl.
      rewrite fmap_app. simpl. fold (values (list_ d)). fold (elements d).
      rewrite Hel. symmetry. by apply take_S_r.
    + exists d'. rewrite Hstep, Hrun, insert_insert_eq. done.
Qed.

(** Sets holding the same nodes stay so under every operation. *)
#[local] Abbreviation same_nodes := (fifo_spec.same_nodes (@fifo_set.identity T)).

Lemma set_step_same o s s' e :
  same_nodes s s' → fifo_set.step o s = Ok e →
  ∃ e', fifo_set.step o s' = Ok e' ∧ same_nodes e e'.
Proof.
  intros Hs. destruct o as [x|x|x|x|it| |h]; simpl.
  - destruct (same_nodes_emplace_back fifo_set.identity s s' x Hs)
      as (e0 & e0' & r & H1 & H2 & Hs').
    unfold fifo_set.emplace_back. rewrite H1, H2. simpl.
    intros [= <-]. eauto.
  - destruct (same_nodes_emplace_back fifo_set.identity s s' x Hs)
      as (e0 & e0' & r & H1 & H2 & Hs').
    unfold fifo_set.emplace, emplace. rewrite H1, H2. simpl.
    intros [= <-]. eauto.
  - destruct (same_nodes_emplace_front fifo_set.identity s s' x Hs)
      as (e0 & e0' & r & H1 & H2 & Hs').
    unfold fifo_set.emplace_front. rewrite H1, H2. simpl.
    intros [= <-]. eauto.
  - destruct (same_nodes_erase fifo_set.identity s s' x Hs)
      as (e0 & e0' & H1 & H2 & Hs').
    unfold fifo_set.erase. rewrite H1, H2. intros [= <-]. eauto.
  - intros Hrun. by apply (same_nodes_erase_it fifo_set.identity s s' it e).
  - intros [= <-]. exists (fifo_set.clear s'). split; [done|].
    apply same_nodes_clear.
  - destruct (same_nodes_move fifo_set.identity s s' h Hs)
      as (e0 & e0' & H1 & H2 & Hs').
    unfold fifo_set.move_construct. rewrite H1, H2. intros [= <-]. eauto.
Qed.

Lemma set_run_same ops s s' e :
  same_nodes s s' → fifo_set.run ops s = Ok e →
  ∃ e', fifo_set.run ops s' = Ok e' ∧ same_nodes e e'.
Proof.
  revert s s'. induction ops as [|o ops IH]; intros s s' Hs; simpl.
  - intros [= <-]. eauto.
  - destruct (fifo_set.step o s) as [s1|] eqn:E; [|done]. simpl.
    destruct (set_step_same o s s' s1 Hs E) as (s1' & -> & Hs1). simpl.
    by apply IH.
Qed.

End facts.
End fifo_set_facts.

(** ** Facts about the map facade *)

Module fifo_map_facts.
Import forward_list forward_list_facts fifo fifo_spec fifo_facts.
Section facts.
Context {Key M : Type} `{Countable Key} `{Allocator} `{Inhabited M}.
Implicit Types (m : fifo.t Key (Key * M)) (k : Key) (x : M).

#[local] Abbreviation wf := (fifo_spec.wf (@fifo_map.identity Key M)).
#[local] Abbreviation keys := (fifo_spec.keys (@fifo_map.identity Key M)).
#[local] Abbreviation pushed_back :=
  (fifo_spec.pushed_back (@fifo_map.identity Key M)).

Lemma map_keys_elements m : keys m = (elements m).*1.
Proof. done. Qed.

(** *** Lookup by key *)

Lemma at_present m i a k x :
  wf m → cells (list_ m) !! i = Some (a, (k, x)) → fifo_map.at_ k m = Ok x.
Proof.
  intros Hwf Hi. unfold fifo_map.at_, map_at.
  rewrite (wf_index _ Hwf i _ Hi : map_ m !! k = _). simpl.
  rewrite next_pos_before; [|apply Hwf|apply lookup_lt_Some in Hi; lia].
  simpl. by rewrite (deref_node_at _ i _ (wf_addrs _ Hwf) Hi).
Qed.

Lemma at_absent m k :
  wf m → k ∉ keys m → fifo_map.at_ k m = Fail out_of_range.
Proof.
  intros Hwf Hk. unfold fifo_map.at_, map_at.
  by rewrite (wf_lookup_None _ m k Hwf Hk).
Qed.

Lemma find_present m i a k x :
  wf m → cells (list_ m) !! i = Some (a, (k, x)) →
  fifo_map.find k m = Ok (Node a).
Proof.
  intros Hwf Hi. unfold fifo_map.find, find.
  rewrite (wf_index _ Hwf i _ Hi : map_ m !! k = _).
  rewrite next_pos_before; [|apply Hwf|apply lookup_lt_Some in Hi; lia].
  by rewrite (node_at_lookup _ _ _ Hi).
Qed.

(** *** [operator[]] and writes through the reference it returns *)

Lemma subscript_present m i a k x :
  wf m → cells (list_ m) !! i = Some (a, (k, x)) →
  fifo_map.subscript k m = Ok (m, Node a).
Proof.
  intros Hwf Hi. unfold fifo_map.subscript.
  by rewrite (find_present m i a k x Hwf Hi).
Qed.

Lemma subscript_absent m k :
  wf m → k ∉ keys m →
  fifo_map.subscript k m
  = Ok (pushed_back (k, inhabitant) m, Node (alloc (addrs (list_ m)))).
Proof.
  intros Hwf Hk. unfold fifo_map.subscript, fifo_map.find, find.
  rewrite (wf_lookup_None _ m k Hwf Hk). simpl.
  unfold fifo_map.emplace, emplace.
  by rewrite (emplace_back_absent fifo_map.identity m (k, inhabitant) Hwf Hk).
Qed.

Lemma load_at m i a k x :
  wf m → cells (list_ m) !! i = Some (a, (k, x)) →
  fifo_map.load (Node a) m = Ok x.
Proof.
  intros Hwf Hi. unfold fifo_map.load.
  by rewrite (deref_lookup _ i a _ (wf_addrs _ Hwf) Hi).
Qed.

Lemma store_at m i a k x y :
  wf m → cells (list_ m) !! i = Some (a, (k, x)) →
  fifo_map.store (Node a) y m
  = Ok (fifo.mk (map_ m)
          (forward_list.mk (head (list_ m))
             (<[i := (a, (k, y))]> (cells (list_ m))))
          (list_back m)).
Proof.
  intros Hwf Hi. unfold fifo_map.store.
  rewrite (deref_lookup _ i a _ (wf_addrs _ Hwf) Hi). simpl.
  pose proof (index_of_lookup _ _ _ (wf_addrs _ Hwf) Hi) as Hidx.
  simpl in Hidx. by rewrite Hidx.
Qed.

Lemma wf_stored m i a k x y :
  wf m → cells (list_ m) !! i = Some (a, (k, x)) →
  wf (fifo.mk (map_ m)
        (forward_list.mk (head (list_ m))
           (<[i := (a, (k, y))]> (cells (list_ m))))
        (list_back m)).
Proof.
  intros Hwf Hi.
  apply (wf_same_shape fifo_map.identity m); [done|done|done| | |done].
  - unfold addrs. simpl. rewrite list_fmap_insert. simpl.
    apply list_insert_id. by rewrite list_lookup_fmap, Hi.
  - unfold fifo_spec.keys, elements, values. simpl.
    rewrite !list_fmap_insert. simpl.
    apply list_insert_id. by rewrite !list_lookup_fmap, Hi.
Qed.

Lemma subscript_assign_wf m k y m' :
  wf m → fifo_map.subscript_assign k y m = Ok m' → wf m'.
Proof.
  intros Hwf. unfold fifo_map.subscript_assign.
  destruct (keys_dec fifo_map.identity m k) as [Hk|(i & [a [k' x]] & Hi & Hk)].
  - rewrite (subscript_absent m k Hwf Hk). simpl.
    pose proof (wf_pushed_back fifo_map.identity m (k, inhabitant) Hwf Hk)
      as Hwf'.
    erewrite (store_at _ (length (cells (list_ m))) _ k inhabitant y Hwf').
    + intros [= <-].
      eapply (wf_stored _ (length (cells (list_ m))) _ k inhabitant y Hwf').
      simpl. by rewrite lookup_app_r, Nat.sub_diag by lia.
    + simpl. by rewrite lookup_app_r, Nat.sub_diag by lia.
  - simpl in Hk. subst k'.
    rewrite (subscript_present m i a k x Hwf Hi). simpl.
    rewrite (store_at m i a k x y Hwf Hi). intros [= <-].
    by eapply wf_stored.
Qed.

(** *** Runs *)

Lemma map_step_wf o m m' : wf m → fifo_map.step o m = Ok m' → wf m'.
Proof.
  intros Hwf. destruct o as [v|v|k|it| |h|k x]; simpl.
  - destruct (fifo_map.emplace_back v m) as [[c r]|e] eqn:E; [|done].
    simpl. intros [= <-]. by eapply emplace_back_wf.
  - destruct (fifo_map.emplace v m) as [[c r]|e] eqn:E; [|done].
    simpl. intros [= <-]. by eapply emplace_back_wf.
  - by apply erase_wf.
  - by apply erase_it_wf.
  - intros [= <-]. apply wf_clear.
  - by apply move_construct_keeps_wf.
  - by apply subscript_assign_wf.
Qed.

Lemma map_run_wf ops m m' : wf m → fifo_map.run ops m = Ok m' → wf m'.
Proof.
  revert m. induction ops as [|o ops IH]; intros m Hwf; simpl.
  - by intros [= <-].
  - destruct (fifo_map.step o m) as [m1|e] eqn:E; [|done]. simpl.
    apply IH. by eapply map_step_wf.
Qed.

Lemma map_reach_wf ops h m : fifo_map.run ops (fifo_map.new_at h) = Ok m → wf m.
Proof. apply map_run_wf, wf_new_at. Qed.

Lemma map_run_appends ops vs m :
  wf m →
  Forall2 (λ o v, o = fifo_map.EmplaceBack v ∨ o = fifo_map.Emplace v) ops vs →
  NoDup ((elements m).*1 ++ vs.*1) →
  ∃ m', fifo_map.run ops m = Ok m' ∧ wf m' ∧ elements m' = elements m ++ vs.
Proof.
  intros Hwf Hops. revert m Hwf.
  induction Hops as [|o v ops vs Ho Hops IH]; intros m Hwf Hnd.
  - exists m. by rewrite app_nil_r.
  - assert (v.1 ∉ keys m) as Hv.
    { rewrite map_keys_elements. apply NoDup_app in Hnd as (_ & Hdisj & _).
      intros Hin. apply (Hdisj _ Hin). rewrite fmap_cons. by left. }
    pose proof (emplace_back_absent fifo_map.identity m v Hwf Hv) as Hrun.
    pose proof (wf_pushed_back fifo_map.identity m v Hwf Hv) as Hwf'.
    destruct (IH _ Hwf') as (m' & Hm' & Hwfm' & Hel).
    { unfold fifo_spec.pushed_back, elements, values. simpl.
      rewrite !fmap_app. simpl. by rewrite <-app_assoc. }
    exists m'. split_and!; [|done|].
    + simpl. destruct Ho as [-> | ->]; simpl;
        unfold fifo_map.emplace_back, fifo_map.emplace, fifo.emplace;
        rewrite Hrun; simpl; done.
    + rewrite Hel. unfold fifo_spec.pushed_back, elements, values. simpl.
      rewrite fmap_app. simpl. by rewrite <-app_assoc.
Qed.

Lemma map_step_total o m :
  wf m →
  (∀ it, o = fifo_map.EraseIt it → ∃ a, it = Node a ∧ a ∈ addrs (list_ m)) →
  ∃ m', fifo_map.step o m = Ok m'.
Proof.
  intros Hwf Hit. destruct o as [v|v|k|it| |h|k x]; simpl.
  - destruct (emplace_back_cases fifo_map.identity m v Hwf)
      as [[_ Heq]|(i & y & _ & _ & Heq)];
      unfold fifo_map.emplace_back; rewrite Heq; simpl; eauto.
  - destruct (emplace_back_cases fifo_map.identity m v Hwf)
      as [[_ Heq]|(i & y & _ & _ & Heq)];
      unfold fifo_map.emplace, emplace; rewrite Heq; simpl; eauto.
  - destruct (erase_cases fifo_map.identity m k Hwf)
      as [[_ Heq]|(i & y & _ & _ & Heq)];
      unfold fifo_map.erase; rewrite Heq; eauto.
  - destruct (Hit it eq_refl) as (a & -> & Ha).
    apply list_elem_of_fmap in Ha as (y & -> & Hy).
    apply list_elem_of_lookup_1 in Hy as [i Hi].
    unfold fifo_map.erase_it.
    rewrite (erase_it_present fifo_map.identity m i y Hwf Hi). eauto.
  - eauto.
  - unfold fifo_map.move_construct. rewrite move_construct_wf by done. eauto.
  - unfold fifo_map.subscript_assign.
    destruct (keys_dec fifo_map.identity m k)
      as [Hk|(i & [a [k' y]] & Hi & Hk)].
    + rewrite (subscript_absent m k Hwf Hk). simpl.
      pose proof (wf_pushed_back fifo_map.identity m (k, inhabitant) Hwf Hk)
        as Hwf'.
      erewrite (store_at _ (length (cells (list_ m))) _ k inhabitant x Hwf');
        [eauto|].
      simpl. by rewrite lookup_app_r, Nat.sub_diag by lia.
    + simpl in Hk. subst k'.
      rewrite (subscript_present m i a k y Hwf Hi). simpl.
      rewrite (store_at m i a k y x Hwf Hi). eauto.
Qed.

Lemma map_at_same m m' k :
  fifo_spec.same_nodes (@fifo_map.identity Key M) m m' →
  fifo_map.at_ k m' = fifo_map.at_ k m.
Proof.
  intros Hs. pose proof (same_nodes_keys _ m m' Hs) as Hks.
  destruct Hs as (Hwf & Hwf' & Hcs).
  destruct (keys_dec fifo_map.identity m k)
    as [Hk|(i & [a [k' x]] & Hi & Hk)].
  - rewrite (at_absent m k Hwf Hk). apply at_absent; [done|].
    by rewrite Hks.
  - simpl in Hk. subst k'. rewrite (at_present m i a k x Hwf Hi).
    apply (at_present m' i a k x Hwf'). by rewrite Hcs.
Qed.

(** Maps holding the same nodes stay so under every operation. *)
#[local] Abbreviation same_nodes :=
  (fifo_spec.same_nodes (@fifo_map.identity Key M)).

Lemma map_subscript_assign_same m m' k y :
  same_nodes m m' →
  ∃ e e', fifo_map.subscript_assign k y m = Ok e
          ∧ fifo_map.subscript_assign k y m' = Ok e' ∧ same_nodes e e'.
Proof.
  intros Hs. pose proof (same_nodes_keys _ m m' Hs) as Hks.
  destruct Hs as (Hwf & Hwf' & Hcs). unfold fifo_map.subscript_assign.
  destruct (keys_dec fifo_map.identity m k)
    as [Hk|(i & [a [k' x]] & Hi & Hk)].
  - assert (k ∉ keys m') as Hk' by by rewrite Hks.
    rewrite (subscript_absent m k Hwf Hk), (subscript_absent m' k Hwf' Hk').
    simpl.
    pose proof (wf_pushed_back fifo_map.identity m (k, inhabitant) Hwf Hk)
      as Hpb.
    pose proof (wf_pushed_back fifo_map.identity m' (k, inhabitant) Hwf' Hk')
      as Hpb'.
    assert (cells (list_ (pushed_back (k, inhabitant) m))
              !! length (cells (list_ m))
            = Some (alloc (addrs (list_ m)), (k, inhabitant))) as Hn.
    { simpl. by rewrite lookup_app_r, Nat.sub_diag by lia. }
    assert (cells (list_ (pushed_back (k, inhabitant) m'))
              !! length (cells (list_ m))
            = Some (alloc (addrs (list_ m)), (k, inhabitant))) as Hn'.
    { simpl. unfold addrs. rewrite Hcs.
      by rewrite lookup_app_r, Nat.sub_diag by lia. }
    assert (addrs (list_ m') = addrs (list_ m)) as Ha.
    { unfold addrs. by rewrite Hcs. }
    rewrite (store_at _ _ _ k inhabitant y Hpb Hn). rewrite Ha.
    rewrite (store_at _ _ _ k inhabitant y Hpb' Hn').
    eexists _, _. split_and!; [done..|]. unfold fifo_spec.same_nodes.
    split_and!.
    + by eapply wf_stored.
    + by eapply wf_stored.
    + simpl. by rewrite Hcs, Ha.
  - simpl in Hk. subst k'.
    assert (cells (list_ m') !! i = Some (a, (k, x))) as Hi' by by rewrite Hcs.
    rewrite (subscript_present m i a k x Hwf Hi),
      (subscript_present m' i a k x Hwf' Hi'). simpl.
    rewrite (store_at m i a k x y Hwf Hi), (store_at m' i a k x y Hwf' Hi').
    eexists _, _. split_and!; [done..|]. unfold fifo_spec.same_nodes.
    split_and!.
    + by eapply wf_stored.
    + by eapply wf_stored.
    + simpl. by rewrite Hcs.
Qed.

Lemma map_step_same o m m' e :
  same_nodes m m' → fifo_map.step o m = Ok e →
  ∃ e', fifo_map.step o m' = Ok e' ∧ same_nodes e e'.
Proof.
  intros Hs. destruct o as [v|v|k|it| |h|k x]; simpl.
  - destruct (same_nodes_emplace_back fifo_map.identity m m' v Hs)
      as (e0 & e0' & r & He1 & He2 & Hs').
    unfold fifo_map.emplace_back. rewrite He1, He2. simpl.
    intros [= <-]. eauto.
  - destruct (same_nodes_emplace_back fifo_map.identity m m' v Hs)
      as (e0 & e0' & r & He1 & He2 & Hs').
    unfold fifo_map.emplace, emplace. rewrite He1, He2. simpl.
    intros [= <-]. eauto.
  - destruct (same_nodes_erase fifo_map.identity m m' k Hs)
      as (e0 & e0' & He1 & He2 & Hs').
    unfold fifo_map.erase. rewrite He1, He2. intros [= <-]. eauto.
  - intros Hrun. by apply (same_nodes_erase_it fifo_map.identity m m' it e).
  - intros [= <-]. exists (fifo_map.clear m'). split; [done|].
    apply same_nodes_clear.
  - destruct (same_nodes_move fifo_map.identity m m' h Hs)
      as (e0 & e0' & He1 & He2 & Hs').
    unfold fifo_map.move_construct. rewrite He1, He2. intros [= <-]. eauto.
  - destruct (map_subscript_assign_same m m' k x Hs)
      as (e0 & e0' & He1 & He2 & Hs').
    rewrite He1, He2. intros [= <-]. eauto.
Qed.

Lemma map_run_same ops m m' e :
  same_nodes m m' → fifo_map.run ops m = Ok e →
  ∃ e', fifo_map.run ops m' = Ok e' ∧ same_nodes e e'.
Proof.
  revert m m'. induction ops as [|o ops IH]; intros m m' Hs; simpl.
  - intros [= <-]. eauto.
  - destruct (fifo_map.step o m) as [m1|] eqn:E; [|done]. simpl.
    destruct (map_step_same o m m' m1 Hs E) as (m1' & -> & Hs1). simpl.
    by apply IH.
Qed.

End facts.
End fifo_map_facts.

(** * The properties of the specification *)

Import forward_list fifo fifo_spec.

(** C1 (order preservation).  Starting from an empty container, any run of
    [emplace_back] / [emplace] calls whose identities are pairwise distinct
    returns, and walking the result from [begin()] to [end()] yields exactly
    the inserted elements in the order of insertion; this holds for the set
    facade and for the map facade. *)
Theorem C1_order_preservation :
  (∀ (T : Type) `{Countable T} `{Allocator}
     (ops : list fifo_set.op) (xs : list T) (h : loc),
     Forall2 (λ o x, o = fifo_set.EmplaceBack x ∨ o = fifo_set.Emplace x)
       ops xs →
     NoDup xs →
     ∃ s, fifo_set.run ops (fifo_set.new_at h) = Ok s
          ∧ fifo_set.to_list s = Ok xs)
  ∧
  (∀ (Key M : Type) `{Countable Key} `{Allocator} `{Inhabited M}
     (ops : list fifo_map.op) (vs : list (Key * M)) (h : loc),
     Forall2 (λ o v, o = fifo_map.EmplaceBack v ∨ o = fifo_map.Emplace v)
       ops vs →
     NoDup vs.*1 →
     ∃ m, fifo_map.run ops (fifo_map.new_at h) = Ok m
          ∧ fifo_map.to_list m = Ok vs).
Proof.
  split.
  - intros T ? ? ? ops xs h Hops Hnd.
    destruct (fifo_set_facts.set_run_appends ops xs (fifo_set.new_at h)
                (fifo_facts.wf_new_at _ h) Hops Hnd)
      as (s & Hrun & Hwf & Hel).
    exists s. split; [done|].
    unfold fifo_set.to_list.
    by rewrite (fifo_facts.to_list_elements _ s Hwf), Hel.
  - intros Key M ? ? ? ? ops vs h Hops Hnd.
    destruct (fifo_map_facts.map_run_appends ops vs (fifo_map.new_at h)
                (fifo_facts.wf_new_at _ h) Hops Hnd)
      as (m & Hrun & Hwf & Hel).
    exists m. split; [done|].
    unfold fifo_map.to_list.
    by rewrite (fifo_facts.to_list_elements _ m Hwf), Hel.
Qed.

Lemma C1_witness :
  (∃ s, fifo_set.run [fifo_set.EmplaceBack 30; fifo_set.Emplace 10;
                      fifo_set.EmplaceBack 20] (fifo_set.new_at 0) = Ok s
        ∧ fifo_set.to_list s = Ok [30; 10; 20])
  ∧ (∃ m, fifo_map.run [fifo_map.EmplaceBack (2, true);
                        fifo_map.Emplace (1, false)] (fifo_map.new_at 0)
          = Ok m
          ∧ fifo_map.to_list m = Ok [(2, true); (1, false)]).
Proof.
  split.
  - apply (proj1 C1_order_preservation nat _ _ _).
    + repeat (apply List.Forall2_cons; [first [by left | by right]|]).
      apply List.Forall2_nil.
    + apply (bool_decide_unpack _). by vm_compute.
  - apply (proj2 C1_order_preservation nat bool _ _ _ _).
    + repeat (apply List.Forall2_cons; [first [by left | by right]|]).
      apply List.Forall2_nil.
    + apply (bool_decide_unpack _). by vm_compute.
Defined.

(** C2 (predecessor invariant and bijection).  After any run of public
    operations on a freshly constructed container (insertion at the back
    or at the front, erasure by identity or by iterator, clear, move, and
    for the map also assignment through [operator[]]; after a move the run
    goes on with the moved-to container), every node is found
    one step after the position its identity is indexed at (I2), and the
    index entries correspond one to one to the nodes (I1, I4).  Such runs
    exist for every sequence of operations in which erasure by iterator is
    only given iterators to nodes of the container: in a state so reached
    every such operation returns. *)
Theorem C2_predecessor_invariant :
  (∀ (T : Type) `{Countable T} `{Allocator}
     (ops : list fifo_set.op) (h : loc) (s : fifo.t T T),
     fifo_set.run ops (fifo_set.new_at h) = Ok s →
     predecessor_invariant fifo_set.identity s
     ∧ index_bijection fifo_set.identity s
     ∧ ∀ o, (∀ it, o = fifo_set.EraseIt it →
                   ∃ a, it = Node a ∧ a ∈ addrs (list_ s)) →
            ∃ s', fifo_set.step o s = Ok s')
  ∧
  (∀ (Key M : Type) `{Countable Key} `{Allocator} `{Inhabited M}
     (ops : list fifo_map.op) (h : loc) (m : fifo.t Key (Key * M)),
     fifo_map.run ops (fifo_map.new_at h) = Ok m →
     predecessor_invariant fifo_map.identity m
     ∧ index_bijection fifo_map.identity m
     ∧ ∀ o, (∀ it, o = fifo_map.EraseIt it →
                   ∃ a, it = Node a ∧ a ∈ addrs (list_ m)) →
            ∃ m', fifo_map.step o m = Ok m').
Proof.
  split.
  - intros T ? ? ? ops h s Hrun.
    apply fifo_set_facts.set_reach_wf in Hrun. split_and!.
    + by apply fifo_facts.wf_predecessor_invariant.
    + by apply fifo_facts.wf_index_bijection.
    + intros o. by apply fifo_set_facts.set_step_total.
  - intros Key M ? ? ? ? ops h m Hrun.
    apply fifo_map_facts.map_reach_wf in Hrun. split_and!.
    + by apply fifo_facts.wf_predecessor_invariant.
    + by apply fifo_facts.wf_index_bijection.
    + intros o. by apply fifo_map_facts.map_step_total.
Qed.

Lemma C2_witness :
  fifo_set.run [fifo_set.EmplaceBack 10; fifo_set.EmplaceBack 20;
                fifo_set.EmplaceBack 30; fifo_set.Erase 20;
                fifo_set.EmplaceFront 40; fifo_set.MoveTo 5;
                fifo_set.EraseIt (Node 3)] (fifo_set.new_at 0)
  = Ok samples.set_40_10
  ∧ predecessor_invariant fifo_set.identity samples.set_40_10
  ∧ index_bijection fifo_set.identity samples.set_40_10.
Proof.
  split; [vm_compute; reflexivity|].
  destruct (proj1 C2_predecessor_invariant nat _ _ _
           [fifo_set.EmplaceBack 10; fifo_set.EmplaceBack 20;
            fifo_set.EmplaceBack 30; fifo_set.Erase 20;
            fifo_set.EmplaceFront 40; fifo_set.MoveTo 5;
            fifo_set.EraseIt (Node 3)] 0 samples.set_40_10)
    as (HI2 & HI1 & _).
  - vm_compute. reflexivity.
  - split; assumption.
Defined.

(** C3 (tail cursor), as amended.  After any run of public operations on a
    freshly constructed container (after a move the run goes on with the
    moved-to container), [list_back] is the position of the last node
    itself (the position a node appended next goes after), and it is the
    before-begin slot if and only if the container has no node. *)
Theorem C3_tail_at_last :
  (∀ (T : Type) `{Countable T} `{Allocator}
     (ops : list fifo_set.op) (h : loc) (s : fifo.t T T),
     fifo_set.run ops (fifo_set.new_at h) = Ok s → tail_at_last s)
  ∧
  (∀ (Key M : Type) `{Countable Key} `{Allocator} `{Inhabited M}
     (ops : list fifo_map.op) (h : loc) (m : fifo.t Key (Key * M)),
     fifo_map.run ops (fifo_map.new_at h) = Ok m → tail_at_last m).
Proof.
  split.
  - intros T ? ? ? ops h s Hrun.
    apply fifo_set_facts.set_reach_wf in Hrun.
    by eapply fifo_facts.wf_tail_at_last.
  - intros Key M ? ? ? ? ops h m Hrun.
    apply fifo_map_facts.map_reach_wf in Hrun.
    by eapply fifo_facts.wf_tail_at_last.
Qed.

Lemma C3_witness :
  fifo_set.run [fifo_set.EmplaceBack 10; fifo_set.EmplaceBack 20;
                fifo_set.EmplaceBack 30; fifo_set.Erase 20]
    (fifo_set.new_at 0) = Ok samples.set_10_30
  ∧ tail_at_last samples.set_10_30.
Proof.
  split; [vm_compute; reflexivity|].
  apply (proj1 C3_tail_at_last nat _ _ _
           [fifo_set.EmplaceBack 10; fifo_set.EmplaceBack 20;
            fifo_set.EmplaceBack 30; fifo_set.Erase 20] 0
           samples.set_10_30).
  vm_compute. reflexivity.
Defined.

(** C3 as the specification states it fails: after two insertions at the
    back the tail is the second (last) node, whereas the position before
    the last node is the first node. *)
Lemma C3_counterexample :
  ∃ s : fifo.t nat nat,
    fifo_set.run [fifo_set.EmplaceBack 7; fifo_set.EmplaceBack 8]
      (fifo_set.new_at 0) = Ok s
    ∧ list_back s = Node 2
    ∧ pos_before (list_ s) 1 = Node 1
    ∧ ¬ tail_before_last s.
Proof.
  eexists. split; [reflexivity|]. split_and!; [done..|].
  unfold tail_before_last. simpl. vm_compute. discriminate.
Qed.

(** C4 (insertion of an identity that is present).  When the identity of
    the element is already in the container, [emplace_back] and [emplace]
    return the container unchanged (hence the same size, order and index),
    an iterator to the node that holds the identity, and [false]; for the
    map the mapped value of that node is kept.  Consequently a second
    insertion of an identity just inserted returns the state and the
    iterator of the first call, and [false]. *)
Theorem C4_insert_existing :
  (∀ (T : Type) `{Countable T} `{Allocator}
     (s : fifo.t T T) (a : addr) (x : T),
     wf fifo_set.identity s → (a, x) ∈ cells (list_ s) →
     fifo_set.emplace_back x s = Ok (s, (Node a, false))
     ∧ fifo_set.emplace x s = Ok (s, (Node a, false)))
  ∧
  (∀ (T : Type) `{Countable T} `{Allocator}
     (s s1 : fifo.t T T) (x : T) (r : list_iterator * bool),
     wf fifo_set.identity s → fifo_set.emplace_back x s = Ok (s1, r) →
     fifo_set.emplace_back x s1 = Ok (s1, (r.1, false)))
  ∧
  (∀ (Key M : Type) `{Countable Key} `{Allocator}
     (m : fifo.t Key (Key * M)) (a : addr) (k : Key) (v v' : M),
     wf fifo_map.identity m → (a, (k, v)) ∈ cells (list_ m) →
     fifo_map.emplace_back (k, v') m = Ok (m, (Node a, false))
     ∧ fifo_map.emplace (k, v') m = Ok (m, (Node a, false)))
  ∧
  (∀ (Key M : Type) `{Countable Key} `{Allocator}
     (m m1 : fifo.t Key (Key * M)) (k : Key) (v v' : M)
     (r : list_iterator * bool),
     wf fifo_map.identity m → fifo_map.emplace_back (k, v) m = Ok (m1, r) →
     fifo_map.emplace_back (k, v') m1 = Ok (m1, (r.1, false))).
Proof.
  split_and!.
  - intros T ? ? ? s a x Hwf Hin.
    apply list_elem_of_lookup_1 in Hin as [i Hi].
    assert (fifo_set.emplace_back x s = Ok (s, (Node a, false))) as Heq.
    { by apply (fifo_facts.emplace_back_present fifo_set.identity s x i (a, x)). }
    by split.
  - intros T ? ? ? s s1 x r Hwf Hrun.
    by apply (fifo_facts.emplace_back_again fifo_set.identity s x x s1 r).
  - intros Key M ? ? ? m a k v v' Hwf Hin.
    apply list_elem_of_lookup_1 in Hin as [i Hi].
    assert (fifo_map.emplace_back (k, v') m = Ok (m, (Node a, false))) as Heq.
    { by apply (fifo_facts.emplace_back_present fifo_map.identity m (k, v') i
                  (a, (k, v))). }
    by split.
  - intros Key M ? ? ? m m1 k v v' r Hwf Hrun.
    by apply (fifo_facts.emplace_back_again fifo_map.identity m (k, v) (k, v')
                m1 r).
Qed.

Lemma C4_witness :
  fifo_set.emplace_back 20 samples.set_10_20
  = Ok (samples.set_10_20, (Node 2, false))
  ∧ fifo_set.emplace 20 samples.set_10_20
    = Ok (samples.set_10_20, (Node 2, false)).
Proof.
  apply (proj1 C4_insert_existing nat _ _ _ samples.set_10_20 2 20).
  - apply (fifo_set_facts.set_reach_wf
             [fifo_set.EmplaceBack 10; fifo_set.EmplaceBack 20] 0).
    vm_compute. reflexivity.
  - simpl. apply (bool_decide_unpack _). by vm_compute.
Defined.

(** C6 (erasing an absent identity).  [erase] by identity of an identity
    that has no index entry returns normally and returns the container
    unchanged: list, index, tail and size are those of the argument.  In a
    container that satisfies the invariant this is the case for every
    identity that no element carries. *)
Theorem C6_erase_absent :
  (∀ (T : Type) `{Countable T} `{Allocator} (s : fifo.t T T) (x : T),
     map_ s !! x = None → fifo_set.erase x s = Ok s)
  ∧
  (∀ (T : Type) `{Countable T} `{Allocator} (s : fifo.t T T) (x : T),
     wf fifo_set.identity s → x ∉ elements s → fifo_set.erase x s = Ok s)
  ∧
  (∀ (Key M : Type) `{Countable Key} `{Allocator}
     (m : fifo.t Key (Key * M)) (k : Key),
     map_ m !! k = None → fifo_map.erase k m = Ok m)
  ∧
  (∀ (Key M : Type) `{Countable Key} `{Allocator}
     (m : fifo.t Key (Key * M)) (k : Key),
     wf fifo_map.identity m → k ∉ (elements m).*1 →
     fifo_map.erase k m = Ok m).
Proof.
  split_and!.
  - intros T ? ? ? s x Hx. by apply fifo_facts.erase_absent.
  - intros T ? ? ? s x Hwf Hx. apply fifo_facts.erase_absent.
    apply (fifo_facts.wf_lookup_None fifo_set.identity); [done|].
    by rewrite fifo_set_facts.set_keys_elements.
  - intros Key M ? ? ? m k Hk. by apply fifo_facts.erase_absent.
  - intros Key M ? ? ? m k Hwf Hk. apply fifo_facts.erase_absent.
    by apply (fifo_facts.wf_lookup_None fifo_map.identity).
Qed.

Lemma C6_witness :
  fifo_set.erase 30 samples.set_10_20 = Ok samples.set_10_20.
Proof.
  apply (proj1 (proj2 C6_erase_absent) nat _ _ _ samples.set_10_20 30).
  - apply (fifo_set_facts.set_reach_wf
             [fifo_set.EmplaceBack 10; fifo_set.EmplaceBack 20] 0).
    vm_compute. reflexivity.
  - apply (bool_decide_unpack _). by vm_compute.
Defined.

(** C5 (erase, then insert again).  Erasing an identity that is present
    and inserting it with [emplace_back] afterwards both return, the
    insertion reports [true], and the container then lists the other
    elements in their former relative order followed by the new element,
    which is the last one wherever the erased one had been. *)
Theorem C5_erase_reinsert :
  (∀ (T : Type) `{Countable T} `{Allocator} (s : fifo.t T T) (x : T),
     wf fifo_set.identity s → x ∈ elements s →
     ∃ s1 s2 it,
       fifo_set.erase x s = Ok s1
       ∧ fifo_set.emplace_back x s1 = Ok (s2, (it, true))
       ∧ fifo_set.to_list s2 = Ok (filter (λ y, y ≠ x) (elements s) ++ [x]))
  ∧
  (∀ (Key M : Type) `{Countable Key} `{Allocator}
     (m : fifo.t Key (Key * M)) (k : Key) (v : M),
     wf fifo_map.identity m → k ∈ (elements m).*1 →
     ∃ m1 m2 it,
       fifo_map.erase k m = Ok m1
       ∧ fifo_map.emplace_back (k, v) m1 = Ok (m2, (it, true))
       ∧ fifo_map.to_list m2
         = Ok (filter (λ w, w.1 ≠ k) (elements m) ++ [(k, v)])).
Proof.
  split.
  - intros T ? ? ? s x Hwf Hin.
    rewrite <-fifo_set_facts.set_keys_elements in Hin.
    apply fifo_facts.elem_of_keys in Hin as (i & y & Hy & Hk).
    destruct (fifo_facts.erase_then_emplace_back fifo_set.identity s i y x
                Hwf Hy) as (s1 & s2 & it & He & Hi & Hwf2 & Hel); [done|].
    exists s1, s2, it. split_and!; [done..|].
    unfold fifo_set.to_list.
    by rewrite (fifo_facts.to_list_elements _ s2 Hwf2), Hel.
  - intros Key M ? ? ? m k v Hwf Hin.
    apply (fifo_facts.elem_of_keys fifo_map.identity) in Hin
      as (i & y & Hy & Hk).
    destruct (fifo_facts.erase_then_emplace_back fifo_map.identity m i y (k, v)
                Hwf Hy) as (m1 & m2 & it & He & Hi & Hwf2 & Hel); [done|].
    exists m1, m2, it. split_and!; [done..|].
    unfold fifo_map.to_list.
    by rewrite (fifo_facts.to_list_elements _ m2 Hwf2), Hel.
Qed.

Lemma C5_witness :
  ∃ s1 s2 it,
    fifo_set.erase 10 samples.set_10_20_30 = Ok s1
    ∧ fifo_set.emplace_back 10 s1 = Ok (s2, (it, true))
    ∧ fifo_set.to_list s2 = Ok [20; 30; 10].
Proof.
  apply (proj1 C5_erase_reinsert nat _ _ _ samples.set_10_20_30 10).
  - apply (fifo_set_facts.set_reach_wf
             [fifo_set.EmplaceBack 10; fifo_set.EmplaceBack 20;
              fifo_set.EmplaceBack 30] 0).
    vm_compute. reflexivity.
  - apply (bool_decide_unpack _). by vm_compute.
Defined.

(** C7 (insertion at the front, set facade).  For a value that is absent,
    [emplace_front] returns [true] and an iterator to a new node that is
    placed directly after the before-begin slot, so the value becomes the
    first element; the new value is indexed at the before-begin slot; the
    index entry of the formerly first element, which was the before-begin
    slot, now is the new node; no other index entry changes; [list_back]
    becomes the new node if the set was empty and is unchanged otherwise.
    For a value that is present nothing changes and the call returns an
    iterator to the node holding it and [false]. *)
Theorem C7_emplace_front :
  (∀ (T : Type) `{Countable T} `{Allocator} (s : fifo.t T T) (x : T),
     wf fifo_set.identity s → x ∉ elements s →
     ∃ s' a,
       fifo_set.emplace_front x s = Ok (s', (Node a, true))
       ∧ (a ∉ addrs (list_ s))
       ∧ head (list_ s') = head (list_ s)
       ∧ cells (list_ s') = (a, x) :: cells (list_ s)
       ∧ fifo_set.begin s' = Node a
       ∧ fifo_set.to_list s' = Ok (x :: elements s)
       ∧ map_ s' !! x = Some (before_begin (list_ s'))
       ∧ (∀ a0 x0 rest, cells (list_ s) = (a0, x0) :: rest →
            map_ s !! x0 = Some (before_begin (list_ s))
            ∧ map_ s' !! x0 = Some (Node a))
       ∧ (∀ y, y ≠ x → (∀ c, cells (list_ s) !! 0 = Some c → y ≠ c.2) →
            map_ s' !! y = map_ s !! y)
       ∧ (cells (list_ s) = [] → list_back s' = Node a)
       ∧ (cells (list_ s) ≠ [] → list_back s' = list_back s)
       ∧ wf fifo_set.identity s')
  ∧
  (∀ (T : Type) `{Countable T} `{Allocator}
     (s : fifo.t T T) (a : addr) (x : T),
     wf fifo_set.identity s → (a, x) ∈ cells (list_ s) →
     fifo_set.emplace_front x s = Ok (s, (Node a, false))).
Proof.
  split.
  - intros T ? ? ? s x Hwf Hx.
    rewrite <-fifo_set_facts.set_keys_elements in Hx.
    pose proof (fifo_facts.emplace_front_absent fifo_set.identity s x Hwf Hx)
      as Hrun.
    pose proof (fifo_facts.wf_pushed_front fifo_set.identity s x Hwf Hx)
      as Hwf'.
    pose proof (wf_index s Hwf 0) as Hfirst.
    set (a := alloc (addrs (list_ s))) in *.
    exists (pushed_front fifo_set.identity x s), a.
    assert (cells (list_ (pushed_front fifo_set.identity x s))
            = (a, x) :: cells (list_ s)) as Hcs.
    { unfold pushed_front. by destruct (cells (list_ s)). }
    split_and!.
    + done.
    + apply alloc_fresh.
    + unfold pushed_front. by destruct (cells (list_ s)).
    + done.
    + unfold fifo_set.begin, begin, forward_list.begin, node_at.
      by rewrite Hcs.
    + unfold fifo_set.to_list.
      rewrite (fifo_facts.to_list_elements _ _ Hwf').
      unfold elements, values. by rewrite Hcs.
    + unfold pushed_front, before_begin.
      destruct (cells (list_ s)); simpl; by rewrite lookup_insert_eq.
    + intros a0 x0 rest Hc. split.
      * apply (Hfirst (a0, x0)). by rewrite Hc.
      * unfold pushed_front. rewrite Hc. simpl.
        rewrite lookup_insert_ne.
        -- by rewrite lookup_insert_eq.
        -- intros Heq. apply Hx. unfold fifo_set.identity in Heq.
           simpl in Heq. rewrite Heq.
           apply (fifo_facts.keys_elem_of fifo_set.identity s 0 (a0, x0)).
           by rewrite Hc.
    + intros y Hyx Hyf. unfold pushed_front.
      destruct (cells (list_ s)) as [|f cs] eqn:E; simpl.
      * by rewrite lookup_insert_ne.
      * rewrite lookup_insert_ne by done. rewrite lookup_insert_ne; [done|].
        intros Heq. by apply (Hyf f).
    + intros Hc. unfold pushed_front. by rewrite Hc.
    + intros Hc. unfold pushed_front. by destruct (cells (list_ s)).
    + done.
  - intros T ? ? ? s a x Hwf Hin.
    apply list_elem_of_lookup_1 in Hin as [i Hi].
    by apply (fifo_facts.emplace_front_present fifo_set.identity s x i (a, x)).
Qed.

Lemma C7_witness :
  (∃ s' a, fifo_set.emplace_front 40 samples.set_10_20
           = Ok (s', (Node a, true))
           ∧ fifo_set.to_list s' = Ok [40; 10; 20]
           ∧ map_ s' !! 10 = Some (Node a))
  ∧ fifo_set.emplace_front 20 samples.set_10_20
    = Ok (samples.set_10_20, (Node 2, false)).
Proof.
  assert (wf fifo_set.identity samples.set_10_20) as Hwf.
  { apply (fifo_set_facts.set_reach_wf
             [fifo_set.EmplaceBack 10; fifo_set.EmplaceBack 20] 0).
    vm_compute. reflexivity. }
  split.
  - destruct (proj1 C7_emplace_front nat _ _ _ samples.set_10_20 40 Hwf)
      as (s' & a & Hrun & _ & _ & _ & _ & Hl & _ & Hf & _).
    + apply (bool_decide_unpack _). by vm_compute.
    + exists s', a. split_and!; [done..|].
      by apply (Hf 1 10 [(2, 20)]).
  - apply (proj2 C7_emplace_front nat _ _ _ samples.set_10_20 2 20 Hwf).
    apply (bool_decide_unpack _). by vm_compute.
Defined.

(** C8 ([at] and [operator[]], map facade).  [at(k)] fails with
    [out_of_range] exactly when no element has key [k], and returns the
    mapped value of the element with key [k] otherwise.  [operator[](k)]
    always returns: for a key that is present it returns a reference to the
    mapped value of its node and changes nothing; for an absent key it
    appends [k] with a default-constructed mapped value at the back and
    returns a reference to that value.  In particular, on an empty map
    [m[k] = x] creates the single element [(k, x)], [m.at(k)] then returns
    [x], and after [m.erase(k)] the call [m.at(k)] fails with
    [out_of_range]. *)
Theorem C8_at_and_subscript :
  (∀ (Key M : Type) `{Countable Key} `{Allocator} `{Inhabited M}
     (m : fifo.t Key (Key * M)) (k : Key),
     wf fifo_map.identity m →
     (fifo_map.at_ k m = Fail out_of_range ↔ k ∉ (elements m).*1)
     ∧ (∀ a v, (a, (k, v)) ∈ cells (list_ m) →
          fifo_map.at_ k m = Ok v
          ∧ fifo_map.subscript k m = Ok (m, Node a)
          ∧ fifo_map.load (Node a) m = Ok v)
     ∧ (k ∉ (elements m).*1 →
          ∃ m' ref,
            fifo_map.subscript k m = Ok (m', ref)
            ∧ fifo_map.to_list m' = Ok (elements m ++ [(k, inhabitant)])
            ∧ fifo_map.load ref m' = Ok inhabitant
            ∧ wf fifo_map.identity m')
     ∧ (∃ m' ref, fifo_map.subscript k m = Ok (m', ref)))
  ∧
  (∀ (Key M : Type) `{Countable Key} `{Allocator} `{Inhabited M}
     (k : Key) (x : M) (h : loc),
     ∃ m1 m2,
       fifo_map.subscript_assign k x (fifo_map.new_at h) = Ok m1
       ∧ fifo_map.to_list m1 = Ok [(k, x)]
       ∧ fifo_map.at_ k m1 = Ok x
       ∧ fifo_map.erase k m1 = Ok m2
       ∧ fifo_map.at_ k m2 = Fail out_of_range).
Proof.
  split.
  - intros Key M ? ? ? ? m k Hwf.
    assert (∀ a v, (a, (k, v)) ∈ cells (list_ m) →
              fifo_map.at_ k m = Ok v
              ∧ fifo_map.subscript k m = Ok (m, Node a)
              ∧ fifo_map.load (Node a) m = Ok v) as Hpresent.
    { intros a v Hin. apply list_elem_of_lookup_1 in Hin as [i Hi].
      split_and!.
      - by eapply fifo_map_facts.at_present.
      - by eapply fifo_map_facts.subscript_present.
      - by eapply fifo_map_facts.load_at. }
    assert (k ∉ (elements m).*1 →
            ∃ m' ref,
              fifo_map.subscript k m = Ok (m', ref)
              ∧ fifo_map.to_list m' = Ok (elements m ++ [(k, inhabitant)])
              ∧ fifo_map.load ref m' = Ok inhabitant
              ∧ wf fifo_map.identity m') as Habsent.
    { intros Hk.
      pose proof (fifo_facts.wf_pushed_back fifo_map.identity m
                    (k, inhabitant) Hwf Hk) as Hwf'.
      eexists _, _. split_and!.
      - by apply fifo_map_facts.subscript_absent.
      - unfold fifo_map.to_list.
        rewrite (fifo_facts.to_list_elements _ _ Hwf').
        unfold pushed_back, elements, values. simpl. by rewrite fmap_app.
      - eapply (fifo_map_facts.load_at _ (length (cells (list_ m)))
                  _ k inhabitant Hwf').
        simpl. by rewrite lookup_app_r, Nat.sub_diag by lia.
      - done. }
    split_and!; [|done|done|].
    + split.
      * intros Hat Hin.
        apply (fifo_facts.elem_of_keys fifo_map.identity) in Hin
          as (i & [a [k' v]] & Hi & Hk). simpl in Hk. subst k'.
        by rewrite (fifo_map_facts.at_present m i a k v Hwf Hi) in Hat.
      * by apply fifo_map_facts.at_absent.
    + destruct (fifo_facts.keys_dec fifo_map.identity m k)
        as [Hk|(i & [a [k' v]] & Hi & Hk)].
      * destruct (Habsent Hk) as (m' & ref & Hs & _). eauto.
      * simpl in Hk. subst k'. exists m, (Node a).
        by eapply fifo_map_facts.subscript_present.
  - intros Key M ? ? ? ? k x h.
    pose proof (fifo_facts.wf_new_at (@fifo_map.identity Key M) h) as Hwf0.
    assert (k ∉ keys (@fifo_map.identity Key M) (fifo.new_at h)) as Hk0.
    { apply not_elem_of_nil. }
    pose proof (fifo_facts.wf_pushed_back fifo_map.identity _
                  (k, inhabitant) Hwf0 Hk0) as Hwf1.
    set (a := alloc (addrs (list_ (fifo.new_at (K:=Key) (V:=Key * M) h)))).
    set (m1 := fifo.mk {[k := BeforeBegin h]}
                 (forward_list.mk h [(a, (k, x))]) (Node a)).
    assert (wf fifo_map.identity m1) as Hwfm1.
    { pose proof (fifo_map_facts.wf_stored _ 0 a k inhabitant x Hwf1 eq_refl)
        as Hst. simpl in Hst. by rewrite insert_empty in Hst. }
    exists m1, (erased fifo_map.identity 0 (a, (k, x)) m1). split_and!.
    + unfold fifo_map.subscript_assign, fifo_map.new_at.
      rewrite (fifo_map_facts.subscript_absent _ k Hwf0 Hk0).
      change (fifo_map.store (Node a) x
                (pushed_back fifo_map.identity (k, inhabitant) (new_at h))
              = Ok m1).
      rewrite (fifo_map_facts.store_at _ 0 a k inhabitant x Hwf1 eq_refl).
      simpl. by rewrite insert_empty.
    + unfold fifo_map.to_list.
      by rewrite (fifo_facts.to_list_elements _ _ Hwfm1).
    + by apply (fifo_map_facts.at_present m1 0 a k x Hwfm1).
    + by apply (fifo_facts.erase_present fifo_map.identity m1 0 (a, (k, x))).
    + apply fifo_map_facts.at_absent.
      * by apply fifo_facts.wf_erased.
      * by apply (fifo_facts.key_not_in_erased fifo_map.identity m1 0
                    (a, (k, x))).
Qed.

Lemma C8_witness :
  (fifo_map.at_ 8 samples.map_7_9 = Fail out_of_range ↔ 8 ∉ [7; 9])
  ∧ fifo_map.at_ 9 samples.map_7_9 = Ok 90.
Proof.
  destruct (proj1 C8_at_and_subscript nat nat _ _ _ _ samples.map_7_9 8)
    as (Hat & _).
  - apply (fifo_map_facts.map_reach_wf
             [fifo_map.EmplaceBack (7, 70); fifo_map.EmplaceBack (9, 90)] 0).
    vm_compute. reflexivity.
  - split; [exact Hat|]. vm_compute. reflexivity.
Defined.

(** C9 (move construction), as amended.  Moving a container into a new
    object whose list lives at [h] returns; the new object owns the very
    nodes of the source in the same order; its index is that of the source
    except that the entry of the first element now is the before-begin slot
    of the new list; its tail is that of the source, or its own
    before-begin slot if there is no node.  Hence it lists the same
    sequence, has the same size, satisfies I1 and I2, has its tail at its
    last node (at its own before-begin slot when empty), and answers every
    lookup as the source did; and every insertion, erasure and whole run of
    operations that returns on the source returns on the new object with
    the same returned iterator and flag and the same resulting nodes.  This
    holds for both facades. *)
Theorem C9_move_construct :
  (∀ (T : Type) `{Countable T} `{Allocator} (s : fifo.t T T) (h : loc),
     wf fifo_set.identity s →
     ∃ s',
       fifo_set.move_construct h s = Ok s'
       ∧ head (list_ s') = h
       ∧ cells (list_ s') = cells (list_ s)
       ∧ (∀ c, cells (list_ s) !! 0 = Some c →
               map_ s' !! c.2 = Some (before_begin (list_ s')))
       ∧ (∀ y, (∀ c, cells (list_ s) !! 0 = Some c → y ≠ c.2) →
               map_ s' !! y = map_ s !! y)
       ∧ list_back s'
         = match cells (list_ s) with
           | [] => before_begin (list_ s')
           | _ => list_back s
           end
       ∧ fifo_set.to_list s' = fifo_set.to_list s
       ∧ fifo_set.size s' = fifo_set.size s
       ∧ predecessor_invariant fifo_set.identity s'
       ∧ index_bijection fifo_set.identity s'
       ∧ tail_at_last s'
       ∧ (∀ x, fifo_set.find x s' = fifo_set.find x s
               ∧ fifo_set.count x s' = fifo_set.count x s)
       ∧ (∀ x, ∃ e e' r,
             fifo_set.emplace_back x s = Ok (e, r)
             ∧ fifo_set.emplace_back x s' = Ok (e', r)
             ∧ same_nodes fifo_set.identity e e')
       ∧ (∀ x, ∃ e e',
             fifo_set.erase x s = Ok e ∧ fifo_set.erase x s' = Ok e'
             ∧ same_nodes fifo_set.identity e e')
       ∧ (∀ ops e, fifo_set.run ops s = Ok e →
             ∃ e', fifo_set.run ops s' = Ok e'
                   ∧ same_nodes fifo_set.identity e e'
                   ∧ fifo_set.to_list e' = fifo_set.to_list e))
  ∧
  (∀ (Key M : Type) `{Countable Key} `{Allocator} `{Inhabited M}
     (m : fifo.t Key (Key * M)) (h : loc),
     wf fifo_map.identity m →
     ∃ m',
       fifo_map.move_construct h m = Ok m'
       ∧ head (list_ m') = h
       ∧ cells (list_ m') = cells (list_ m)
       ∧ (∀ c, cells (list_ m) !! 0 = Some c →
               map_ m' !! c.2.1 = Some (before_begin (list_ m')))
       ∧ (∀ k, (∀ c, cells (list_ m) !! 0 = Some c → k ≠ c.2.1) →
               map_ m' !! k = map_ m !! k)
       ∧ list_back m'
         = match cells (list_ m) with
           | [] => before_begin (list_ m')
           | _ => list_back m
           end
       ∧ fifo_map.to_list m' = fifo_map.to_list m
       ∧ fifo_map.size m' = fifo_map.size m
       ∧ predecessor_invariant fifo_map.identity m'
       ∧ index_bijection fifo_map.identity m'
       ∧ tail_at_last m'
       ∧ (∀ k, fifo_map.find k m' = fifo_map.find k m
               ∧ fifo_map.count k m' = fifo_map.count k m
               ∧ fifo_map.at_ k m' = fifo_map.at_ k m)
       ∧ (∀ v, ∃ e e' r,
             fifo_map.emplace_back v m = Ok (e, r)
             ∧ fifo_map.emplace_back v m' = Ok (e', r)
             ∧ same_nodes fifo_map.identity e e')
       ∧ (∀ k, ∃ e e',
             fifo_map.erase k m = Ok e ∧ fifo_map.erase k m' = Ok e'
             ∧ same_nodes fifo_map.identity e e')
       ∧ (∀ ops e, fifo_map.run ops m = Ok e →
             ∃ e', fifo_map.run ops m' = Ok e'
                   ∧ same_nodes fifo_map.identity e e'
                   ∧ fifo_map.to_list e' = fifo_map.to_list e)).
Proof.
  split.
  - intros T ? ? ? s h Hwf.
    pose proof (fifo_facts.same_nodes_moved fifo_set.identity s h Hwf) as Hs.
    pose proof Hs as (_ & Hwf' & Hcs).
    pose proof (fifo_facts.head_moved fifo_set.identity s h) as Hh.
    exists (moved fifo_set.identity h s). split_and!.
    + by apply fifo_facts.move_construct_wf.
    + done.
    + done.
    + intros c Hc. unfold before_begin. rewrite Hh.
      by apply (fifo_facts.moved_index_first fifo_set.identity).
    + intros y Hy. by apply (fifo_facts.moved_index_other fifo_set.identity).
    + unfold before_begin. rewrite Hh. apply fifo_facts.moved_back.
    + by apply (fifo_facts.same_nodes_to_list fifo_set.identity).
    + by apply (fifo_facts.same_nodes_size fifo_set.identity).
    + by apply fifo_facts.wf_predecessor_invariant.
    + by apply fifo_facts.wf_index_bijection.
    + by eapply fifo_facts.wf_tail_at_last.
    + intros x. split.
      * by apply (fifo_facts.same_nodes_find fifo_set.identity).
      * by apply (fifo_facts.same_nodes_count fifo_set.identity).
    + intros x. by apply fifo_facts.same_nodes_emplace_back.
    + intros x. by apply fifo_facts.same_nodes_erase.
    + intros ops e Hrun.
      destruct (fifo_set_facts.set_run_same ops s _ e Hs Hrun)
        as (e' & Hrun' & Hs').
      exists e'. split_and!; [done..|].
      by apply (fifo_facts.same_nodes_to_list fifo_set.identity).
  - intros Key M ? ? ? ? m h Hwf.
    pose proof (fifo_facts.same_nodes_moved fifo_map.identity m h Hwf) as Hs.
    pose proof Hs as (_ & Hwf' & Hcs).
    pose proof (fifo_facts.head_moved fifo_map.identity m h) as Hh.
    exists (moved fifo_map.identity h m). split_and!.
    + by apply fifo_facts.move_construct_wf.
    + done.
    + done.
    + intros c Hc. unfold before_begin. rewrite Hh.
      by apply (fifo_facts.moved_index_first fifo_map.identity).
    + intros k Hk. by apply (fifo_facts.moved_index_other fifo_map.identity).
    + unfold before_begin. rewrite Hh. apply fifo_facts.moved_back.
    + by apply (fifo_facts.same_nodes_to_list fifo_map.identity).
    + by apply (fifo_facts.same_nodes_size fifo_map.identity).
    + by apply fifo_facts.wf_predecessor_invariant.
    + by apply fifo_facts.wf_index_bijection.
    + by eapply fifo_facts.wf_tail_at_last.
    + intros k. split_and!.
      * by apply (fifo_facts.same_nodes_find fifo_map.identity).
      * by apply (fifo_facts.same_nodes_count fifo_map.identity).
      * by apply fifo_map_facts.map_at_same.
    + intros v. by apply fifo_facts.same_nodes_emplace_back.
    + intros k. by apply fifo_facts.same_nodes_erase.
    + intros ops e Hrun.
      destruct (fifo_map_facts.map_run_same ops m _ e Hs Hrun)
        as (e' & Hrun' & Hs').
      exists e'. split_and!; [done..|].
      by apply (fifo_facts.same_nodes_to_list fifo_map.identity).
Qed.

(** C9 with I3 in the words of the specification fails: the set moved from
    one that holds two elements has its tail at the second (last) node,
    whereas the position before the last node is the first node. *)
Lemma C9_counterexample :
  ∃ s s' : fifo.t nat nat,
    fifo_set.run [fifo_set.EmplaceBack 7; fifo_set.EmplaceBack 8]
      (fifo_set.new_at 0) = Ok s
    ∧ fifo_set.move_construct 5 s = Ok s'
    ∧ fifo_set.to_list s' = Ok [7; 8]
    ∧ list_back s' = Node 2
    ∧ pos_before (list_ s') 1 = Node 1
    ∧ ¬ tail_before_last s'.
Proof.
  eexists _, _. split; [reflexivity|]. split; [reflexivity|].
  split_and!; [done..|].
  unfold tail_before_last. vm_compute. discriminate.
Qed.

Lemma C9_witness :
  ∃ s', fifo_set.move_construct 5 samples.set_10_20 = Ok s'
        ∧ map_ s' !! 10 = Some (BeforeBegin 5)
        ∧ fifo_set.to_list s' = Ok [10; 20]
        ∧ fifo_set.find 20 s' = Ok (Node 2).
Proof.
  destruct (proj1 C9_move_construct nat _ _ _ samples.set_10_20 5)
    as (s' & Hrun & Hh & _ & Hfirst & _ & _ & Hl & _ & _ & _ & _ & Hf & _).
  - apply (fifo_set_facts.set_reach_wf
             [fifo_set.EmplaceBack 10; fifo_set.EmplaceBack 20] 0).
    vm_compute. reflexivity.
  - exists s'. split_and!.
    + exact Hrun.
    + etrans; [exact (Hfirst (1, 10) eq_refl)|].
      unfold before_begin. by rewrite Hh.
    + rewrite Hl. vm_compute. reflexivity.
    + rewrite (proj1 (Hf 20)). vm_compute. reflexivity.
Defined.

(** C10 (copy assignment, set facade).  [operator=(fifo_set const&)] clears
    the destination and then appends the elements of the source in order:
    assigned from a different set, the destination ends up listing exactly
    the elements of the source, which is left as it was.  As the source is
    read only after the destination has been cleared, assigning a set to
    itself returns with the set cleared: size 0 and no elements, whatever
    it held before. *)
Theorem C10_copy_assign :
  (∀ (T : Type) `{Countable T} `{Allocator}
     (σ : gmap loc (fifo.t T T)) (this x : loc) (dst src : fifo.t T T),
     this ≠ x → σ !! this = Some dst → σ !! x = Some src →
     wf fifo_set.identity src →
     ∃ dst',
       fifo_set.copy_assign this x σ = Ok (<[this := dst']> σ)
       ∧ fifo_set.to_list dst' = fifo_set.to_list src
       ∧ fifo_set.to_list dst' = Ok (elements src)
       ∧ head (list_ dst') = head (list_ dst)
       ∧ wf fifo_set.identity dst')
  ∧
  (∀ (T : Type) `{Countable T} `{Allocator}
     (σ : gmap loc (fifo.t T T)) (this : loc) (s : fifo.t T T),
     σ !! this = Some s →
     ∃ s',
       fifo_set.copy_assign this this σ = Ok (<[this := s']> σ)
       ∧ s' = fifo_set.clear s
       ∧ fifo_set.size s' = 0
       ∧ fifo_set.empty s' = true
       ∧ fifo_set.to_list s' = Ok []).
Proof.
  split.
  - intros T ? ? ? σ this x dst src Hne Hthis Hx Hsrc.
    unfold fifo_set.copy_assign.
    rewrite (fifo_set_facts.obj_lookup σ this dst Hthis).
    rewrite fifo_set_facts.bind_Ok.
    rewrite (fifo_set_facts.obj_lookup _ x src) by by rewrite lookup_insert_ne.
    rewrite fifo_set_facts.bind_Ok.
    assert (<[this := fifo_set.clear dst]> σ !! x = Some src) as Hx'.
    { by rewrite lookup_insert_ne. }
    assert (<[this := fifo_set.clear dst]> σ !! this
            = Some (fifo_set.clear dst)) as Hthis'.
    { by rewrite lookup_insert_eq. }
    destruct (fifo_set_facts.copy_loop_distinct
                (length (cells (list_ src))) this x 0
                (<[this := fifo_set.clear dst]> σ) src (fifo_set.clear dst)
                Hne Hsrc (fifo_facts.wf_clear _ dst) Hx' Hthis'
                (Nat.add_0_r _) eq_refl)
      as (dst' & Hrun & Hwf' & Hel & Hh).
    exists dst'. unfold fifo_set.begin, begin, forward_list.begin.
    rewrite Hrun, insert_insert_eq. unfold fifo_set.to_list.
    rewrite !(fifo_facts.to_list_elements fifo_set.identity) by done.
    by rewrite Hel.
  - intros T ? ? ? σ this s Hthis. exists (fifo_set.clear s).
    unfold fifo_set.copy_assign.
    rewrite (fifo_set_facts.obj_lookup σ this s Hthis).
    rewrite fifo_set_facts.bind_Ok.
    rewrite (fifo_set_facts.obj_lookup _ this (fifo_set.clear s))
      by by rewrite lookup_insert_eq.
    rewrite fifo_set_facts.bind_Ok. by split_and!.
Qed.

Lemma C10_witness :
  (∃ d', fifo_set.copy_assign 1 0
           {[0 := samples.set_10_20; 1 := samples.set_30]}
         = Ok (<[1 := d']> {[0 := samples.set_10_20; 1 := samples.set_30]})
         ∧ fifo_set.to_list d' = Ok [10; 20])
  ∧ (∃ s', fifo_set.copy_assign 0 0
             {[0 := samples.set_10_20; 1 := samples.set_30]}
           = Ok (<[0 := s']> {[0 := samples.set_10_20; 1 := samples.set_30]})
           ∧ fifo_set.size s' = 0).
Proof.
  split.
  - destruct (proj1 C10_copy_assign nat _ _ _
                {[0 := samples.set_10_20; 1 := samples.set_30]} 1 0
                samples.set_30 samples.set_10_20)
      as (d' & Hrun & _ & Hl & _).
    + lia.
    + vm_compute. reflexivity.
    + vm_compute. reflexivity.
    + apply (fifo_set_facts.set_reach_wf
               [fifo_set.EmplaceBack 10; fifo_set.EmplaceBack 20] 0).
      vm_compute. reflexivity.
    + exists d'. split; [exact Hrun|exact Hl].
  - destruct (proj2 C10_copy_assign nat _ _ _
                {[0 := samples.set_10_20; 1 := samples.set_30]} 0
                samples.set_10_20)
      as (s' & Hrun & _ & Hsz & _).
    + vm_compute. reflexivity.
    + exists s'. split; [exact Hrun|exact Hsz].
Defined.

(** * Further properties of the code *)

(** ** Lookups, sizes and node handles in the engine *)

Module fifo_lookup_facts.
Import forward_list forward_list_facts fifo fifo_spec fifo_facts.
Section facts.
Context {K V : Type} `{Countable K} `{Allocator} (key_of : V → K).
Implicit Types (c : fifo.t K V) (k : K) (v : V) (x : addr * V).

#[local] Abbreviation keys := (fifo_spec.keys key_of).
#[local] Abbreviation wf := (fifo_spec.wf key_of).
#[local] Abbreviation pushed_back := (fifo_spec.pushed_back key_of).
#[local] Abbreviation pushed_front := (fifo_spec.pushed_front key_of).
#[local] Abbreviation erased := (fifo_spec.erased key_of).

Lemma find_cell c i x :
  wf c → cells (list_ c) !! i = Some x → find (key_of x.2) c = Ok (Node x.1).
Proof.
  intros Hwf Hx. unfold find. rewrite (wf_index _ Hwf i x Hx).
  rewrite next_pos_before; [|apply Hwf|apply lookup_lt_Some in Hx; lia].
  by rewrite (node_at_lookup _ _ _ Hx).
Qed.

Lemma find_absent c k : wf c → k ∉ keys c → find k c = Ok End.
Proof. intros Hwf Hk. unfold find. by rewrite (wf_lookup_None _ c k Hwf Hk). Qed.

Lemma find_Node_inv c k a :
  wf c → find k c = Ok (Node a) →
  ∃ i v, cells (list_ c) !! i = Some (a, v) ∧ key_of v = k.
Proof.
  intros Hwf Hf. destruct (keys_dec key_of c k) as [Hk|(i & [b v] & Hx & Hk)].
  - by rewrite (find_absent c k Hwf Hk) in Hf.
  - subst k. rewrite (find_cell c i (b, v) Hwf Hx) in Hf.
    simpl in Hf. injection Hf as ->. eauto.
Qed.

Lemma find_End_inv c k : wf c → find k c = Ok End → k ∉ keys c.
Proof.
  intros Hwf Hf Hin. apply elem_of_keys in Hin as (i & x & Hx & <-).
  by rewrite (find_cell c i x Hwf Hx) in Hf.
Qed.

Lemma count_present c i x :
  wf c → cells (list_ c) !! i = Some x → count (key_of x.2) c = 1.
Proof. intros Hwf Hx. unfold count. by rewrite (wf_index _ Hwf i x Hx). Qed.

Lemma count_absent c k : wf c → k ∉ keys c → count k c = 0.
Proof. intros Hwf Hk. unfold count. by rewrite (wf_lookup_None _ c k Hwf Hk). Qed.

(** Two containers in which the identity [k] is carried by the same nodes
    answer [find k] alike. *)
Lemma find_same_cells c c' k :
  wf c → wf c' →
  (∀ x, key_of x.2 = k → x ∈ cells (list_ c') ↔ x ∈ cells (list_ c)) →
  find k c' = find k c.
Proof.
  intros Hwf Hwf' Hiff.
  destruct (keys_dec key_of c k) as [Hk|(i & x & Hx & Hk)].
  - rewrite (find_absent c k Hwf Hk). apply find_absent; [done|].
    intros Hin. apply elem_of_keys in Hin as (j & y & Hy & Hky).
    apply Hk. rewrite <-Hky. apply list_elem_of_lookup_2 in Hy.
    apply (Hiff y Hky) in Hy. apply list_elem_of_lookup_1 in Hy as [i Hi].
    by apply (keys_elem_of key_of c i y).
  - subst k. rewrite (find_cell c i x Hwf Hx).
    apply list_elem_of_lookup_2 in Hx. apply (Hiff x eq_refl) in Hx.
    apply list_elem_of_lookup_1 in Hx as [j Hj].
    by apply (find_cell c' j x).
Qed.

Lemma cells_erased_filter c i x :
  wf c → cells (list_ c) !! i = Some x →
  cells (list_ (erased i x c))
  = filter (λ y, key_of y.2 ≠ key_of x.2) (cells (list_ c)).
Proof.
  intros Hwf Hx. rewrite cells_erased.
  apply (delete_filter_key (λ y : addr * V, key_of y.2)); [|done].
  pose proof (wf_keys _ Hwf) as Hnd.
  unfold fifo_spec.keys, elements, values in Hnd.
  by rewrite <-list_fmap_compose in Hnd.
Qed.

Lemma size_erased c i x :
  wf c → cells (list_ c) !! i = Some x → S (size (erased i x c)) = size c.
Proof.
  intros Hwf Hx. rewrite !(wf_size key_of) by (done || by apply wf_erased).
  rewrite cells_erased, length_delete by eauto.
  apply lookup_lt_Some in Hx. lia.
Qed.

Lemma find_erased_other c i x k :
  wf c → cells (list_ c) !! i = Some x → k ≠ key_of x.2 →
  find k (erased i x c) = find k c.
Proof.
  intros Hwf Hx Hk. apply find_same_cells; [done|by apply wf_erased|].
  intros y Hy. rewrite (cells_erased_filter c i x Hwf Hx).
  rewrite list_elem_of_filter. split; [by intros [_ ?]|].
  intros Hin. split; [|done]. by rewrite Hy.
Qed.

Lemma size_pushed_back c v :
  wf c → key_of v ∉ keys c → size (pushed_back v c) = S (size c).
Proof.
  intros Hwf Hk. rewrite !(wf_size key_of) by (done || by apply wf_pushed_back).
  simpl. rewrite length_app. simpl. lia.
Qed.

Lemma find_pushed_back_other c v k :
  wf c → key_of v ∉ keys c → k ≠ key_of v →
  find k (pushed_back v c) = find k c.
Proof.
  intros Hwf Hv Hk. apply find_same_cells; [done|by apply wf_pushed_back|].
  intros y Hy. simpl. rewrite elem_of_app, list_elem_of_singleton.
  split; [|by left]. intros [Hin|Heq]; [done|]. subst y. simpl in Hy.
  by subst k.
Qed.

Lemma cells_pushed_front c v :
  cells (list_ (pushed_front v c))
  = (alloc (addrs (list_ c)), v) :: cells (list_ c).
Proof. unfold fifo_spec.pushed_front. by destruct (cells (list_ c)). Qed.

Lemma size_pushed_front c v :
  wf c → key_of v ∉ keys c → size (pushed_front v c) = S (size c).
Proof.
  intros Hwf Hk. rewrite !(wf_size key_of) by (done || by apply wf_pushed_front).
  by rewrite cells_pushed_front.
Qed.

Lemma find_pushed_front_other c v k :
  wf c → key_of v ∉ keys c → k ≠ key_of v →
  find k (pushed_front v c) = find k c.
Proof.
  intros Hwf Hv Hk. apply find_same_cells; [done|by apply wf_pushed_front|].
  intros y Hy. rewrite cells_pushed_front, elem_of_cons.
  split; [|by right]. intros [Heq|Hin]; [|done]. subst y. simpl in Hy.
  by subst k.
Qed.

(** *** Undoing an insertion *)

Lemma erased_pushed_back c v :
  wf c → key_of v ∉ keys c →
  erased (length (cells (list_ c))) (alloc (addrs (list_ c)), v)
    (pushed_back v c) = c.
Proof.
  intros Hwf Hk. pose proof (wf_back _ Hwf) as Hb.
  pose proof (wf_lookup_None _ c _ Hwf Hk) as Hm.
  unfold fifo_spec.erased, fifo_spec.pushed_back. simpl.
  rewrite delete_middle, app_nil_r. rewrite lookup_ge_None_2 by done.
  rewrite delete_insert_id by done.
  destruct c as [m [h cs] lb]. simpl in *. f_equal. rewrite Hb.
  destruct (length cs) as [|n] eqn:E; [done|]. simpl. unfold node_at.
  by rewrite lookup_app_l by lia.
Qed.

Lemma erased_pushed_front c v :
  wf c → key_of v ∉ keys c →
  erased 0 (alloc (addrs (list_ c)), v) (pushed_front v c) = c.
Proof.
  intros Hwf Hk. pose proof (wf_back _ Hwf) as Hb.
  pose proof (wf_lookup_None _ c _ Hwf Hk) as Hm.
  pose proof (wf_index _ Hwf 0) as Hf.
  unfold fifo_spec.erased, fifo_spec.pushed_front.
  destruct c as [m [h cs] lb]. simpl in *.
  destruct cs as [|f cs]; simpl in *.
  - rewrite delete_insert_id by done. by rewrite Hb.
  - assert (key_of f.2 ≠ key_of v) as Hne.
    { intros Heq. apply Hk. rewrite <-Heq. unfold fifo_spec.keys. simpl.
      by left. }
    rewrite delete_insert_id by by rewrite lookup_insert_ne.
    rewrite insert_insert_eq. by rewrite insert_id by by apply Hf.
Qed.

(** *** The engine against the reference model *)

Lemma emplace_back_model c v :
  wf c →
  ∃ c' r, emplace_back key_of v c = Ok (c', r) ∧ wf c'
          ∧ elements c' = reference.push_back key_of v (elements c).
Proof.
  intros Hwf. unfold reference.push_back. fold (keys c).
  destruct (emplace_back_cases key_of c v Hwf)
    as [[Hk Heq]|(i & x & Hx & Hk & Heq)].
  - rewrite decide_False by done. eexists _, _. split_and!; [done| |].
    + by apply wf_pushed_back.
    + unfold elements, values. simpl. by rewrite fmap_app.
  - rewrite decide_True; [by eexists _, _|].
    rewrite <-Hk. by eapply keys_elem_of.
Qed.

Lemma emplace_front_model c v :
  wf c →
  ∃ c' r, emplace_front key_of v c = Ok (c', r) ∧ wf c'
          ∧ elements c' = reference.push_front key_of v (elements c).
Proof.
  intros Hwf. unfold reference.push_front. fold (keys c).
  destruct (emplace_front_cases key_of c v Hwf)
    as [[Hk Heq]|(i & x & Hx & Hk & Heq)].
  - rewrite decide_False by done. eexists _, _. split_and!; [done| |].
    + by apply wf_pushed_front.
    + unfold elements, values. by rewrite cells_pushed_front.
  - rewrite decide_True; [by eexists _, _|].
    rewrite <-Hk. by eapply keys_elem_of.
Qed.

Lemma erase_model c k :
  wf c →
  ∃ c', erase key_of k c = Ok c' ∧ wf c'
        ∧ elements c' = reference.remove key_of k (elements c).
Proof.
  intros Hwf. unfold reference.remove.
  destruct (erase_cases key_of c k Hwf) as [[Hk Heq]|(i & x & Hx & Hk & Heq)].
  - exists c. split_and!; [done..|]. symmetry.
    apply filter_keep_all, Forall_forall. intros w Hw Heq'. apply Hk.
    rewrite <-Heq'. unfold fifo_spec.keys. apply list_elem_of_fmap. eauto.
  - exists (erased i x c). split_and!; [done|by apply wf_erased|].
    subst k. by apply elements_erased.
Qed.

Lemma elements_moved c h : elements (fifo_spec.moved key_of h c) = elements c.
Proof. unfold elements, values. by rewrite cells_moved. Qed.

(** *** Observers *)

Lemma find_total c k :
  wf c → find k c = Ok End ∨ ∃ i x, cells (list_ c) !! i = Some x
                                    ∧ key_of x.2 = k
                                    ∧ find k c = Ok (Node x.1).
Proof.
  intros Hwf. destruct (keys_dec key_of c k) as [Hk|(i & x & Hx & Hk)].
  - left. by apply find_absent.
  - right. exists i, x. split_and!; [done..|]. subst k.
    by apply (find_cell c i x).
Qed.

Lemma find_deref c k it :
  wf c → find k c = Ok it → it ≠ End →
  ∃ v, deref (list_ c) it = Ok v ∧ key_of v = k ∧ v ∈ elements c.
Proof.
  intros Hwf Hf Hne. destruct (find_total c k Hwf)
    as [Hend|(i & [a v] & Hx & Hk & Hnode)].
  - rewrite Hend in Hf. by injection Hf as <-.
  - rewrite Hnode in Hf. injection Hf as <-. exists v. split_and!.
    + by apply (deref_lookup (list_ c) i a v (wf_addrs _ Hwf)).
    + done.
    + unfold elements, values. apply list_elem_of_fmap. exists (a, v).
      split; [done|]. by eapply list_elem_of_lookup_2.
Qed.

Lemma count_spec c k :
  wf c → count k c = if decide (k ∈ keys c) then 1 else 0.
Proof.
  intros Hwf. destruct (decide (k ∈ keys c)) as [Hin|Hnin].
  - apply elem_of_keys in Hin as (i & x & Hx & <-).
    by apply (count_present c i x).
  - by apply count_absent.
Qed.

Lemma empty_spec c : wf c → empty c = true ↔ elements c = [].
Proof.
  intros Hwf. rewrite (wf_empty key_of c Hwf).
  unfold forward_list.empty, elements, values.
  rewrite bool_decide_eq_true. split; [by intros ->|].
  by intros ?%fmap_nil_inv.
Qed.

Lemma begin_spec c :
  (begin c = end_ c ↔ elements c = [])
  ∧ (wf c → ∀ v vs, elements c = v :: vs →
       deref (list_ c) (begin c) = Ok v).
Proof.
  unfold begin, forward_list.begin, end_, node_at, elements, values.
  destruct (cells (list_ c)) as [|[a w] cs] eqn:E; simpl.
  - done.
  - split; [done|]. intros Hwf v vs [= <- _].
    apply (deref_lookup (list_ c) 0 a w (wf_addrs _ Hwf)). by rewrite E.
Qed.

(** *** What an insertion returns *)

Lemma emplace_back_result c v c' it b :
  wf c → emplace_back key_of v c = Ok (c', (it, b)) →
  (b = true ↔ key_of v ∉ keys c)
  ∧ (b = false → c' = c)
  ∧ size c' = (if b then S (size c) else size c)
  ∧ wf c'
  ∧ find (key_of v) c' = Ok it
  ∧ ∃ w, deref (list_ c') it = Ok w ∧ key_of w = key_of v
         ∧ (b = true → w = v).
Proof.
  intros Hwf Hrun.
  destruct (emplace_back_cases key_of c v Hwf)
    as [[Hk Heq]|(i & [a w] & Hx & Hk & Heq)];
    rewrite Heq in Hrun; injection Hrun as <- <- <-.
  - pose proof (wf_pushed_back key_of c v Hwf Hk) as Hwf'.
    assert (cells (list_ (pushed_back v c)) !! length (cells (list_ c))
            = Some (alloc (addrs (list_ c)), v)) as Hn.
    { simpl. by rewrite lookup_app_r, Nat.sub_diag by lia. }
    split_and!; [done|done|by apply size_pushed_back|done| |].
    + apply (find_cell _ _ _ Hwf' Hn).
    + exists v. split_and!; [|done..].
      by apply (deref_lookup _ _ _ _ (wf_addrs _ Hwf') Hn).
  - split_and!; [|done|done|done| |].
    + split; [done|]. intros Hnin. exfalso. apply Hnin. rewrite <-Hk.
      by apply (keys_elem_of key_of c i (a, w)).
    + rewrite <-Hk. apply (find_cell c i (a, w) Hwf Hx).
    + exists w. split_and!; [|done..].
      by apply (deref_lookup _ i a w (wf_addrs _ Hwf)).
Qed.

Lemma emplace_front_result c v c' it b :
  wf c → emplace_front key_of v c = Ok (c', (it, b)) →
  (b = true ↔ key_of v ∉ keys c)
  ∧ (b = false → c' = c)
  ∧ size c' = (if b then S (size c) else size c)
  ∧ wf c'
  ∧ find (key_of v) c' = Ok it
  ∧ ∃ w, deref (list_ c') it = Ok w ∧ key_of w = key_of v
         ∧ (b = true → w = v).
Proof.
  intros Hwf Hrun.
  destruct (emplace_front_cases key_of c v Hwf)
    as [[Hk Heq]|(i & [a w] & Hx & Hk & Heq)];
    rewrite Heq in Hrun; injection Hrun as <- <- <-.
  - pose proof (wf_pushed_front key_of c v Hwf Hk) as Hwf'.
    assert (cells (list_ (pushed_front v c)) !! 0
            = Some (alloc (addrs (list_ c)), v)) as Hn.
    { by rewrite cells_pushed_front. }
    split_and!; [done|done|by apply size_pushed_front|done| |].
    + apply (find_cell _ _ _ Hwf' Hn).
    + exists v. split_and!; [|done..].
      by apply (deref_lookup _ _ _ _ (wf_addrs _ Hwf') Hn).
  - split_and!; [|done|done|done| |].
    + split; [done|]. intros Hnin. exfalso. apply Hnin. rewrite <-Hk.
      by apply (keys_elem_of key_of c i (a, w)).
    + rewrite <-Hk. apply (find_cell c i (a, w) Hwf Hx).
    + exists w. split_and!; [|done..].
      by apply (deref_lookup _ i a w (wf_addrs _ Hwf)).
Qed.

(** *** Erasure through an iterator *)



(** *** The object a move leaves behind, and [clear] *)

Lemma moved_from_observers c k :
  size (moved_from c) = 0 ∧ count k (moved_from c) = 0
  ∧ find k (moved_from c) = Ok End
  ∧ erase key_of k (moved_from c) = Ok (moved_from c)
  ∧ to_list (moved_from c) = Ok [].
Proof. by split_and!. Qed.

Lemma moved_from_insert_fails c v :
  wf c → cells (list_ c) ≠ [] →
  emplace_back key_of v (moved_from c) = Fail undefined_behaviour
  ∧ emplace_front key_of v (moved_from c) = Fail undefined_behaviour.
Proof.
  intros Hwf Hne. pose proof (wf_back _ Hwf) as Hb.
  destruct (cells (list_ c)) as [|x cs] eqn:E; [done|]. simpl in Hb.
  destruct (lookup_lt_is_Some_2 (cells (list_ c)) (length cs)) as [y Hy].
  { rewrite E. simpl. lia. }
  rewrite (node_at_lookup _ _ _ Hy) in Hb.
  unfold emplace_back, emplace_front, insert_after. simpl.
  by rewrite Hb.
Qed.

(** *** Full effect of the mutating operations *)

Lemma erase_present_spec c i x :
  wf c → cells (list_ c) !! i = Some x →
  ∃ c', erase key_of (key_of x.2) c = Ok c' ∧ wf c'
        ∧ elements c'
          = filter (λ w, key_of w ≠ key_of x.2) (elements c)
        ∧ S (size c') = size c
        ∧ find (key_of x.2) c' = Ok End
        ∧ count (key_of x.2) c' = 0
        ∧ (∀ k, k ≠ key_of x.2 → find k c' = find k c)
        ∧ erase key_of (key_of x.2) c' = Ok c'.
Proof.
  intros Hwf Hx. pose proof (wf_erased key_of c i x Hwf Hx) as Hwf'.
  pose proof (key_not_in_erased key_of c i x Hwf Hx) as Hnin.
  exists (erased i x c). split_and!.
  - by apply erase_present.
  - done.
  - by apply elements_erased.
  - by apply size_erased.
  - by apply find_absent.
  - by apply count_absent.
  - intros k Hk. by apply find_erased_other.
  - by apply erase_absent, (wf_lookup_None key_of).
Qed.

Lemma emplace_back_absent_spec c v :
  wf c → key_of v ∉ keys c →
  ∃ c' a, emplace_back key_of v c = Ok (c', (Node a, true)) ∧ wf c'
          ∧ (a ∉ addrs (list_ c))
          ∧ elements c' = elements c ++ [v]
          ∧ size c' = S (size c)
          ∧ deref (list_ c') (Node a) = Ok v
          ∧ find (key_of v) c' = Ok (Node a)
          ∧ (∀ k, k ≠ key_of v → find k c' = find k c).
Proof.
  intros Hwf Hk. pose proof (wf_pushed_back key_of c v Hwf Hk) as Hwf'.
  assert (cells (list_ (pushed_back v c)) !! length (cells (list_ c))
          = Some (alloc (addrs (list_ c)), v)) as Hn.
  { simpl. by rewrite lookup_app_r, Nat.sub_diag by lia. }
  exists (pushed_back v c), (alloc (addrs (list_ c))). split_and!.
  - by apply emplace_back_absent.
  - done.
  - apply alloc_fresh.
  - unfold elements, values. simpl. by rewrite fmap_app.
  - by apply size_pushed_back.
  - by apply (deref_lookup _ _ _ _ (wf_addrs _ Hwf') Hn).
  - apply (find_cell _ _ _ Hwf' Hn).
  - intros k Hne. by apply find_pushed_back_other.
Qed.

Lemma emplace_front_absent_spec c v :
  wf c → key_of v ∉ keys c →
  ∃ c' a, emplace_front key_of v c = Ok (c', (Node a, true)) ∧ wf c'
          ∧ elements c' = v :: elements c
          ∧ size c' = S (size c)
          ∧ begin c' = Node a
          ∧ deref (list_ c') (Node a) = Ok v
          ∧ find (key_of v) c' = Ok (Node a)
          ∧ (∀ k, k ≠ key_of v → find k c' = find k c).
Proof.
  intros Hwf Hk. pose proof (wf_pushed_front key_of c v Hwf Hk) as Hwf'.
  assert (cells (list_ (pushed_front v c)) !! 0
          = Some (alloc (addrs (list_ c)), v)) as Hn.
  { by rewrite cells_pushed_front. }
  exists (pushed_front v c), (alloc (addrs (list_ c))). split_and!.
  - by apply emplace_front_absent.
  - done.
  - unfold elements, values. by rewrite cells_pushed_front.
  - by apply size_pushed_front.
  - unfold begin, forward_list.begin. by rewrite (node_at_lookup _ _ _ Hn).
  - by apply (deref_lookup _ _ _ _ (wf_addrs _ Hwf') Hn).
  - apply (find_cell _ _ _ Hwf' Hn).
  - intros k Hne. by apply find_pushed_front_other.
Qed.

(** Erasing what was just inserted, by identity or through the returned
    iterator, gives back the container as it was. *)
Lemma emplace_back_erase c v :
  wf c → key_of v ∉ keys c →
  ∃ c1 it, emplace_back key_of v c = Ok (c1, (it, true))
           ∧ erase key_of (key_of v) c1 = Ok c
           ∧ erase_it key_of it c1 = Ok c.
Proof.
  intros Hwf Hk. pose proof (wf_pushed_back key_of c v Hwf Hk) as Hwf'.
  assert (cells (list_ (pushed_back v c)) !! length (cells (list_ c))
          = Some (alloc (addrs (list_ c)), v)) as Hn.
  { simpl. by rewrite lookup_app_r, Nat.sub_diag by lia. }
  exists (pushed_back v c), (Node (alloc (addrs (list_ c)))). split_and!.
  - by apply emplace_back_absent.
  - etrans; [exact (erase_present key_of _ _ _ Hwf' Hn)|].
    by rewrite erased_pushed_back.
  - etrans; [exact (erase_it_present key_of _ _ _ Hwf' Hn)|].
    by rewrite erased_pushed_back.
Qed.

Lemma emplace_front_erase c v :
  wf c → key_of v ∉ keys c →
  ∃ c1 it, emplace_front key_of v c = Ok (c1, (it, true))
           ∧ erase key_of (key_of v) c1 = Ok c
           ∧ erase_it key_of it c1 = Ok c.
Proof.
  intros Hwf Hk. pose proof (wf_pushed_front key_of c v Hwf Hk) as Hwf'.
  assert (cells (list_ (pushed_front v c)) !! 0
          = Some (alloc (addrs (list_ c)), v)) as Hn.
  { by rewrite cells_pushed_front. }
  exists (pushed_front v c), (Node (alloc (addrs (list_ c)))). split_and!.
  - by apply emplace_front_absent.
  - etrans; [exact (erase_present key_of _ _ _ Hwf' Hn)|].
    by rewrite erased_pushed_front.
  - etrans; [exact (erase_it_present key_of _ _ _ Hwf' Hn)|].
    by rewrite erased_pushed_front.
Qed.

Lemma moved_from_tail c :
  wf c → cells (list_ c) ≠ [] →
  list_back (moved_from c) ≠ before_begin (list_ (moved_from c)).
Proof.
  intros Hwf Hne. pose proof (wf_back _ Hwf) as Hb.
  destruct (cells (list_ c)) as [|x cs] eqn:E; [done|]. simpl in Hb.
  destruct (lookup_lt_is_Some_2 (cells (list_ c)) (length cs)) as [y Hy].
  { rewrite E. simpl. lia. }
  rewrite (node_at_lookup _ _ _ Hy) in Hb. simpl. by rewrite Hb.
Qed.

End facts.
End fifo_lookup_facts.

(** ** The set facade against the reference model *)

Module fifo_set_model_facts.
Import forward_list forward_list_facts fifo fifo_spec fifo_facts.
Import fifo_lookup_facts.
Section facts.
Context {T : Type} `{Countable T} `{Allocator}.
Implicit Types (s : fifo.t T T) (x : T).

#[local] Abbreviation wf := (fifo_spec.wf (@fifo_set.identity T)).

Lemma set_step_model o s :
  wf s → reference.set_by_value o →
  ∃ s', fifo_set.step o s = Ok s' ∧ wf s'
        ∧ elements s' = reference.set_step o (elements s).
Proof.
  intros Hwf Ho. destruct o as [x|x|x|x|it| |h]; simpl.
  - destruct (emplace_back_model fifo_set.identity s x Hwf)
      as (s' & r & Hrun & Hwf' & Hel).
    unfold fifo_set.emplace_back. rewrite Hrun. simpl. eauto.
  - destruct (emplace_back_model fifo_set.identity s x Hwf)
      as (s' & r & Hrun & Hwf' & Hel).
    unfold fifo_set.emplace, emplace. rewrite Hrun. simpl. eauto.
  - destruct (emplace_front_model fifo_set.identity s x Hwf)
      as (s' & r & Hrun & Hwf' & Hel).
    unfold fifo_set.emplace_front. rewrite Hrun. simpl. eauto.
  - by apply (erase_model fifo_set.identity).
  - done.
  - exists (fifo_set.clear s). split_and!; [done|apply wf_clear|done].
  - exists (moved fifo_set.identity h s). split_and!.
    + by apply move_construct_wf.
    + by apply wf_moved.
    + apply elements_moved.
Qed.

Lemma set_run_model ops s :
  wf s → Forall reference.set_by_value ops →
  ∃ s', fifo_set.run ops s = Ok s' ∧ wf s'
        ∧ elements s' = reference.set_run ops (elements s).
Proof.
  intros Hwf Hops. revert s Hwf.
  induction Hops as [|o ops Ho Hops IH]; intros s Hwf; simpl.
  - by exists s.
  - destruct (set_step_model o s Hwf Ho) as (s1 & -> & Hwf1 & Hel1). simpl.
    destruct (IH s1 Hwf1) as (s' & Hrun & Hwf' & Hel').
    exists s'. split_and!; [done..|]. by rewrite Hel', Hel1.
Qed.

End facts.
End fifo_set_model_facts.

(** ** The map facade: assignment through [operator[]], and the model *)

Module fifo_map_model_facts.
Import forward_list forward_list_facts fifo fifo_spec fifo_facts.
Import fifo_lookup_facts fifo_map_facts.
Section facts.
Context {Key M : Type} `{Countable Key} `{Allocator} `{Inhabited M}.
Implicit Types (m : fifo.t Key (Key * M)) (k : Key) (x : M).

#[local] Abbreviation wf := (fifo_spec.wf (@fifo_map.identity Key M)).
#[local] Abbreviation keys := (fifo_spec.keys (@fifo_map.identity Key M)).

Lemma at_cell m a k x :
  wf m → (a, (k, x)) ∈ cells (list_ m) → fifo_map.at_ k m = Ok x.
Proof.
  intros Hwf Hin. apply list_elem_of_lookup_1 in Hin as [i Hi].
  by apply (at_present m i a k x).
Qed.

(** Two maps in which key [k] is carried by the same nodes with the same
    mapped values answer [at(k)] alike. *)
Lemma at_same_cells m m' k :
  wf m → wf m' →
  (∀ a x, (a, (k, x)) ∈ cells (list_ m') ↔ (a, (k, x)) ∈ cells (list_ m)) →
  fifo_map.at_ k m' = fifo_map.at_ k m.
Proof.
  intros Hwf Hwf' Hiff.
  destruct (keys_dec fifo_map.identity m k)
    as [Hk|(i & [a [k' x]] & Hi & Hk)].
  - rewrite (at_absent m k Hwf Hk). apply at_absent; [done|].
    intros Hin. apply (elem_of_keys fifo_map.identity) in Hin
      as (j & [b [k' y]] & Hj & Hky). simpl in Hky. subst k'.
    apply Hk. apply list_elem_of_lookup_2, Hiff in Hj.
    apply list_elem_of_lookup_1 in Hj as [i Hi].
    apply (keys_elem_of fifo_map.identity m i (b, (k, y)) Hi).
  - simpl in Hk. subst k'. rewrite (at_present m i a k x Hwf Hi).
    apply list_elem_of_lookup_2, Hiff in Hi. by apply (at_cell m' a k x).
Qed.

(** What [m[k] = x] leaves in the list: the node of [k] with its mapped
    value overwritten, or a new last node. *)
Lemma subscript_assign_cells m k x :
  wf m →
  ∃ m', fifo_map.subscript_assign k x m = Ok m' ∧ wf m'
        ∧ ((∃ i a y, cells (list_ m) !! i = Some (a, (k, y))
                     ∧ cells (list_ m')
                       = <[i := (a, (k, x))]> (cells (list_ m)))
           ∨ ((k ∉ keys m)
              ∧ cells (list_ m')
                = cells (list_ m) ++ [(alloc (addrs (list_ m)), (k, x))])).
Proof.
  intros Hwf. unfold fifo_map.subscript_assign.
  destruct (keys_dec fifo_map.identity m k)
    as [Hk|(i & [a [k' y]] & Hi & Hk)].
  - rewrite (subscript_absent m k Hwf Hk). simpl.
    pose proof (wf_pushed_back fifo_map.identity m (k, inhabitant) Hwf Hk)
      as Hwf'.
    assert (cells (list_ (pushed_back fifo_map.identity (k, inhabitant) m))
              !! length (cells (list_ m))
            = Some (alloc (addrs (list_ m)), (k, inhabitant))) as Hn.
    { simpl. by rewrite lookup_app_r, Nat.sub_diag by lia. }
    rewrite (store_at _ _ _ k inhabitant x Hwf' Hn).
    eexists. split_and!; [done|by eapply wf_stored|].
    right. split; [done|]. simpl.
    by rewrite insert_app_r_alt, Nat.sub_diag by lia.
  - simpl in Hk. subst k'.
    rewrite (subscript_present m i a k y Hwf Hi). simpl.
    rewrite (store_at m i a k y x Hwf Hi).
    eexists. split_and!; [done|by eapply wf_stored|].
    left. by exists i, a, y.
Qed.

Lemma assign_elements m i a k y x :
  wf m → cells (list_ m) !! i = Some (a, (k, y)) →
  (<[i := (a, (k, x))]> (cells (list_ m))).*2
  = reference.assign k x (elements m).
Proof.
  intros Hwf Hi. unfold reference.assign.
  rewrite decide_True
    by apply (keys_elem_of fifo_map.identity m i (a, (k, y)) Hi).
  rewrite list_fmap_insert. simpl. fold (values (list_ m)).
  fold (elements m).
  assert (elements m !! i = Some (k, y)) as Hei.
  { unfold elements, values. by rewrite list_lookup_fmap, Hi. }
  apply list_eq. intros j. rewrite list_lookup_fmap.
  destruct (decide (j = i)) as [->|Hne].
  - rewrite list_lookup_insert_eq by by eapply lookup_lt_Some.
    rewrite Hei. simpl. by rewrite decide_True.
  - rewrite list_lookup_insert_ne by done.
    destruct (elements m !! j) as [[k' z]|] eqn:Hj; [|done]. simpl.
    rewrite decide_False; [done|]. intros ->. apply Hne.
    apply (NoDup_lookup (keys m) j i k); [apply Hwf| |].
    + unfold fifo_spec.keys. by rewrite list_lookup_fmap, Hj.
    + unfold fifo_spec.keys. by rewrite list_lookup_fmap, Hei.
Qed.

Lemma subscript_assign_spec m k x :
  wf m →
  ∃ m', fifo_map.subscript_assign k x m = Ok m' ∧ wf m'
        ∧ elements m' = reference.assign k x (elements m)
        ∧ fifo_map.at_ k m' = Ok x
        ∧ (∀ k', k' ≠ k → fifo_map.at_ k' m' = fifo_map.at_ k' m).
Proof.
  intros Hwf.
  destruct (subscript_assign_cells m k x Hwf)
    as (m' & Hrun & Hwf' & [(i & a & y & Hi & Hcs)|[Hk Hcs]]);
    exists m'; split_and!; try done.
  - unfold elements at 1, values. rewrite Hcs. by eapply assign_elements.
  - apply (at_cell m' a k x Hwf'). rewrite Hcs.
    eapply list_elem_of_lookup_2, list_lookup_insert_eq.
    by eapply lookup_lt_Some.
  - intros k' Hne. apply at_same_cells; [done..|]. intros b z.
    rewrite Hcs. split.
    + intros Hin. apply list_elem_of_lookup_1 in Hin as [j Hj].
      destruct (decide (j = i)) as [->|Hji].
      * rewrite list_lookup_insert_eq in Hj by by eapply lookup_lt_Some.
        congruence.
      * rewrite list_lookup_insert_ne in Hj by done.
        by eapply list_elem_of_lookup_2.
    + intros Hin. apply list_elem_of_lookup_1 in Hin as [j Hj].
      apply (list_elem_of_lookup_2 _ j).
      rewrite list_lookup_insert_ne; [done|]. intros ->. congruence.
  - unfold reference.assign. rewrite decide_False by done.
    unfold elements, values. rewrite Hcs. by rewrite fmap_app.
  - apply (at_cell m' (alloc (addrs (list_ m))) k x Hwf'). rewrite Hcs.
    apply elem_of_app. right. by apply list_elem_of_singleton.
  - intros k' Hne. apply at_same_cells; [done..|]. intros b z.
    rewrite Hcs, elem_of_app, list_elem_of_singleton.
    split; [|by left]. intros [Hin|Heq]; [done|]. congruence.
Qed.

Lemma map_step_model o m :
  wf m → reference.map_by_value o →
  ∃ m', fifo_map.step o m = Ok m' ∧ wf m'
        ∧ elements m' = reference.map_step o (elements m).
Proof.
  intros Hwf Ho. destruct o as [v|v|k|it| |h|k x]; simpl.
  - destruct (emplace_back_model fifo_map.identity m v Hwf)
      as (m' & r & Hrun & Hwf' & Hel).
    unfold fifo_map.emplace_back. rewrite Hrun. simpl. eauto.
  - destruct (emplace_back_model fifo_map.identity m v Hwf)
      as (m' & r & Hrun & Hwf' & Hel).
    unfold fifo_map.emplace, emplace. rewrite Hrun. simpl. eauto.
  - by apply (erase_model fifo_map.identity).
  - done.
  - exists (fifo_map.clear m). split_and!; [done|apply wf_clear|done].
  - exists (moved fifo_map.identity h m). split_and!.
    + by apply move_construct_wf.
    + by apply wf_moved.
    + apply elements_moved.
  - destruct (subscript_assign_spec m k x Hwf)
      as (m' & Hrun & Hwf' & Hel & _). eauto.
Qed.

Lemma map_run_model ops m :
  wf m → Forall reference.map_by_value ops →
  ∃ m', fifo_map.run ops m = Ok m' ∧ wf m'
        ∧ elements m' = reference.map_run ops (elements m).
Proof.
  intros Hwf Hops. revert m Hwf.
  induction Hops as [|o ops Ho Hops IH]; intros m Hwf; simpl.
  - by exists m.
  - destruct (map_step_model o m Hwf Ho) as (m1 & -> & Hwf1 & Hel1). simpl.
    destruct (IH m1 Hwf1) as (m' & Hrun & Hwf' & Hel').
    exists m'. split_and!; [done..|]. by rewrite Hel', Hel1.
Qed.

End facts.
End fifo_map_model_facts.

(** ** The sample containers satisfy the invariant *)

Module samples_facts.

Lemma set_10_20_wf : wf fifo_set.identity samples.set_10_20.
Proof.
  apply (fifo_set_facts.set_reach_wf
           [fifo_set.EmplaceBack 10; fifo_set.EmplaceBack 20] 0).
  vm_compute. reflexivity.
Qed.

Lemma set_10_20_30_wf : wf fifo_set.identity samples.set_10_20_30.
Proof.
  apply (fifo_set_facts.set_reach_wf
           [fifo_set.EmplaceBack 10; fifo_set.EmplaceBack 20;
            fifo_set.EmplaceBack 30] 0).
  vm_compute. reflexivity.
Qed.

Lemma map_7_9_wf : wf fifo_map.identity samples.map_7_9.
Proof.
  apply (fifo_map_facts.map_reach_wf
           [fifo_map.EmplaceBack (7, 70); fifo_map.EmplaceBack (9, 90)] 0).
  vm_compute. reflexivity.
Qed.

End samples_facts.

(** ** Statements *)

(** X1 ([find]).  In a container that satisfies the invariant, [find]
    always returns; it returns an iterator to the node that holds the
    identity when there is one, and [end()] exactly when there is none; a
    result other than [end()] dereferences to the element with the identity
    asked for, and for the map [at] then returns the mapped value of that
    element. *)
Theorem X1_find :
  (∀ (T : Type) `{Countable T} `{Allocator} (s : fifo.t T T),
     wf fifo_set.identity s →
     (∀ a x, (a, x) ∈ cells (list_ s) → fifo_set.find x s = Ok (Node a))
     ∧ (∀ x, x ∉ elements s ↔ fifo_set.find x s = Ok (fifo_set.end_ s))
     ∧ (∀ x it, fifo_set.find x s = Ok it → it ≠ fifo_set.end_ s →
          deref (list_ s) it = Ok x)
     ∧ (∀ x, ∃ it, fifo_set.find x s = Ok it))
  ∧
  (∀ (Key M : Type) `{Countable Key} `{Allocator}
     (m : fifo.t Key (Key * M)),
     wf fifo_map.identity m →
     (∀ a k v, (a, (k, v)) ∈ cells (list_ m) →
        fifo_map.find k m = Ok (Node a))
     ∧ (∀ k, k ∉ (elements m).*1 ↔ fifo_map.find k m = Ok (fifo_map.end_ m))
     ∧ (∀ k it, fifo_map.find k m = Ok it → it ≠ fifo_map.end_ m →
          ∃ v, deref (list_ m) it = Ok (k, v) ∧ fifo_map.at_ k m = Ok v)
     ∧ (∀ k, ∃ it, fifo_map.find k m = Ok it)).
Proof.
  split.
  - intros T ? ? ? s Hwf. split_and!.
    + intros a x Hin. apply list_elem_of_lookup_1 in Hin as [i Hi].
      apply (fifo_lookup_facts.find_cell fifo_set.identity s i (a, x) Hwf Hi).
    + intros x. rewrite <-fifo_set_facts.set_keys_elements. split.
      * by apply fifo_lookup_facts.find_absent.
      * by apply fifo_lookup_facts.find_End_inv.
    + intros x it Hf Hne.
      destruct (fifo_lookup_facts.find_deref fifo_set.identity s x it Hwf Hf
                  Hne) as (v & Hd & Hk & _).
      unfold fifo_set.identity in Hk. by subst v.
    + intros x.
      destruct (fifo_lookup_facts.find_total fifo_set.identity s x Hwf)
        as [Hf|(i & y & _ & _ & Hf)]; eauto.
  - intros Key M ? ? ? m Hwf. split_and!.
    + intros a k v Hin. apply list_elem_of_lookup_1 in Hin as [i Hi].
      apply (fifo_lookup_facts.find_cell fifo_map.identity m i (a, (k, v))
               Hwf Hi).
    + intros k. split.
      * by apply (fifo_lookup_facts.find_absent fifo_map.identity).
      * by apply (fifo_lookup_facts.find_End_inv fifo_map.identity).
    + intros k it Hf Hne.
      destruct (fifo_lookup_facts.find_total fifo_map.identity m k Hwf)
        as [Hend|(i & [a [k' v]] & Hx & Hk & Hnode)].
      * unfold fifo_map.find in Hf. rewrite Hend in Hf.
        by injection Hf as <-.
      * simpl in Hk. subst k'. unfold fifo_map.find in Hf.
        rewrite Hnode in Hf. injection Hf as <-. exists v. split.
        -- apply (forward_list_facts.deref_lookup _ i a (k, v));
             [apply Hwf|done].
        -- by apply (fifo_map_facts.at_present m i a k v).
    + intros k.
      destruct (fifo_lookup_facts.find_total fifo_map.identity m k Hwf)
        as [Hf|(i & y & _ & _ & Hf)]; eauto.
Qed.

Lemma X1_witness :
  fifo_set.find 20 samples.set_10_20 = Ok (Node 2)
  ∧ (30 ∉ [10; 20] ↔ fifo_set.find 30 samples.set_10_20 = Ok End)
  ∧ ∃ v, deref (list_ samples.map_7_9) (Node 2) = Ok (9, v)
         ∧ fifo_map.at_ 9 samples.map_7_9 = Ok v.
Proof.
  destruct (proj1 X1_find nat _ _ _ samples.set_10_20
              samples_facts.set_10_20_wf) as (Hf & Ha & _).
  destruct (proj2 X1_find nat nat _ _ _ samples.map_7_9
              samples_facts.map_7_9_wf) as (_ & _ & Hd & _).
  split_and!.
  - apply Hf. apply (bool_decide_unpack _). by vm_compute.
  - exact (Ha 30).
  - apply (Hd 9); [vm_compute; reflexivity|discriminate].
Defined.

(** X2 ([count], [size], [empty], [begin], [end]).  In a container that
    satisfies the invariant, [size()] is the number of elements a walk from
    [begin()] to [end()] visits, [empty()] holds exactly when there is
    none, which is exactly when [begin()] is [end()]; otherwise [begin()]
    dereferences to the first element; and [count] is 1 for an identity
    that an element carries and 0 for any other. *)
Theorem X2_observers :
  (∀ (T : Type) `{Countable T} `{Allocator} (s : fifo.t T T),
     wf fifo_set.identity s →
     ∃ xs, fifo_set.to_list s = Ok xs
           ∧ fifo_set.size s = length xs
           ∧ (fifo_set.empty s = true ↔ xs = [])
           ∧ (fifo_set.begin s = fifo_set.end_ s ↔ xs = [])
           ∧ (∀ x xs', xs = x :: xs' →
                deref (list_ s) (fifo_set.begin s) = Ok x)
           ∧ (∀ x, fifo_set.count x s = if decide (x ∈ xs) then 1 else 0))
  ∧
  (∀ (Key M : Type) `{Countable Key} `{Allocator}
     (m : fifo.t Key (Key * M)),
     wf fifo_map.identity m →
     ∃ vs, fifo_map.to_list m = Ok vs
           ∧ fifo_map.size m = length vs
           ∧ (fifo_map.empty m = true ↔ vs = [])
           ∧ (fifo_map.begin m = fifo_map.end_ m ↔ vs = [])
           ∧ (∀ v vs', vs = v :: vs' →
                deref (list_ m) (fifo_map.begin m) = Ok v)
           ∧ (∀ k, fifo_map.count k m
                   = if decide (k ∈ vs.*1) then 1 else 0)).
Proof.
  split.
  - intros T ? ? ? s Hwf. exists (elements s). split_and!.
    + by apply (fifo_facts.to_list_elements fifo_set.identity).
    + unfold fifo_set.size.
      rewrite (fifo_facts.wf_size fifo_set.identity s Hwf).
      unfold elements, values. by rewrite length_fmap.
    + by apply (fifo_lookup_facts.empty_spec fifo_set.identity).
    + apply (fifo_lookup_facts.begin_spec fifo_set.identity s).
    + by apply (fifo_lookup_facts.begin_spec fifo_set.identity s).
    + intros x. unfold fifo_set.count.
      rewrite (fifo_lookup_facts.count_spec fifo_set.identity s x Hwf).
      rewrite fifo_set_facts.set_keys_elements. done.
  - intros Key M ? ? ? m Hwf. exists (elements m). split_and!.
    + by apply (fifo_facts.to_list_elements fifo_map.identity).
    + unfold fifo_map.size.
      rewrite (fifo_facts.wf_size fifo_map.identity m Hwf).
      unfold elements, values. by rewrite length_fmap.
    + by apply (fifo_lookup_facts.empty_spec fifo_map.identity).
    + apply (fifo_lookup_facts.begin_spec fifo_map.identity m).
    + by apply (fifo_lookup_facts.begin_spec fifo_map.identity m).
    + intros k. unfold fifo_map.count.
      by rewrite (fifo_lookup_facts.count_spec fifo_map.identity m k Hwf).
Qed.

Lemma X2_witness :
  ∃ xs, fifo_set.to_list samples.set_10_20_30 = Ok xs
        ∧ fifo_set.size samples.set_10_20_30 = length xs
        ∧ (fifo_set.empty samples.set_10_20_30 = true ↔ xs = [])
        ∧ (fifo_set.begin samples.set_10_20_30
           = fifo_set.end_ samples.set_10_20_30 ↔ xs = []).
Proof.
  destruct (proj1 X2_observers nat _ _ _ samples.set_10_20_30
              samples_facts.set_10_20_30_wf)
    as (xs & Hl & Hs & He & Hb & _).
  exists xs. by split_and!.
Defined.

(** X3 ([erase] by identity of an element that is present).  The call
    returns; the container then lists the other elements in their former
    order, its size is one less, [find] of the erased identity gives
    [end()] and [count] gives 0; [find] of every other identity returns the
    same iterator as before (the other nodes stay where they are); and
    erasing the identity once more changes nothing. *)
Theorem X3_erase_present :
  (∀ (T : Type) `{Countable T} `{Allocator} (s : fifo.t T T) (x : T),
     wf fifo_set.identity s → x ∈ elements s →
     ∃ s', fifo_set.erase x s = Ok s'
           ∧ wf fifo_set.identity s'
           ∧ fifo_set.to_list s' = Ok (filter (λ y, y ≠ x) (elements s))
           ∧ S (fifo_set.size s') = fifo_set.size s
           ∧ fifo_set.find x s' = Ok (fifo_set.end_ s')
           ∧ fifo_set.count x s' = 0
           ∧ (∀ y, y ≠ x → fifo_set.find y s' = fifo_set.find y s)
           ∧ fifo_set.erase x s' = Ok s')
  ∧
  (∀ (Key M : Type) `{Countable Key} `{Allocator}
     (m : fifo.t Key (Key * M)) (k : Key),
     wf fifo_map.identity m → k ∈ (elements m).*1 →
     ∃ m', fifo_map.erase k m = Ok m'
           ∧ wf fifo_map.identity m'
           ∧ fifo_map.to_list m' = Ok (filter (λ w, w.1 ≠ k) (elements m))
           ∧ S (fifo_map.size m') = fifo_map.size m
           ∧ fifo_map.find k m' = Ok (fifo_map.end_ m')
           ∧ fifo_map.count k m' = 0
           ∧ fifo_map.at_ k m' = Fail out_of_range
           ∧ (∀ k', k' ≠ k → fifo_map.find k' m' = fifo_map.find k' m)
           ∧ fifo_map.erase k m' = Ok m').
Proof.
  split.
  - intros T ? ? ? s x Hwf Hin.
    rewrite <-fifo_set_facts.set_keys_elements in Hin.
    apply fifo_facts.elem_of_keys in Hin as (i & y & Hy & Hk).
    unfold fifo_set.identity in Hk. subst x.
    destruct (fifo_lookup_facts.erase_present_spec fifo_set.identity s i y
                Hwf Hy) as (s' & He & Hwf' & Hel & Hsz & Hf & Hc & Hst & He').
    exists s'. split_and!; try done.
    unfold fifo_set.to_list.
    by rewrite (fifo_facts.to_list_elements _ s' Hwf'), Hel.
  - intros Key M ? ? ? m k Hwf Hin.
    apply (fifo_facts.elem_of_keys fifo_map.identity) in Hin
      as (i & y & Hy & Hk).
    unfold fifo_map.identity in Hk. subst k.
    destruct (fifo_lookup_facts.erase_present_spec fifo_map.identity m i y
                Hwf Hy) as (m' & He & Hwf' & Hel & Hsz & Hf & Hc & Hst & He').
    exists m'. split_and!; try done.
    + unfold fifo_map.to_list.
      by rewrite (fifo_facts.to_list_elements _ m' Hwf'), Hel.
    + apply fifo_map_facts.at_absent; [done|].
      by apply (fifo_lookup_facts.find_End_inv fifo_map.identity).
Qed.

Lemma X3_witness :
  ∃ s', fifo_set.erase 20 samples.set_10_20_30 = Ok s'
        ∧ fifo_set.to_list s' = Ok [10; 30]
        ∧ fifo_set.find 30 s' = Ok (Node 3).
Proof.
  destruct (proj1 X3_erase_present nat _ _ _ samples.set_10_20_30 20
              samples_facts.set_10_20_30_wf)
    as (s' & He & _ & Hl & _ & _ & _ & Hst & _).
  - apply (bool_decide_unpack _). by vm_compute.
  - exists s'. split_and!; [exact He|exact Hl|].
    rewrite (Hst 30) by lia. vm_compute. reflexivity.
Defined.



(** X5 ([emplace_back] / [emplace] of an identity that is absent).  The
    call returns [true] and an iterator to a new node, which dereferences
    to the element given; the element is listed last, after the former
    elements in their order; the size grows by one; [find] of the new
    identity returns that iterator, and [find] of every other identity
    returns the same iterator as before. *)
Theorem X5_emplace_back_absent :
  (∀ (T : Type) `{Countable T} `{Allocator} (s : fifo.t T T) (x : T),
     wf fifo_set.identity s → x ∉ elements s →
     ∃ s' a, fifo_set.emplace_back x s = Ok (s', (Node a, true))
             ∧ fifo_set.emplace x s = Ok (s', (Node a, true))
             ∧ wf fifo_set.identity s'
             ∧ (a ∉ addrs (list_ s))
             ∧ fifo_set.to_list s' = Ok (elements s ++ [x])
             ∧ fifo_set.size s' = S (fifo_set.size s)
             ∧ deref (list_ s') (Node a) = Ok x
             ∧ fifo_set.find x s' = Ok (Node a)
             ∧ (∀ y, y ≠ x → fifo_set.find y s' = fifo_set.find y s))
  ∧
  (∀ (Key M : Type) `{Countable Key} `{Allocator}
     (m : fifo.t Key (Key * M)) (k : Key) (v : M),
     wf fifo_map.identity m → k ∉ (elements m).*1 →
     ∃ m' a, fifo_map.emplace_back (k, v) m = Ok (m', (Node a, true))
             ∧ fifo_map.emplace (k, v) m = Ok (m', (Node a, true))
             ∧ wf fifo_map.identity m'
             ∧ (a ∉ addrs (list_ m))
             ∧ fifo_map.to_list m' = Ok (elements m ++ [(k, v)])
             ∧ fifo_map.size m' = S (fifo_map.size m)
             ∧ deref (list_ m') (Node a) = Ok (k, v)
             ∧ fifo_map.find k m' = Ok (Node a)
             ∧ fifo_map.at_ k m' = Ok v
             ∧ (∀ k', k' ≠ k → fifo_map.find k' m' = fifo_map.find k' m)).
Proof.
  split.
  - intros T ? ? ? s x Hwf Hx.
    rewrite <-fifo_set_facts.set_keys_elements in Hx.
    destruct (fifo_lookup_facts.emplace_back_absent_spec fifo_set.identity
                s x Hwf Hx)
      as (s' & a & Hrun & Hwf' & Ha & Hel & Hsz & Hd & Hf & Hst).
    exists s', a. split_and!; try done.
    unfold fifo_set.to_list.
    by rewrite (fifo_facts.to_list_elements _ s' Hwf'), Hel.
  - intros Key M ? ? ? m k v Hwf Hk.
    destruct (fifo_lookup_facts.emplace_back_absent_spec fifo_map.identity
                m (k, v) Hwf Hk)
      as (m' & a & Hrun & Hwf' & Ha & Hel & Hsz & Hd & Hf & Hst).
    exists m', a. split_and!; try done.
    + unfold fifo_map.to_list.
      by rewrite (fifo_facts.to_list_elements _ m' Hwf'), Hel.
    + destruct (fifo_facts.deref_inv _ _ _ Hd) as (i & b & [= <-] & Hi).
      by apply (fifo_map_facts.at_present m' i a k v).
Qed.

Lemma X5_witness :
  ∃ s' a, fifo_set.emplace_back 30 samples.set_10_20
          = Ok (s', (Node a, true))
          ∧ fifo_set.to_list s' = Ok [10; 20; 30]
          ∧ fifo_set.find 20 s' = Ok (Node 2).
Proof.
  destruct (proj1 X5_emplace_back_absent nat _ _ _ samples.set_10_20 30
              samples_facts.set_10_20_wf)
    as (s' & a & Hrun & _ & _ & _ & Hl & _ & _ & _ & Hst).
  - apply (bool_decide_unpack _). by vm_compute.
  - exists s', a. split_and!; [exact Hrun|exact Hl|].
    rewrite (Hst 20) by lia. vm_compute. reflexivity.
Defined.

(** X6 ([emplace_front] of a value that is absent: size and handles).  The
    call returns [true] and an iterator to a new node that dereferences to
    the value and is what [begin()] and [find] of the value return
    afterwards; the size grows by one; and [find] of every other value
    returns the same iterator as before, although the index entry of the
    formerly first element was rewritten. *)
Theorem X6_emplace_front_absent :
  ∀ (T : Type) `{Countable T} `{Allocator} (s : fifo.t T T) (x : T),
    wf fifo_set.identity s → x ∉ elements s →
    ∃ s' a, fifo_set.emplace_front x s = Ok (s', (Node a, true))
            ∧ fifo_set.size s' = S (fifo_set.size s)
            ∧ fifo_set.begin s' = Node a
            ∧ deref (list_ s') (Node a) = Ok x
            ∧ fifo_set.find x s' = Ok (Node a)
            ∧ (∀ y, y ≠ x → fifo_set.find y s' = fifo_set.find y s).
Proof.
  intros T ? ? ? s x Hwf Hx.
  rewrite <-fifo_set_facts.set_keys_elements in Hx.
  destruct (fifo_lookup_facts.emplace_front_absent_spec fifo_set.identity
              s x Hwf Hx)
    as (s' & a & Hrun & Hwf' & Hel & Hsz & Hb & Hd & Hf & Hst).
  exists s', a. by split_and!.
Qed.

Lemma X6_witness :
  ∃ s' a, fifo_set.emplace_front 40 samples.set_10_20
          = Ok (s', (Node a, true))
          ∧ fifo_set.size s' = 3
          ∧ fifo_set.find 10 s' = Ok (Node 1).
Proof.
  destruct (X6_emplace_front_absent nat samples.set_10_20 40
              samples_facts.set_10_20_wf)
    as (s' & a & Hrun & Hsz & _ & _ & _ & Hst).
  - apply (bool_decide_unpack _). by vm_compute.
  - exists s', a. split_and!; [exact Hrun|exact Hsz|].
    rewrite (Hst 10) by lia. vm_compute. reflexivity.
Defined.

(** X7 (what an insertion returns).  Whenever [emplace_back], [emplace] or
    [emplace_front] returns on a container that satisfies the invariant,
    the flag is [true] exactly when the identity was absent, the size has
    grown by one if the flag is [true] and the container is unchanged if it
    is [false], and the returned iterator is what [find] of the identity
    now returns and dereferences to the element with that identity: the
    element given if the flag is [true], the element already there
    otherwise (for the map, with the mapped value it had). *)
Theorem X7_insertion_result :
  (∀ (T : Type) `{Countable T} `{Allocator} (s s' : fifo.t T T) (x : T)
     (it : list_iterator) (b : bool),
     wf fifo_set.identity s →
     fifo_set.emplace_back x s = Ok (s', (it, b))
     ∨ fifo_set.emplace x s = Ok (s', (it, b))
     ∨ fifo_set.emplace_front x s = Ok (s', (it, b)) →
     (b = true ↔ x ∉ elements s)
     ∧ (b = false → s' = s)
     ∧ fifo_set.size s' = (if b then S (fifo_set.size s) else fifo_set.size s)
     ∧ fifo_set.find x s' = Ok it
     ∧ deref (list_ s') it = Ok x)
  ∧
  (∀ (Key M : Type) `{Countable Key} `{Allocator}
     (m m' : fifo.t Key (Key * M)) (k : Key) (v : M)
     (it : list_iterator) (b : bool),
     wf fifo_map.identity m →
     fifo_map.emplace_back (k, v) m = Ok (m', (it, b))
     ∨ fifo_map.emplace (k, v) m = Ok (m', (it, b)) →
     (b = true ↔ k ∉ (elements m).*1)
     ∧ (b = false → m' = m)
     ∧ fifo_map.size m' = (if b then S (fifo_map.size m) else fifo_map.size m)
     ∧ fifo_map.find k m' = Ok it
     ∧ ∃ w, deref (list_ m') it = Ok (k, w)
            ∧ fifo_map.at_ k m' = Ok w
            ∧ (b = true → w = v)
            ∧ (b = false → fifo_map.at_ k m = Ok w)).
Proof.
  split.
  - intros T ? ? ? s s' x it b Hwf Hrun.
    assert ((b = true ↔ x ∉ keys fifo_set.identity s)
            ∧ (b = false → s' = s)
            ∧ size s' = (if b then S (size s) else size s)
            ∧ wf fifo_set.identity s'
            ∧ find x s' = Ok it
            ∧ ∃ w, deref (list_ s') it = Ok w ∧ w = x ∧ (b = true → w = x))
      as (Hb & Hsame & Hsz & _ & Hf & w & Hd & -> & _).
    { destruct Hrun as [Hrun|[Hrun|Hrun]].
      - apply (fifo_lookup_facts.emplace_back_result fifo_set.identity
                 s x s' it b Hwf Hrun).
      - apply (fifo_lookup_facts.emplace_back_result fifo_set.identity
                 s x s' it b Hwf Hrun).
      - apply (fifo_lookup_facts.emplace_front_result fifo_set.identity
                 s x s' it b Hwf Hrun). }
    rewrite fifo_set_facts.set_keys_elements in Hb. by split_and!.
  - intros Key M ? ? ? m m' k v it b Hwf Hrun.
    assert (fifo_map.emplace_back (k, v) m = Ok (m', (it, b))) as Hrun'.
    { by destruct Hrun. }
    destruct (fifo_lookup_facts.emplace_back_result fifo_map.identity
                m (k, v) m' it b Hwf Hrun')
      as (Hb & Hsame & Hsz & Hwf' & Hf & [k' w] & Hd & Hk & Hnew).
    unfold fifo_map.identity in Hk. simpl in Hk. subst k'.
    split_and!; try done. exists w.
    destruct (fifo_facts.deref_inv _ _ _ Hd) as (i & a & -> & Hi).
    pose proof (fifo_map_facts.at_present m' i a k w Hwf' Hi) as Hat.
    split_and!; [done|done| |].
    + intros Hbt. by injection (Hnew Hbt).
    + intros Hbf. by rewrite <-(Hsame Hbf).
Qed.

Lemma X7_witness :
  fifo_set.emplace_front 20 samples.set_10_20
  = Ok (samples.set_10_20, (Node 2, false))
  ∧ (false = true ↔ 20 ∉ [10; 20])
  ∧ fifo_set.find 20 samples.set_10_20 = Ok (Node 2).
Proof.
  assert (fifo_set.emplace_front 20 samples.set_10_20
          = Ok (samples.set_10_20, (Node 2, false))) as Hrun.
  { vm_compute. reflexivity. }
  split; [exact Hrun|].
  destruct (proj1 X7_insertion_result nat _ _ _ samples.set_10_20
              samples.set_10_20 20 (Node 2) false
              samples_facts.set_10_20_wf) as (Hb & _ & _ & Hf & _).
  - right. right. exact Hrun.
  - split; [exact Hb|exact Hf].
Defined.

(** X8 (insert, then erase).  Erasing an element that was just inserted
    into a container in which its identity was absent, at the back or at
    the front, by identity or through the iterator the insertion returned,
    gives back exactly the container as it was before the insertion:
    list, index and tail. *)
Theorem X8_insert_erase :
  (∀ (T : Type) `{Countable T} `{Allocator} (s : fifo.t T T) (x : T),
     wf fifo_set.identity s → x ∉ elements s →
     (∃ s1 it, fifo_set.emplace_back x s = Ok (s1, (it, true))
               ∧ fifo_set.erase x s1 = Ok s
               ∧ fifo_set.erase_it it s1 = Ok s)
     ∧ (∃ s1 it, fifo_set.emplace_front x s = Ok (s1, (it, true))
                 ∧ fifo_set.erase x s1 = Ok s
                 ∧ fifo_set.erase_it it s1 = Ok s))
  ∧
  (∀ (Key M : Type) `{Countable Key} `{Allocator}
     (m : fifo.t Key (Key * M)) (k : Key) (v : M),
     wf fifo_map.identity m → k ∉ (elements m).*1 →
     ∃ m1 it, fifo_map.emplace_back (k, v) m = Ok (m1, (it, true))
              ∧ fifo_map.erase k m1 = Ok m
              ∧ fifo_map.erase_it it m1 = Ok m).
Proof.
  split.
  - intros T ? ? ? s x Hwf Hx.
    rewrite <-fifo_set_facts.set_keys_elements in Hx. split.
    + apply (fifo_lookup_facts.emplace_back_erase fifo_set.identity s x
               Hwf Hx).
    + apply (fifo_lookup_facts.emplace_front_erase fifo_set.identity s x
               Hwf Hx).
  - intros Key M ? ? ? m k v Hwf Hk.
    apply (fifo_lookup_facts.emplace_back_erase fifo_map.identity m (k, v)
             Hwf Hk).
Qed.

Lemma X8_witness :
  ∃ s1 it, fifo_set.emplace_front 40 samples.set_10_20 = Ok (s1, (it, true))
           ∧ fifo_set.erase 40 s1 = Ok samples.set_10_20
           ∧ fifo_set.erase_it it s1 = Ok samples.set_10_20.
Proof.
  apply (proj1 X8_insert_erase nat _ _ _ samples.set_10_20 40
           samples_facts.set_10_20_wf).
  apply (bool_decide_unpack _). by vm_compute.
Defined.

(** X9 (move assignment).  Assigning from a distinct container that
    satisfies the invariant returns, whatever state the destination was
    in; the destination keeps its own list object and afterwards owns the
    nodes of the source in the same order, satisfies the invariant, has the
    size of the source and answers [find] as the source did. *)
Theorem X9_move_assign :
  (∀ (T : Type) `{Countable T} `{Allocator} (this other : fifo.t T T),
     wf fifo_set.identity other →
     ∃ s', fifo_set.move_assign this other = Ok s'
           ∧ wf fifo_set.identity s'
           ∧ head (list_ s') = head (list_ this)
           ∧ cells (list_ s') = cells (list_ other)
           ∧ fifo_set.to_list s' = fifo_set.to_list other
           ∧ fifo_set.size s' = fifo_set.size other
           ∧ (∀ x, fifo_set.find x s' = fifo_set.find x other))
  ∧
  (∀ (Key M : Type) `{Countable Key} `{Allocator}
     (this other : fifo.t Key (Key * M)),
     wf fifo_map.identity other →
     ∃ m', fifo_map.move_assign this other = Ok m'
           ∧ wf fifo_map.identity m'
           ∧ head (list_ m') = head (list_ this)
           ∧ cells (list_ m') = cells (list_ other)
           ∧ fifo_map.to_list m' = fifo_map.to_list other
           ∧ fifo_map.size m' = fifo_map.size other
           ∧ (∀ k, fifo_map.find k m' = fifo_map.find k other
                   ∧ fifo_map.at_ k m' = fifo_map.at_ k other)).
Proof.
  split.
  - intros T ? ? ? this other Hwf.
    pose proof (fifo_facts.same_nodes_moved fifo_set.identity other
                  (head (list_ this)) Hwf) as Hs.
    exists (moved fifo_set.identity (head (list_ this)) other). split_and!.
    + by apply fifo_facts.move_construct_wf.
    + by apply fifo_facts.wf_moved.
    + apply fifo_facts.head_moved.
    + apply fifo_facts.cells_moved.
    + by apply (fifo_facts.same_nodes_to_list fifo_set.identity).
    + by apply (fifo_facts.same_nodes_size fifo_set.identity).
    + intros x. by apply (fifo_facts.same_nodes_find fifo_set.identity).
  - intros Key M ? ? ? this other Hwf.
    pose proof (fifo_facts.same_nodes_moved fifo_map.identity other
                  (head (list_ this)) Hwf) as Hs.
    exists (moved fifo_map.identity (head (list_ this)) other). split_and!.
    + by apply fifo_facts.move_construct_wf.
    + by apply fifo_facts.wf_moved.
    + apply fifo_facts.head_moved.
    + apply fifo_facts.cells_moved.
    + by apply (fifo_facts.same_nodes_to_list fifo_map.identity).
    + by apply (fifo_facts.same_nodes_size fifo_map.identity).
    + intros k. split.
      * by apply (fifo_facts.same_nodes_find fifo_map.identity).
      * by apply fifo_map_facts.map_at_same.
Qed.

Lemma X9_witness :
  ∃ s', fifo_set.move_assign samples.set_30 samples.set_10_20 = Ok s'
        ∧ head (list_ s') = 1
        ∧ fifo_set.to_list s' = Ok [10; 20].
Proof.
  destruct (proj1 X9_move_assign nat _ _ _ samples.set_30 samples.set_10_20
              samples_facts.set_10_20_wf)
    as (s' & Hrun & _ & Hh & _ & Hl & _).
  exists s'. split_and!; [exact Hrun|exact Hh|].
  rewrite Hl. vm_compute. reflexivity.
Defined.

(** X10 (copy construction, set facade).  Constructing a set at [this]
    from a different set that satisfies the invariant returns; the new set
    lists the elements of the source in the same order, has the same size
    and satisfies the invariant with its list at [this]; the source is
    left as it was. *)
Theorem X10_copy_construct :
  ∀ (T : Type) `{Countable T} `{Allocator}
    (σ : gmap loc (fifo.t T T)) (this x : loc) (src : fifo.t T T),
    this ≠ x → σ !! x = Some src → wf fifo_set.identity src →
    ∃ s', fifo_set.copy_construct this x σ = Ok (<[this := s']> σ)
          ∧ (<[this := s']> σ) !! x = Some src
          ∧ wf fifo_set.identity s'
          ∧ head (list_ s') = this
          ∧ fifo_set.to_list s' = fifo_set.to_list src
          ∧ fifo_set.size s' = fifo_set.size src.
Proof.
  intros T ? ? ? σ this x src Hne Hx Hsrc.
  unfold fifo_set.copy_construct.
  assert (<[this := fifo_set.new_at this]> σ !! x = Some src) as Hx'.
  { by rewrite lookup_insert_ne. }
  assert (<[this := fifo_set.new_at this]> σ !! this
          = Some (fifo_set.new_at this)) as Hthis'.
  { by rewrite lookup_insert_eq. }
  rewrite (fifo_set_facts.obj_lookup _ x src Hx'), fifo_set_facts.bind_Ok.
  destruct (fifo_set_facts.copy_loop_distinct
              (length (cells (list_ src))) this x 0
              (<[this := fifo_set.new_at this]> σ) src (fifo_set.new_at this)
              Hne Hsrc (fifo_facts.wf_new_at _ this) Hx' Hthis'
              (Nat.add_0_r _) eq_refl)
    as (s' & Hrun & Hwf' & Hel & Hh).
  exists s'. unfold fifo_set.begin, begin, forward_list.begin.
  rewrite Hrun, insert_insert_eq. split_and!; [done| |done|done| |].
  - by rewrite lookup_insert_ne.
  - unfold fifo_set.to_list.
    rewrite !(fifo_facts.to_list_elements fifo_set.identity) by done.
    by rewrite Hel.
  - unfold fifo_set.size.
    rewrite !(fifo_facts.wf_size fifo_set.identity) by done.
    apply (f_equal length) in Hel. unfold elements, values in Hel.
    by rewrite !length_fmap in Hel.
Qed.

Lemma X10_witness :
  ∃ s', fifo_set.copy_construct 3 0 {[0 := samples.set_10_20]}
        = Ok (<[3 := s']> {[0 := samples.set_10_20]})
        ∧ head (list_ s') = 3
        ∧ fifo_set.to_list s' = Ok [10; 20].
Proof.
  destruct (X10_copy_construct nat {[0 := samples.set_10_20]} 3 0
              samples.set_10_20)
    as (s' & Hrun & _ & _ & Hh & Hl & _).
  - lia.
  - vm_compute. reflexivity.
  - exact samples_facts.set_10_20_wf.
  - exists s'. split_and!; [exact Hrun|exact Hh|].
    rewrite Hl. vm_compute. reflexivity.
Defined.

(** X11 ([m[k] = x], map facade).  On a map that satisfies the invariant
    the assignment returns; afterwards [at(k)] returns [x] and [at] of
    every other key returns what it returned before; if [k] was present
    its element keeps its place in the order and only its mapped value
    changes, otherwise [(k, x)] is the new last element; the size is that
    of the resulting sequence. *)
Theorem X11_subscript_assign :
  ∀ (Key M : Type) `{Countable Key} `{Allocator} `{Inhabited M}
    (m : fifo.t Key (Key * M)) (k : Key) (x : M),
    wf fifo_map.identity m →
    ∃ m', fifo_map.subscript_assign k x m = Ok m'
          ∧ wf fifo_map.identity m'
          ∧ fifo_map.at_ k m' = Ok x
          ∧ (∀ k', k' ≠ k → fifo_map.at_ k' m' = fifo_map.at_ k' m)
          ∧ (k ∈ (elements m).*1 →
               fifo_map.to_list m'
               = Ok ((λ w, if decide (w.1 = k) then (k, x) else w)
                       <$> elements m)
               ∧ fifo_map.size m' = fifo_map.size m)
          ∧ (k ∉ (elements m).*1 →
               fifo_map.to_list m' = Ok (elements m ++ [(k, x)])
               ∧ fifo_map.size m' = S (fifo_map.size m)).
Proof.
  intros Key M ? ? ? ? m k x Hwf.
  destruct (fifo_map_model_facts.subscript_assign_spec m k x Hwf)
    as (m' & Hrun & Hwf' & Hel & Hat & Hother).
  assert (fifo_map.size m' = length (elements m')) as Hsz'.
  { unfold fifo_map.size.
    rewrite (fifo_facts.wf_size fifo_map.identity m' Hwf').
    unfold elements, values. by rewrite length_fmap. }
  assert (fifo_map.size m = length (elements m)) as Hsz.
  { unfold fifo_map.size.
    rewrite (fifo_facts.wf_size fifo_map.identity m Hwf).
    unfold elements, values. by rewrite length_fmap. }
  exists m'. split_and!; try done.
  - intros Hin. unfold fifo_map.to_list.
    rewrite (fifo_facts.to_list_elements _ m' Hwf'), Hsz', Hsz, Hel.
    unfold reference.assign. rewrite decide_True by done.
    by rewrite length_fmap.
  - intros Hnin. unfold fifo_map.to_list.
    rewrite (fifo_facts.to_list_elements _ m' Hwf'), Hsz', Hsz, Hel.
    unfold reference.assign. rewrite decide_False by done.
    rewrite length_app. simpl. split; [done|lia].
Qed.

Lemma X11_witness :
  ∃ m', fifo_map.subscript_assign 7 71 samples.map_7_9 = Ok m'
        ∧ fifo_map.at_ 7 m' = Ok 71
        ∧ fifo_map.at_ 9 m' = Ok 90
        ∧ fifo_map.to_list m' = Ok [(7, 71); (9, 90)].
Proof.
  destruct (X11_subscript_assign nat nat samples.map_7_9 7 71
              samples_facts.map_7_9_wf)
    as (m' & Hrun & _ & Hat & Hother & Hin & _).
  exists m'. split_and!; [exact Hrun|exact Hat| |].
  - rewrite (Hother 9) by lia. vm_compute. reflexivity.
  - apply Hin. apply (bool_decide_unpack _). by vm_compute.
Defined.

(** X12 (the set against the sequence model).  Every run of set operations
    other than erasure through an iterator, started on a set that satisfies
    the invariant (a new set in particular), returns, and the resulting set
    lists exactly the sequence obtained by applying to the sequence of its
    elements, in turn: append unless present ([emplace_back], [emplace]),
    prepend unless present ([emplace_front]), remove ([erase]), empty
    ([clear]), keep (move).  Its size is the length of that sequence. *)
Theorem X12_set_refines_sequence :
  (∀ (T : Type) `{Countable T} `{Allocator}
     (ops : list fifo_set.op) (s : fifo.t T T),
     wf fifo_set.identity s → Forall reference.set_by_value ops →
     ∃ s', fifo_set.run ops s = Ok s'
           ∧ wf fifo_set.identity s'
           ∧ fifo_set.to_list s' = Ok (reference.set_run ops (elements s))
           ∧ fifo_set.size s' = length (reference.set_run ops (elements s)))
  ∧
  (∀ (T : Type) `{Countable T} `{Allocator}
     (ops : list fifo_set.op) (h : loc),
     Forall reference.set_by_value ops →
     ∃ s' : fifo.t T T,
       fifo_set.run ops (fifo_set.new_at h) = Ok s'
       ∧ fifo_set.to_list s' = Ok (reference.set_run ops [])
       ∧ fifo_set.size s' = length (reference.set_run ops [])).
Proof.
  assert (∀ (T : Type) `{Countable T} `{Allocator}
            (ops : list fifo_set.op) (s : fifo.t T T),
            wf fifo_set.identity s → Forall reference.set_by_value ops →
            ∃ s', fifo_set.run ops s = Ok s'
                  ∧ wf fifo_set.identity s'
                  ∧ fifo_set.to_list s'
                    = Ok (reference.set_run ops (elements s))
                  ∧ fifo_set.size s'
                    = length (reference.set_run ops (elements s))) as Hgen.
  { intros T ? ? ? ops s Hwf Hops.
    destruct (fifo_set_model_facts.set_run_model ops s Hwf Hops)
      as (s' & Hrun & Hwf' & Hel).
    exists s'. split_and!; [done..| |].
    - unfold fifo_set.to_list.
      by rewrite (fifo_facts.to_list_elements _ s' Hwf'), Hel.
    - unfold fifo_set.size.
      rewrite (fifo_facts.wf_size fifo_set.identity s' Hwf'), <-Hel.
      unfold elements, values. by rewrite length_fmap. }
  split; [exact Hgen|].
  intros T ? ? ? ops h Hops.
  destruct (Hgen T _ _ _ ops (fifo_set.new_at h)
              (fifo_facts.wf_new_at _ h) Hops)
    as (s' & Hrun & _ & Hl & Hsz).
  by exists s'.
Qed.

Lemma X12_witness :
  ∃ s', fifo_set.run [fifo_set.EmplaceFront 5; fifo_set.Erase 10;
                      fifo_set.EmplaceBack 20; fifo_set.MoveTo 4;
                      fifo_set.EmplaceBack 10] samples.set_10_20 = Ok s'
        ∧ fifo_set.to_list s' = Ok [5; 20; 10].
Proof.
  destruct (proj1 X12_set_refines_sequence nat _ _ _
              [fifo_set.EmplaceFront 5; fifo_set.Erase 10;
               fifo_set.EmplaceBack 20; fifo_set.MoveTo 4;
               fifo_set.EmplaceBack 10] samples.set_10_20
              samples_facts.set_10_20_wf)
    as (s' & Hrun & _ & Hl & _).
  - repeat (apply List.Forall_cons; [exact I|]). apply List.Forall_nil.
  - exists s'. split; [exact Hrun|]. rewrite Hl. vm_compute. reflexivity.
Defined.

(** X13 (the map against the sequence model).  Every run of map operations
    other than erasure through an iterator, started on a map that satisfies
    the invariant (a new map in particular), returns, and the resulting map
    lists exactly the sequence obtained by applying, in turn: append unless
    the key is present ([emplace_back], [emplace]; a present key keeps its
    mapped value), remove the key ([erase]), empty ([clear]), keep (move),
    and for [m[k] = x] overwrite the mapped value of [k] in place or append
    [(k, x)].  Its size is the length of that sequence. *)
Theorem X13_map_refines_sequence :
  (∀ (Key M : Type) `{Countable Key} `{Allocator} `{Inhabited M}
     (ops : list fifo_map.op) (m : fifo.t Key (Key * M)),
     wf fifo_map.identity m → Forall reference.map_by_value ops →
     ∃ m', fifo_map.run ops m = Ok m'
           ∧ wf fifo_map.identity m'
           ∧ fifo_map.to_list m' = Ok (reference.map_run ops (elements m))
           ∧ fifo_map.size m' = length (reference.map_run ops (elements m)))
  ∧
  (∀ (Key M : Type) `{Countable Key} `{Allocator} `{Inhabited M}
     (ops : list fifo_map.op) (h : loc),
     Forall (reference.map_by_value (Key:=Key) (M:=M)) ops →
     ∃ m' : fifo.t Key (Key * M),
       fifo_map.run ops (fifo_map.new_at h) = Ok m'
       ∧ fifo_map.to_list m' = Ok (reference.map_run ops [])
       ∧ fifo_map.size m' = length (reference.map_run ops [])).
Proof.
  assert (∀ (Key M : Type) `{Countable Key} `{Allocator} `{Inhabited M}
            (ops : list fifo_map.op) (m : fifo.t Key (Key * M)),
            wf fifo_map.identity m → Forall reference.map_by_value ops →
            ∃ m', fifo_map.run ops m = Ok m'
                  ∧ wf fifo_map.identity m'
                  ∧ fifo_map.to_list m'
                    = Ok (reference.map_run ops (elements m))
                  ∧ fifo_map.size m'
                    = length (reference.map_run ops (elements m))) as Hgen.
  { intros Key M ? ? ? ? ops m Hwf Hops.
    destruct (fifo_map_model_facts.map_run_model ops m Hwf Hops)
      as (m' & Hrun & Hwf' & Hel).
    exists m'. split_and!; [done..| |].
    - unfold fifo_map.to_list.
      by rewrite (fifo_facts.to_list_elements _ m' Hwf'), Hel.
    - unfold fifo_map.size.
      rewrite (fifo_facts.wf_size fifo_map.identity m' Hwf'), <-Hel.
      unfold elements, values. by rewrite length_fmap. }
  split; [exact Hgen|].
  intros Key M ? ? ? ? ops h Hops.
  destruct (Hgen Key M _ _ _ _ ops (fifo_map.new_at h)
              (fifo_facts.wf_new_at _ h) Hops)
    as (m' & Hrun & _ & Hl & Hsz).
  by exists m'.
Qed.

Lemma X13_witness :
  ∃ m', fifo_map.run [fifo_map.SubscriptAssign 8 80; fifo_map.Erase 7;
                      fifo_map.EmplaceBack (9, 0);
                      fifo_map.SubscriptAssign 9 91;
                      fifo_map.Emplace (7, 1)] samples.map_7_9 = Ok m'
        ∧ fifo_map.to_list m' = Ok [(9, 91); (8, 80); (7, 1)].
Proof.
  destruct (proj1 X13_map_refines_sequence nat nat _ _ _ _
              [fifo_map.SubscriptAssign 8 80; fifo_map.Erase 7;
               fifo_map.EmplaceBack (9, 0);
               fifo_map.SubscriptAssign 9 91;
               fifo_map.Emplace (7, 1)] samples.map_7_9
              samples_facts.map_7_9_wf)
    as (m' & Hrun & _ & Hl & _).
  - repeat (apply List.Forall_cons; [exact I|]). apply List.Forall_nil.
  - exists m'. split; [exact Hrun|]. rewrite Hl. vm_compute. reflexivity.
Defined.

(** X14 (the object a move leaves behind, and [clear]).  The move
    constructor and move assignment do not reset [list_back] of the source.
    With the moved-from index and list empty, as the library leaves them,
    the source of a move from a non-empty container reports size 0, lists
    nothing, and [find] and [erase] by identity treat it as empty; but its
    [list_back] still is the last node it gave away, not its own
    before-begin slot, so that an insertion into it hands its list an
    iterator the list does not own and has no defined result.  [clear]
    resets it to the state of a newly constructed container, which
    satisfies the invariant. *)
Theorem X14_moved_from :
  (∀ (T : Type) `{Countable T} `{Allocator} (s : fifo.t T T),
     wf fifo_set.identity s → cells (list_ s) ≠ [] →
     fifo_set.size (moved_from s) = 0
     ∧ fifo_set.to_list (moved_from s) = Ok []
     ∧ (∀ x, fifo_set.find x (moved_from s) = Ok End
             ∧ fifo_set.erase x (moved_from s) = Ok (moved_from s))
     ∧ list_back (moved_from s) = list_back s
     ∧ list_back (moved_from s) ≠ before_begin (list_ (moved_from s))
     ∧ (∀ x, fifo_set.emplace_back x (moved_from s)
             = Fail undefined_behaviour
             ∧ fifo_set.emplace_front x (moved_from s)
               = Fail undefined_behaviour)
     ∧ fifo_set.clear (moved_from s) = fifo_set.new_at (head (list_ s))
     ∧ wf fifo_set.identity (fifo_set.clear (moved_from s)))
  ∧
  (∀ (Key M : Type) `{Countable Key} `{Allocator} `{Inhabited M}
     (m : fifo.t Key (Key * M)),
     wf fifo_map.identity m → cells (list_ m) ≠ [] →
     fifo_map.size (moved_from m) = 0
     ∧ fifo_map.to_list (moved_from m) = Ok []
     ∧ (∀ k, fifo_map.find k (moved_from m) = Ok End
             ∧ fifo_map.erase k (moved_from m) = Ok (moved_from m)
             ∧ fifo_map.at_ k (moved_from m) = Fail out_of_range)
     ∧ list_back (moved_from m) = list_back m
     ∧ list_back (moved_from m) ≠ before_begin (list_ (moved_from m))
     ∧ (∀ v, fifo_map.emplace_back v (moved_from m)
             = Fail undefined_behaviour)
     ∧ (∀ k, fifo_map.subscript k (moved_from m) = Fail undefined_behaviour)
     ∧ fifo_map.clear (moved_from m) = fifo_map.new_at (head (list_ m))
     ∧ wf fifo_map.identity (fifo_map.clear (moved_from m))).
Proof.
  split.
  - intros T ? ? ? s Hwf Hne. split_and!.
    + done.
    + done.
    + intros x. by split.
    + done.
    + by apply (fifo_lookup_facts.moved_from_tail fifo_set.identity).
    + intros x.
      apply (fifo_lookup_facts.moved_from_insert_fails fifo_set.identity
               s x Hwf Hne).
    + done.
    + apply fifo_facts.wf_clear.
  - intros Key M ? ? ? ? m Hwf Hne. split_and!.
    + done.
    + done.
    + intros k. by split_and!.
    + done.
    + by apply (fifo_lookup_facts.moved_from_tail fifo_map.identity).
    + intros v.
      apply (fifo_lookup_facts.moved_from_insert_fails fifo_map.identity
               m v Hwf Hne).
    + intros k. unfold fifo_map.subscript. simpl.
      destruct (fifo_lookup_facts.moved_from_insert_fails fifo_map.identity
                  m (k, inhabitant) Hwf Hne) as [Hb _].
      unfold fifo_map.emplace, emplace. by rewrite Hb.
    + done.
    + apply fifo_facts.wf_clear.
Qed.

Lemma X14_witness :
  list_back (moved_from samples.set_10_20) = Node 2
  ∧ list_back (moved_from samples.set_10_20)
    ≠ before_begin (list_ (moved_from samples.set_10_20))
  ∧ fifo_set.emplace_back 5 (moved_from samples.set_10_20)
    = Fail undefined_behaviour
  ∧ fifo_set.clear (moved_from samples.set_10_20) = fifo_set.new_at 0.
Proof.
  destruct (proj1 X14_moved_from nat _ _ _ samples.set_10_20
              samples_facts.set_10_20_wf)
    as (_ & _ & _ & Hlb & Hne & Hins & Hcl & _).
  - discriminate.
  - split_and!; [exact Hlb|exact Hne|exact (proj1 (Hins 5))|exact Hcl].
Defined.
